(** * Glyph bitmap packing and COLRv1 paint-graph rendering
      (src/ports/SkFontHost_FreeType_common.cpp)

    A shallow embedding of the FreeType glue of Skia:
    - the A8 -> A1 bit packing ([convert_8_to_1], [pack_8_to_1], [packA8ToA1]);
    - the colour-stop resolver [fetchColorStops] and the paint configuration
      [colrv1_configure_skpaint];
    - the two recursive walks over the COLRv1 paint graph,
      [colrv1_traverse_paint] and [colrv1_traverse_paint_bounds], with their
      [VisitedSet] of active paints;
    - the outline sink [SkFTGeometrySink] with the path generators
      [generateGlyphPathStatic] and [generateFacePathStatic], and the glyph
      drawers [drawCOLRv0Glyph] and [drawCOLRv1Glyph];
    - the bitmap copies [copyFTBitmap] and [copyFT2LCD16], and the
      arithmetic of [generateGlyphImage] that places an outline and fits an
      LCD bitmap to its mask;
    - the storage of [SkEmbeddableLinearPipeline]
      (src/core/SkLinearBitmapPipeline.h).

    [SkScalar] is IEEE-754 binary32; it is modelled bit-exactly with the
    Standard Library's [SpecFloat] at precision 24 and maximal exponent 128.
    Integers of the C++ code are [Z] with the wrap-around written out where
    the code can reach it.  The FreeType face is a finite map from opaque
    paint handles to decoded paint records. *)

From Stdlib Require Import ZArith List Lia Bool.
From Stdlib Require Import Floats.SpecFloat.
From stdpp Require Import gmap list relations sorting.

(** ** binary32 arithmetic *)

Module F32.
Local Open Scope Z_scope.

Definition prec : Z := 24.
Definition emax : Z := 128.

(** Conversion of a C++ integer to [float] (round to nearest even). *)
Definition of_Z (z : Z) : spec_float := binary_normalize prec emax z 0 false.

Definition add : spec_float -> spec_float -> spec_float := SFadd prec emax.
Definition sub : spec_float -> spec_float -> spec_float := SFsub prec emax.
Definition mul : spec_float -> spec_float -> spec_float := SFmul prec emax.
Definition div : spec_float -> spec_float -> spec_float := SFdiv prec emax.
Definition opp : spec_float -> spec_float := SFopp.
Definition eqb : spec_float -> spec_float -> bool := SFeqb.
Definition ltb : spec_float -> spec_float -> bool := SFltb.
Definition leb : spec_float -> spec_float -> bool := SFleb.

Definition zero : spec_float := S754_zero false.
Definition one : spec_float := of_Z 1.

(** C++ truth value of a float: [!x] holds exactly when [x == 0.0f]. *)
Definition is_zero (x : spec_float) : bool := eqb x zero.

Definition is_finite (x : spec_float) : bool :=
  match x with
  | S754_zero _ | S754_finite _ _ _ => true
  | S754_infinity _ | S754_nan => false
  end.

Definition is_nan (x : spec_float) : bool :=
  match x with S754_nan => true | _ => false end.

(** Conversion of a [float] to [unsigned]: the fractional part is
    discarded.  The conversion is undefined in C++ when the truncated
    value does not fit; the model wraps modulo 2^32 and sends NaN and the
    infinities to 0. *)
Definition trunc (x : spec_float) : Z :=
  match x with
  | S754_finite s m e =>
      let v := if 0 <=? e then Z.pos m * 2 ^ e else Z.pos m / 2 ^ (- e) in
      if s then - v else v
  | _ => 0
  end.

Definition to_unsigned (x : spec_float) : Z := trunc x mod 2 ^ 32.

(** The normal binary32 number of value [z * 2^scale], for an integer
    [z] of at most 24 bits. *)
Definition dyadic (z scale : Z) : spec_float :=
  if z =? 0 then S754_zero false
  else
    let a := Z.abs z in
    S754_finite (z <? 0) (Z.to_pos (a * 2 ^ (23 - Z.log2 a)))
                (Z.log2 a - 23 + scale).
End F32.

Abbreviation SkScalar := spec_float (only parsing).

(** ** Skia scalar, colour and point helpers *)

Local Open Scope Z_scope.

(** Modelled from the spec: [SkFixedToScalar] (include/private/base/SkFixed.h
    is not among the sources) converts a 16.16 fixed-point number with
    [x * 1.52587890625e-05f], that is, a conversion to [float] followed by a
    product with 2^-16. *)
Definition SkFixedToScalar (x : Z) : SkScalar :=
  F32.mul (F32.of_Z x) (F32.dyadic 1 (-16)).

(** [inline float SkColrV1AlphaToFloat(uint16_t alpha)]: the argument is
    converted to [uint16_t] at the call. *)
Definition SkColrV1AlphaToFloat (alpha : Z) : SkScalar :=
  F32.div (F32.of_Z (alpha mod 2 ^ 16)) (F32.of_Z (Z.shiftl 1 14)).

(** A colour is a 32-bit ARGB word. *)
Abbreviation SkColor := Z (only parsing).

Definition SK_ColorTRANSPARENT : SkColor := 0x00000000.
Definition SK_ColorBLACK : SkColor := 0xFF000000.

(** Modelled from the spec: [SkColorGetA] and [SkColorSetA]
    (include/core/SkColor.h is not among the sources) read and replace the
    top byte of the colour word; the shift in [SkColorSetA] is a 32-bit
    unsigned shift. *)
Definition SkColorGetA (c : SkColor) : Z := Z.land (Z.shiftr c 24) 0xFF.

Definition SkColorSetA (c : SkColor) (a : Z) : SkColor :=
  Z.lor (Z.land c 0x00FFFFFF) (Z.shiftl a 24 mod 2 ^ 32).

Record SkPoint := MakePoint { fX : SkScalar; fY : SkScalar }.

(** Modelled from the spec: the [SkPoint] operators
    (include/core/SkPoint.h is not among the sources) work componentwise
    on [float]. *)
Definition SkPoint_eqb (a b : SkPoint) : bool :=
  F32.eqb (fX a) (fX b) && F32.eqb (fY a) (fY b).

Definition SkPoint_add (a b : SkPoint) : SkPoint :=
  MakePoint (F32.add (fX a) (fX b)) (F32.add (fY a) (fY b)).

Definition SkPoint_sub (a b : SkPoint) : SkPoint :=
  MakePoint (F32.sub (fX a) (fX b)) (F32.sub (fY a) (fY b)).

Definition SkPoint_scale (a : SkPoint) (s : SkScalar) : SkPoint :=
  MakePoint (F32.mul (fX a) s) (F32.mul (fY a) s).

Definition DotProduct (a b : SkPoint) : SkScalar :=
  F32.add (F32.mul (fX a) (fX b)) (F32.mul (fY a) (fY b)).

Definition CrossProduct (a b : SkPoint) : SkScalar :=
  F32.sub (F32.mul (fX a) (fY b)) (F32.mul (fY a) (fX b)).

(** The mathematical routines the file calls and that are defined
    elsewhere (libm and SkPoint.cpp): they are parameters of the model. *)
Class SkMath := {
  SkScalarMod : SkScalar -> SkScalar -> SkScalar;
  SkScalarTan : SkScalar -> SkScalar;
  SkPoint_length : SkPoint -> SkScalar;
  SkPoint_normalize : SkPoint -> SkPoint
}.

(** ** A8 to A1 packing *)

(** [inline int convert_8_to_1(unsigned byte)]. *)
Definition convert_8_to_1 (byte : Z) : Z :=
  if Z.shiftr byte 6 =? 0 then 0 else 1.

(** [SkToU8]: narrowing to [uint8_t]. *)
Definition SkToU8 (x : Z) : Z := x mod 2 ^ 8.

(** The loop of [pack_8_to_1]: [n] iterations left, [i] the index. *)
Fixpoint pack_8_to_1_loop (n : nat) (alpha : list Z) (i : nat) (bits : Z) : Z :=
  match n with
  | O => bits
  | S n' =>
      let bits := Z.shiftl bits 1 mod 2 ^ 32 in
      let bits := Z.lor bits (convert_8_to_1 (alpha !!! i)) in
      pack_8_to_1_loop n' alpha (S i) bits
  end.

(** [uint8_t pack_8_to_1(const uint8_t alpha[8])]. *)
Definition pack_8_to_1 (alpha : list Z) : Z :=
  SkToU8 (pack_8_to_1_loop 8 alpha 0 0).

Record SkIRect := { fLeft : Z; fTop : Z; fRight : Z; fBottom : Z }.

Definition SkIRect_width (r : SkIRect) : Z := fRight r - fLeft r.
Definition SkIRect_height (r : SkIRect) : Z := fBottom r - fTop r.

(** The destination mask: [fImage] is the caller's buffer. *)
Record SkMask := {
  fImage : list Z;
  fBounds : SkIRect;
  fRowBytes : Z
}.

Definition SkAlign8 (x : Z) : Z := Z.shiftl (Z.shiftr (x + 7) 3) 3.

(** The cursor of [packA8ToA1]: the offsets of [src] and [dst] from the
    start of their buffers, and the destination buffer. *)
Record PackState := { srcOff : Z; dstOff : Z; dstBuf : list Z }.

Definition store (buf : list Z) (off : Z) (v : Z) : list Z :=
  if 0 <=? off then <[Z.to_nat off := v]> buf else buf.

Definition load (buf : list Z) (off : Z) : Z :=
  if 0 <=? off then buf !!! Z.to_nat off else 0.

(** [for (int i = 0; i < octs; ++i) { *dst++ = pack_8_to_1(src); src += 8; }] *)
Fixpoint pack_octs (n : nat) (src : list Z) (st : PackState) : PackState :=
  match n with
  | O => st
  | S n' =>
      let b := pack_8_to_1 (drop (Z.to_nat (srcOff st)) src) in
      pack_octs n' src
        {| srcOff := srcOff st + 8; dstOff := dstOff st + 1;
           dstBuf := store (dstBuf st) (dstOff st) b |}
  end.

(** [for (int i = 0; i < leftOverBits; ++i, --shift)
       bits |= convert_8_to_1( *src++ ) << shift;] *)
Fixpoint pack_leftover (n : nat) (src : list Z) (s : Z) (shift : Z) (bits : Z)
  : Z * Z :=
  match n with
  | O => (s, bits)
  | S n' =>
      pack_leftover n' src (s + 1) (shift - 1)
        (Z.lor bits (Z.shiftl (convert_8_to_1 (load src s)) shift))
  end.

Definition pack_row (octs leftOverBits srcPad dstPad : Z) (src : list Z)
    (st : PackState) : PackState :=
  let st := pack_octs (Z.to_nat octs) src st in
  let st :=
    if 0 <? leftOverBits then
      let '(s, bits) := pack_leftover (Z.to_nat leftOverBits) src (srcOff st) 7 0 in
      {| srcOff := s; dstOff := dstOff st + 1;
         dstBuf := store (dstBuf st) (dstOff st) (SkToU8 bits) |}
    else st in
  {| srcOff := srcOff st + srcPad; dstOff := dstOff st + dstPad;
     dstBuf := dstBuf st |}.

Fixpoint pack_rows (height : nat) (octs leftOverBits srcPad dstPad : Z)
    (src : list Z) (st : PackState) : PackState :=
  match height with
  | O => st
  | S h =>
      pack_rows h octs leftOverBits srcPad dstPad src
        (pack_row octs leftOverBits srcPad dstPad src st)
  end.

(** [void packA8ToA1(const SkMask& mask, const uint8_t* src, size_t srcRB)]:
    the result is the content of [mask.fImage] afterwards. *)
Definition packA8ToA1 (mask : SkMask) (src : list Z) (srcRB : Z) : list Z :=
  let height := SkIRect_height (fBounds mask) in
  let width := SkIRect_width (fBounds mask) in
  let octs := Z.shiftr width 3 in
  let leftOverBits := Z.land width 7 in
  let dstPad := fRowBytes mask - SkAlign8 width / 8 in
  let srcPad := srcRB - width in
  dstBuf (pack_rows (Z.to_nat height) octs leftOverBits srcPad dstPad src
            {| srcOff := 0; dstOff := 0; dstBuf := fImage mask |}).

(** ** The FreeType COLRv1 data model *)

(** [FT_OpaquePaint]: the address of the paint record in the font table and
    the root-transform flag.  [operator==] of the source compares both. *)
Record FT_OpaquePaint := OpaquePaint {
  p : Z;
  insert_root_transform : bool
}.

#[global] Instance FT_OpaquePaint_eq_dec : EqDecision FT_OpaquePaint.
Proof. solve_decision. Defined.

#[global] Instance FT_OpaquePaint_countable : Countable FT_OpaquePaint.
Proof.
  refine (inj_countable' (fun o => (p o, insert_root_transform o))
                         (fun q => OpaquePaint q.1 q.2) _).
  by intros [].
Defined.

(** [using VisitedSet = SkTHashSet<FT_OpaquePaint, OpaquePaintHasher>]. *)
Abbreviation VisitedSet := (gset FT_OpaquePaint) (only parsing).

(** [FT_ColorIndex]: [palette_index] is an [FT_UInt16], [alpha] an
    [FT_F2Dot14]. *)
Record FT_ColorIndex := {
  palette_index : Z;
  alpha : Z
}.

Record FT_ColorStop := {
  stop_offset : Z;
  color : FT_ColorIndex
}.

(** [FT_ColorStopIterator]: [stop_data] stands for the bytes at the
    iterator's pointer, decoded. *)
Record FT_ColorStopIterator := {
  num_color_stops : nat;
  current_color_stop : nat;
  stop_data : list FT_ColorStop
}.

Inductive FT_PaintExtend :=
  | FT_COLR_PAINT_EXTEND_PAD
  | FT_COLR_PAINT_EXTEND_REPEAT
  | FT_COLR_PAINT_EXTEND_REFLECT.

Record FT_ColorLine := {
  extend : FT_PaintExtend;
  color_stop_iterator : FT_ColorStopIterator
}.

(** Coordinates are [FT_Fixed] (16.16). *)
Record FT_Vector := { x : Z; y : Z }.

Record FT_Affine23 := {
  xx : Z; xy : Z; dx : Z;
  yx : Z; yy : Z; dy : Z
}.

Inductive FT_Composite_Mode :=
  | FT_COLR_COMPOSITE_CLEAR | FT_COLR_COMPOSITE_SRC | FT_COLR_COMPOSITE_DEST
  | FT_COLR_COMPOSITE_SRC_OVER | FT_COLR_COMPOSITE_DEST_OVER
  | FT_COLR_COMPOSITE_SRC_IN | FT_COLR_COMPOSITE_DEST_IN
  | FT_COLR_COMPOSITE_SRC_OUT | FT_COLR_COMPOSITE_DEST_OUT
  | FT_COLR_COMPOSITE_SRC_ATOP | FT_COLR_COMPOSITE_DEST_ATOP
  | FT_COLR_COMPOSITE_XOR | FT_COLR_COMPOSITE_PLUS | FT_COLR_COMPOSITE_SCREEN
  | FT_COLR_COMPOSITE_OVERLAY | FT_COLR_COMPOSITE_DARKEN
  | FT_COLR_COMPOSITE_LIGHTEN | FT_COLR_COMPOSITE_COLOR_DODGE
  | FT_COLR_COMPOSITE_COLOR_BURN | FT_COLR_COMPOSITE_HARD_LIGHT
  | FT_COLR_COMPOSITE_SOFT_LIGHT | FT_COLR_COMPOSITE_DIFFERENCE
  | FT_COLR_COMPOSITE_EXCLUSION | FT_COLR_COMPOSITE_MULTIPLY
  | FT_COLR_COMPOSITE_HSL_HUE | FT_COLR_COMPOSITE_HSL_SATURATION
  | FT_COLR_COMPOSITE_HSL_COLOR | FT_COLR_COMPOSITE_HSL_LUMINOSITY
  | FT_COLR_COMPOSITE_MAX.

(** [FT_COLR_Paint]: the tagged union, one constructor per
    [FT_COLR_PAINTFORMAT_*]; the layer iterator of a [COLR_LAYERS] paint is
    the list of paints that [FT_Get_Paint_Layers] hands out.
    [PaintUnsupported] is any other format value. *)
Inductive FT_COLR_Paint :=
  | PaintColrLayers (layer_iterator : list FT_OpaquePaint)
  | PaintGlyph (paint : FT_OpaquePaint) (glyphID : Z)
  | PaintColrGlyph (glyphID : Z)
  | PaintTransform (paint : FT_OpaquePaint) (affine : FT_Affine23)
  | PaintTranslate (paint : FT_OpaquePaint) (dx dy : Z)
  | PaintScale (paint : FT_OpaquePaint) (scale_x scale_y center_x center_y : Z)
  | PaintRotate (paint : FT_OpaquePaint) (angle center_x center_y : Z)
  | PaintSkew (paint : FT_OpaquePaint)
              (x_skew_angle y_skew_angle center_x center_y : Z)
  | PaintComposite (source_paint : FT_OpaquePaint)
                   (composite_mode : FT_Composite_Mode)
                   (backdrop_paint : FT_OpaquePaint)
  | PaintSolid (color : FT_ColorIndex)
  | PaintLinearGradient (colorline : FT_ColorLine) (p0 p1 p2 : FT_Vector)
  | PaintRadialGradient (colorline : FT_ColorLine)
                        (c0 : FT_Vector) (r0 : Z) (c1 : FT_Vector) (r1 : Z)
  | PaintSweepGradient (colorline : FT_ColorLine) (center : FT_Vector)
                       (start_angle end_angle : Z)
  | PaintUnsupported.

Inductive FT_Color_Root_Transform :=
  | FT_COLOR_INCLUDE_ROOT_TRANSFORM
  | FT_COLOR_NO_ROOT_TRANSFORM.

(** An outline, as far as this file looks at it: a list of points; the
    empty list is the empty path. *)
Abbreviation SkPath := (list (Z * Z)) (only parsing).

(** What the file asks of an [FT_Face]: the paint table read by
    [FT_Get_Paint], the root paints read by [FT_Get_Color_Glyph_Paint], the
    unscaled outlines loaded by [generateFacePathCOLRv1] and the clip boxes
    built by [GetClipBoxPath]. *)
Record FT_Face := {
  paints : gmap FT_OpaquePaint FT_COLR_Paint;
  color_glyph_paint : Z -> FT_Color_Root_Transform -> option FT_OpaquePaint;
  glyph_outline : Z -> option SkPath;
  clip_box : Z -> bool -> SkPath
}.

Definition FT_Get_Paint (face : FT_Face) (opaquePaint : FT_OpaquePaint)
  : option FT_COLR_Paint := paints face !! opaquePaint.

Definition FT_Get_Color_Glyph_Paint (face : FT_Face) (glyphId : Z)
    (rootTransform : FT_Color_Root_Transform) : option FT_OpaquePaint :=
  color_glyph_paint face glyphId rootTransform.

Definition generateFacePathCOLRv1 (face : FT_Face) (glyphID : Z)
  : option SkPath := glyph_outline face glyphID.

Definition GetClipBoxPath (face : FT_Face) (glyphId : Z) (untransformed : bool)
  : SkPath := clip_box face glyphId untransformed.

(** [FT_Get_Colorline_Stops]: the next stop and the advanced iterator, or
    [None] once [num_color_stops] stops were read or the table is
    exhausted. *)
Definition FT_Get_Colorline_Stops (it : FT_ColorStopIterator)
  : option (FT_ColorStop * FT_ColorStopIterator) :=
  if (num_color_stops it <=? current_color_stop it)%nat then None
  else
    match stop_data it with
    | [] => None
    | cs :: rest =>
        Some (cs, {| num_color_stops := num_color_stops it;
                     current_color_stop := S (current_color_stop it);
                     stop_data := rest |})
    end.

(** ** Paints, shaders, matrices and the canvas *)

Inductive SkTileMode := kClamp | kRepeat | kMirror | kDecal.

Inductive SkBlendMode :=
  | kClear | kSrc | kDst | kSrcOver | kDstOver | kSrcIn | kDstIn | kSrcOut
  | kDstOut | kSrcATop | kDstATop | kXor | kPlus | kModulate | kScreen
  | kOverlay | kDarken | kLighten | kColorDodge | kColorBurn | kHardLight
  | kSoftLight | kDifference | kExclusion | kMultiply | kHue | kSaturation
  | kColor | kLuminosity.

Definition ToSkTileMode (extendMode : FT_PaintExtend) : SkTileMode :=
  match extendMode with
  | FT_COLR_PAINT_EXTEND_REPEAT => kRepeat
  | FT_COLR_PAINT_EXTEND_REFLECT => kMirror
  | _ => kClamp
  end.

Definition ToSkBlendMode (compositeMode : FT_Composite_Mode) : SkBlendMode :=
  match compositeMode with
  | FT_COLR_COMPOSITE_CLEAR => kClear
  | FT_COLR_COMPOSITE_SRC => kSrc
  | FT_COLR_COMPOSITE_DEST => kDst
  | FT_COLR_COMPOSITE_SRC_OVER => kSrcOver
  | FT_COLR_COMPOSITE_DEST_OVER => kDstOver
  | FT_COLR_COMPOSITE_SRC_IN => kSrcIn
  | FT_COLR_COMPOSITE_DEST_IN => kDstIn
  | FT_COLR_COMPOSITE_SRC_OUT => kSrcOut
  | FT_COLR_COMPOSITE_DEST_OUT => kDstOut
  | FT_COLR_COMPOSITE_SRC_ATOP => kSrcATop
  | FT_COLR_COMPOSITE_DEST_ATOP => kDstATop
  | FT_COLR_COMPOSITE_XOR => kXor
  | FT_COLR_COMPOSITE_PLUS => kPlus
  | FT_COLR_COMPOSITE_SCREEN => kScreen
  | FT_COLR_COMPOSITE_OVERLAY => kOverlay
  | FT_COLR_COMPOSITE_DARKEN => kDarken
  | FT_COLR_COMPOSITE_LIGHTEN => kLighten
  | FT_COLR_COMPOSITE_COLOR_DODGE => kColorDodge
  | FT_COLR_COMPOSITE_COLOR_BURN => kColorBurn
  | FT_COLR_COMPOSITE_HARD_LIGHT => kHardLight
  | FT_COLR_COMPOSITE_SOFT_LIGHT => kSoftLight
  | FT_COLR_COMPOSITE_DIFFERENCE => kDifference
  | FT_COLR_COMPOSITE_EXCLUSION => kExclusion
  | FT_COLR_COMPOSITE_MULTIPLY => kMultiply
  | FT_COLR_COMPOSITE_HSL_HUE => kHue
  | FT_COLR_COMPOSITE_HSL_SATURATION => kSaturation
  | FT_COLR_COMPOSITE_HSL_COLOR => kColor
  | FT_COLR_COMPOSITE_HSL_LUMINOSITY => kLuminosity
  | _ => kDst
  end.

(** A matrix is kept as the list of the [SkMatrix] factory and
    concatenation calls that built it, in call order; the empty list is the
    identity. *)
Inductive SkMatrixOp :=
  | MakeAll (sx kx tx ky sy ty p0 p1 p2 : SkScalar)
  | Translate (dx dy : SkScalar)
  | Scale (sx sy px py : SkScalar)
  | RotateDeg (deg px py : SkScalar)
  | Skew (kx ky px py : SkScalar).

Abbreviation SkMatrix := (list SkMatrixOp) (only parsing).

(** The gradient shaders, by the [SkGradientShader] factory call. *)
Inductive SkShader :=
  | MakeLinear (pts0 pts1 : SkPoint) (colors : list SkColor)
               (pos : list SkScalar) (mode : SkTileMode)
  | MakeTwoPointConical (start : SkPoint) (startRadius : SkScalar)
                        (end_ : SkPoint) (endRadius : SkScalar)
                        (colors : list SkColor) (pos : list SkScalar)
                        (mode : SkTileMode)
  | MakeSweep (cx cy : SkScalar) (colors : list SkColor) (pos : list SkScalar)
              (mode : SkTileMode) (startAngle endAngle : SkScalar)
              (localMatrix : SkMatrix).

Record SkPaint := {
  fColor : SkColor;
  fShader : option SkShader;
  fAntiAlias : bool;
  fBlendMode : SkBlendMode
}.

(** [SkPaint()]: opaque black, no shader. *)
Definition SkPaint_default : SkPaint :=
  {| fColor := SK_ColorBLACK; fShader := None; fAntiAlias := false;
     fBlendMode := kSrcOver |}.

Definition setColor (c : SkColor) (paint : SkPaint) : SkPaint :=
  {| fColor := c; fShader := fShader paint; fAntiAlias := fAntiAlias paint;
     fBlendMode := fBlendMode paint |}.

Definition setShader (s : option SkShader) (paint : SkPaint) : SkPaint :=
  {| fColor := fColor paint; fShader := s; fAntiAlias := fAntiAlias paint;
     fBlendMode := fBlendMode paint |}.

Definition setAntiAlias (aa : bool) (paint : SkPaint) : SkPaint :=
  {| fColor := fColor paint; fShader := fShader paint; fAntiAlias := aa;
     fBlendMode := fBlendMode paint |}.

Definition setBlendMode (m : SkBlendMode) (paint : SkPaint) : SkPaint :=
  {| fColor := fColor paint; fShader := fShader paint;
     fAntiAlias := fAntiAlias paint; fBlendMode := m |}.

(** The calls a canvas receives. *)
Inductive CanvasOp :=
  | OpSave
  | OpSaveLayer (paint : option SkPaint)
  | OpRestore
  | OpConcat (m : SkMatrix)
  | OpClipPath (path : SkPath) (doAntiAlias : bool)
  | OpDrawPaint (paint : SkPaint)
  | OpDrawPath (path : SkPath) (paint : SkPaint).

(** The canvas: the calls received so far, oldest first, and the save
    count. *)
Record SkCanvas := {
  ops : list CanvasOp;
  saveCount : nat
}.

Definition emit (op : CanvasOp) (canvas : SkCanvas) : SkCanvas :=
  {| ops := ops canvas ++ [op]; saveCount := saveCount canvas |}.

Definition save (canvas : SkCanvas) : SkCanvas :=
  {| ops := ops canvas ++ [OpSave]; saveCount := S (saveCount canvas) |}.

Definition saveLayer (paint : option SkPaint) (canvas : SkCanvas) : SkCanvas :=
  {| ops := ops canvas ++ [OpSaveLayer paint];
     saveCount := S (saveCount canvas) |}.

(** [restoreToCount(count)]: one [restore()] per level above [count]. *)
Definition restoreToCount (count : nat) (canvas : SkCanvas) : SkCanvas :=
  let count := Nat.max count 1 in
  {| ops := ops canvas ++ replicate (saveCount canvas - count)%nat OpRestore;
     saveCount := Nat.min (saveCount canvas) count |}.

(** ** [std::stable_sort] *)

(** The stable sort of the C++ library, by insertion: an element goes
    behind the elements that are not greater than it, so elements that
    compare equal keep their order. *)
Section StableSort.
Context {A : Type} (lt : A -> A -> bool).

Fixpoint stable_insert (a : A) (l : list A) : list A :=
  match l with
  | [] => [a]
  | b :: l' => if lt b a then b :: stable_insert a l' else a :: b :: l'
  end.

Fixpoint stable_sort (l : list A) : list A :=
  match l with
  | [] => []
  | a :: l' => stable_insert a (stable_sort l')
  end.
End StableSort.

(** ** The colour-stop resolver and the paint configuration *)

Definition kForegroundColorPaletteIndex : Z := 0xFFFF.

(** [struct ColorStop { SkScalar pos; SkColor color; }] of [fetchColorStops]. *)
Record ColorStop := { pos : SkScalar; stop_color : SkColor }.

Definition ColorStop_less (a b : ColorStop) : bool := F32.ltb (pos a) (pos b).

(** [SkPoint::Make(SkFixedToScalar(v.x), -SkFixedToScalar(v.y))]: font
    coordinates have the y axis upwards. *)
Definition ToSkPoint (v : FT_Vector) : SkPoint :=
  MakePoint (SkFixedToScalar (x v)) (F32.opp (SkFixedToScalar (y v))).

Section Configure.
Context `{SkMath}.
Variable palette : list SkColor.
Variable foregroundColor : SkColor.

(** The colour of an [FT_ColorIndex]; the source writes these three
    branches out for the solid paint and again for each colour stop.
    [None] is the [return false] of the out-of-range branch. *)
Definition resolve_color (c : FT_ColorIndex) : option SkColor :=
  if palette_index c =? kForegroundColorPaletteIndex then
    let newAlpha :=
      F32.to_unsigned (F32.mul (F32.of_Z (SkColorGetA foregroundColor))
                               (SkColrV1AlphaToFloat (alpha c))) in
    Some (SkColorSetA foregroundColor newAlpha)
  else if Z.of_nat (length palette) <=? palette_index c then None
  else
    let base := palette !!! Z.to_nat (palette_index c) in
    let newAlpha :=
      F32.to_unsigned (F32.mul (F32.of_Z (SkColorGetA base))
                               (SkColrV1AlphaToFloat (alpha c))) in
    Some (SkColorSetA base newAlpha).

(** [while (FT_Get_Colorline_Stops(face, &color_stop, &iterator))] of
    [fetchColorStops]; [n] bounds the number of iterations by the
    number of stops the iterator has left. *)
Fixpoint fetch_loop (n : nat) (it : FT_ColorStopIterator)
    (colorStopsSorted : list ColorStop) : option (list ColorStop) :=
  match FT_Get_Colorline_Stops it with
  | None => Some colorStopsSorted
  | Some (color_stop, it') =>
      match n with
      | O => Some colorStopsSorted
      | S n' =>
          let index := (current_color_stop it' - 1)%nat in
          let pos :=
            F32.div (F32.of_Z (stop_offset color_stop))
                    (F32.of_Z (Z.shiftl 1 14)) in
          match resolve_color (color color_stop) with
          | None => None
          | Some c =>
              fetch_loop n' it'
                (<[index := {| pos := pos; stop_color := c |}]>
                   colorStopsSorted)
          end
      end
  end.

(** The lambda [fetchColorStops]: the vectors [stops] and [colors] on
    success. *)
Definition fetchColorStops (colorStopIterator : FT_ColorStopIterator)
  : option (list SkScalar * list SkColor) :=
  let colorStopCount := num_color_stops colorStopIterator in
  if (colorStopCount =? 0)%nat then None
  else
    let colorStopsSorted :=
      replicate colorStopCount {| pos := F32.zero; stop_color := 0 |} in
    match fetch_loop (colorStopCount - current_color_stop colorStopIterator)
                     colorStopIterator colorStopsSorted with
    | None => None
    | Some colorStopsSorted =>
        let colorStopsSorted := stable_sort ColorStop_less colorStopsSorted in
        Some (pos <$> take colorStopCount colorStopsSorted,
              stop_color <$> take colorStopCount colorStopsSorted)
    end.

(** [inline SkPoint SkVectorProjection(SkPoint a, SkPoint b)]. *)
Definition SkVectorProjection (a b : SkPoint) : SkPoint :=
  let length := SkPoint_length b in
  if F32.is_zero length then MakePoint F32.zero F32.zero
  else
    let bNormalized := SkPoint_normalize b in
    SkPoint_scale bNormalized (F32.div (DotProduct a b) length).

(** The test of the linear gradient for degenerate control points. *)
Definition linear_degenerate (p0 p1 p2 : SkPoint) : bool :=
  SkPoint_eqb p1 p0 || SkPoint_eqb p2 p0
  || F32.is_zero (CrossProduct (SkPoint_sub p1 p0) (SkPoint_sub p2 p0)).

(** [stops.front()], [stops.back()] and [colors[0]] of non-empty
    vectors. *)
Definition front (stops : list SkScalar) : SkScalar := hd F32.zero stops.
Definition back (stops : list SkScalar) : SkScalar := List.last stops F32.zero.
Definition first_color (colors : list SkColor) : SkColor := hd 0 colors.

(** [for (SkScalar& stop : stops) stop = (stop - startOffset) * scaleFactor;] *)
Definition rescale_stops (stops : list SkScalar) : list SkScalar :=
  let scaleFactor := F32.div F32.one (F32.sub (back stops) (front stops)) in
  let startOffset := front stops in
  (fun stop => F32.mul (F32.sub stop startOffset) scaleFactor) <$> stops.

(** The end points [linePositions] handed to the linear shader. *)
Definition linear_positions (p0 p1 p2 : SkPoint) (stops : list SkScalar)
  : SkPoint * SkPoint :=
  let perpendicularToP2P0 := SkPoint_sub p2 p0 in
  let perpendicularToP2P0 :=
    MakePoint (fY perpendicularToP2P0) (F32.opp (fX perpendicularToP2P0)) in
  let p3 :=
    SkPoint_add p0 (SkVectorProjection (SkPoint_sub p1 p0) perpendicularToP2P0) in
  let p0p3 := SkPoint_sub p3 p0 in
  let p0Offset := SkPoint_scale p0p3 (front stops) in
  let p1Offset := SkPoint_scale p0p3 (back stops) in
  (SkPoint_add p0 p0Offset, SkPoint_add p0 p1Offset).

Definition clampAngleToRange (angle : SkScalar) : SkScalar :=
  let clampedAngle := SkScalarMod angle (F32.of_Z 360) in
  if F32.ltb clampedAngle F32.zero then F32.add clampedAngle (F32.of_Z 360)
  else clampedAngle.

(** [bool colrv1_configure_skpaint(face, palette, foregroundColor,
    colrPaint, SkPaint* paint)]: the result and the paint afterwards. *)
Definition colrv1_configure_skpaint (colrPaint : FT_COLR_Paint)
    (paint : SkPaint) : bool * SkPaint :=
  match colrPaint with
  | PaintSolid solid_color =>
      match resolve_color solid_color with
      | None => (false, paint)
      | Some color => (true, setColor color (setShader None paint))
      end
  | PaintLinearGradient colorline p0 p1 p2 =>
      match fetchColorStops (color_stop_iterator colorline) with
      | None => (false, paint)
      | Some (stops, colors) =>
          if (length stops =? 1)%nat then
            (true, setColor (first_color colors) paint)
          else
            let p0 := ToSkPoint p0 in
            let p1 := ToSkPoint p1 in
            let p2 := ToSkPoint p2 in
            if linear_degenerate p0 p1 p2 then
              (true, setColor (first_color colors) paint)
            else
              let '(pts0, pts1) := linear_positions p0 p1 p2 stops in
              let stops := rescale_stops stops in
              let shader :=
                MakeLinear pts0 pts1 colors stops
                           (ToSkTileMode (extend colorline)) in
              (true, setShader (Some shader) (setColor SK_ColorBLACK paint))
      end
  | PaintRadialGradient colorline c0 r0 c1 r1 =>
      let start := ToSkPoint c0 in
      let startRadius := SkFixedToScalar r0 in
      let end_ := ToSkPoint c1 in
      let endRadius := SkFixedToScalar r1 in
      match fetchColorStops (color_stop_iterator colorline) with
      | None => (false, paint)
      | Some (stops, colors) =>
          if (length stops =? 1)%nat then
            (true, setColor (first_color colors) paint)
          else
            let paint := setColor SK_ColorBLACK paint in
            let shader :=
              MakeTwoPointConical start startRadius end_ endRadius
                                  colors stops
                                  (ToSkTileMode (extend colorline)) in
            (true, setShader (Some shader) paint)
      end
  | PaintSweepGradient colorline center start_angle end_angle =>
      let center := ToSkPoint center in
      let startAngle :=
        F32.mul (F32.mul (F32.of_Z start_angle) (F32.of_Z 180))
                (F32.dyadic 1 (-16)) in
      let endAngle :=
        F32.mul (F32.mul (F32.of_Z end_angle) (F32.of_Z 180))
                (F32.dyadic 1 (-16)) in
      match fetchColorStops (color_stop_iterator colorline) with
      | None => (false, paint)
      | Some (stops, colors) =>
          if (length stops =? 1)%nat then
            (true, setColor (first_color colors) paint)
          else
            let paint := setColor SK_ColorBLACK paint in
            let startAngle := clampAngleToRange startAngle in
            let endAngle := clampAngleToRange endAngle in
            let sectorAngle :=
              if F32.ltb startAngle endAngle then F32.sub endAngle startAngle
              else F32.sub (F32.add endAngle (F32.of_Z 360)) startAngle in
            let localMatrix :=
              [RotateDeg startAngle (fX center) (fY center);
               Scale F32.one (F32.opp F32.one) (fX center) (fY center)] in
            let tileMode := ToSkTileMode (extend colorline) in
            let shader :=
              MakeSweep (fX center) (fY center) colors stops tileMode
                        F32.zero sectorAngle localMatrix in
            (true, setShader (Some shader) paint)
      end
  | _ => (false, paint)
  end.
End Configure.

(** ** Drawing *)

Definition SK_ScalarPI : SkScalar := S754_finite false 13176795 (-22).

(** Modelled from the spec: [SkDegreesToRadians] and [SkScalarNearlyZero]
    (include/core/SkScalar.h is not among the sources): a product with
    [SK_ScalarPI / 180], and a comparison of the absolute value with
    [SK_ScalarNearlyZero], which is 2^-12. *)
Definition SkDegreesToRadians (degrees : SkScalar) : SkScalar :=
  F32.mul degrees (F32.div SK_ScalarPI (F32.of_Z 180)).

Definition SkScalarNearlyZero (v : SkScalar) : bool :=
  F32.leb (SFabs v) (F32.dyadic 1 (-12)).

(** [inline SkMatrix ToSkMatrix(FT_Affine23 affine23)]. *)
Definition ToSkMatrix (affine23 : FT_Affine23) : SkMatrixOp :=
  MakeAll (SkFixedToScalar (xx affine23)) (F32.opp (SkFixedToScalar (xy affine23)))
          (SkFixedToScalar (dx affine23))
          (F32.opp (SkFixedToScalar (yx affine23))) (SkFixedToScalar (yy affine23))
          (F32.opp (SkFixedToScalar (dy affine23)))
          F32.zero F32.zero F32.one.

Section Draw.
Context `{SkMath}.
Variable palette : list SkColor.
Variable foregroundColor : SkColor.
Variable face : FT_Face.

(** [bool colrv1_draw_paint(canvas, palette, foregroundColor, face,
    colrPaint)]. *)
Definition colrv1_draw_paint (canvas : SkCanvas) (colrPaint : FT_COLR_Paint)
  : bool * SkCanvas :=
  match colrPaint with
  | PaintGlyph _ glyphID =>
      match generateFacePathCOLRv1 face glyphID with
      | None => (false, canvas)
      | Some path => (true, emit (OpClipPath path true) canvas)
      end
  | PaintSolid _
  | PaintLinearGradient _ _ _ _
  | PaintRadialGradient _ _ _ _ _
  | PaintSweepGradient _ _ _ _ =>
      let '(ok, skPaint) :=
        colrv1_configure_skpaint palette foregroundColor colrPaint
                                 SkPaint_default in
      if ok then (true, emit (OpDrawPaint skPaint) canvas)
      else (false, canvas)
  | _ => (false, canvas)
  end.

(** [bool colrv1_draw_glyph_with_path(canvas, palette, foregroundColor,
    face, glyphPaint, fillPaint)]. *)
Definition colrv1_draw_glyph_with_path (canvas : SkCanvas)
    (glyphPaint fillPaint : FT_COLR_Paint) : bool * SkCanvas :=
  let skiaFillPaint := setAntiAlias true SkPaint_default in
  let '(ok, skiaFillPaint) :=
    colrv1_configure_skpaint palette foregroundColor fillPaint skiaFillPaint in
  if negb ok then (false, canvas)
  else
    match glyphPaint with
    | PaintGlyph _ glyphID =>
        match generateFacePathCOLRv1 face glyphID with
        | None => (false, canvas)
        | Some path => (true, emit (OpDrawPath path skiaFillPaint) canvas)
        end
    | _ => (false, canvas)
    end.

(** [void colrv1_transform(face, colrPaint, canvas, outTransform)]: the
    matrix it computes; the callers concatenate it on the canvas or on
    the running matrix. *)
Definition colrv1_transform (colrPaint : FT_COLR_Paint) : SkMatrix :=
  match colrPaint with
  | PaintTransform _ affine => [ToSkMatrix affine]
  | PaintTranslate _ dx dy =>
      [Translate (SkFixedToScalar dx) (F32.opp (SkFixedToScalar dy))]
  | PaintScale _ scale_x scale_y center_x center_y =>
      [Scale (SkFixedToScalar scale_x) (SkFixedToScalar scale_y)
             (SkFixedToScalar center_x) (F32.opp (SkFixedToScalar center_y))]
  | PaintRotate _ angle center_x center_y =>
      [RotateDeg (F32.mul (F32.opp (SkFixedToScalar angle)) (F32.of_Z 180))
                 (SkFixedToScalar center_x)
                 (F32.opp (SkFixedToScalar center_y))]
  | PaintSkew _ x_skew_angle y_skew_angle center_x center_y =>
      let xDeg := F32.mul (SkFixedToScalar x_skew_angle) (F32.of_Z 180) in
      let xRad := SkDegreesToRadians xDeg in
      let xTan := SkScalarTan xRad in
      let xTan := if SkScalarNearlyZero xTan then F32.zero else xTan in
      let yDeg := F32.mul (SkFixedToScalar y_skew_angle) (F32.of_Z 180) in
      let yRad := SkDegreesToRadians (F32.opp yDeg) in
      let yTan := SkScalarTan yRad in
      let yTan := if SkScalarNearlyZero yTan then F32.zero else yTan in
      [Skew xTan yTan (SkFixedToScalar center_x)
            (F32.opp (SkFixedToScalar center_y))]
  | _ => []
  end.

Definition is_fill (paint : FT_COLR_Paint) : bool :=
  match paint with
  | PaintSolid _
  | PaintLinearGradient _ _ _ _
  | PaintRadialGradient _ _ _ _ _
  | PaintSweepGradient _ _ _ _ => true
  | _ => false
  end.

(** *** The drawing walk *)

(** The canvas and the set of paints on the active path. *)
Record RenderState := {
  canvas : SkCanvas;
  activePaints : VisitedSet
}.

Definition with_canvas (f : SkCanvas -> SkCanvas) (st : RenderState)
  : RenderState :=
  {| canvas := f (canvas st); activePaints := activePaints st |}.

Definition set_canvas (c : SkCanvas) (st : RenderState) : RenderState :=
  {| canvas := c; activePaints := activePaints st |}.

Definition add_active (o : FT_OpaquePaint) (st : RenderState) : RenderState :=
  {| canvas := canvas st; activePaints := {[o]} ∪ activePaints st |}.

Definition remove_active (o : FT_OpaquePaint) (st : RenderState)
  : RenderState :=
  {| canvas := canvas st; activePaints := activePaints st ∖ {[o]} |}.

(** A walk returns its [bool] and the state afterwards; [None] means
    that the recursion went deeper than the bound it was given. *)
Definition Walk (S : Type) : Type := S -> option (bool * S).

(** [while (FT_Get_Paint_Layers(...)) { if (!traverse(layerPaint))
    return false; } return true;] *)
Fixpoint traverse_layers {S : Type} (traverse : FT_OpaquePaint -> Walk S)
    (layers : list FT_OpaquePaint) : Walk S :=
  fun st =>
    match layers with
    | [] => Some (true, st)
    | layerPaint :: layers' =>
        match traverse layerPaint st with
        | None => None
        | Some (false, st') => Some (false, st')
        | Some (true, st') => traverse_layers traverse layers' st'
        end
    end.

(** [bool colrv1_start_glyph(canvas, palette, foregroundColor, face,
    glyphId, rootTransform, activePaints)], over the walk it calls. *)
Definition colrv1_start_glyph_with
    (traverse : FT_OpaquePaint -> Walk RenderState)
    (glyphId : Z) (rootTransform : FT_Color_Root_Transform)
  : Walk RenderState :=
  fun st =>
    match FT_Get_Color_Glyph_Paint face glyphId rootTransform with
    | None => Some (false, st)
    | Some opaquePaint =>
        let untransformed :=
          match rootTransform with
          | FT_COLOR_NO_ROOT_TRANSFORM => true
          | FT_COLOR_INCLUDE_ROOT_TRANSFORM => false
          end in
        let clipBoxPath := GetClipBoxPath face glyphId untransformed in
        let st :=
          match clipBoxPath with
          | [] => st
          | _ => with_canvas (emit (OpClipPath clipBoxPath true)) st
          end in
        traverse opaquePaint st
    end.

(** The [switch] of [colrv1_traverse_paint], between the two scope
    guards and their release. *)
Definition traverse_paint_switch
    (traverse : FT_OpaquePaint -> Walk RenderState)
    (paint : FT_COLR_Paint) : Walk RenderState :=
  fun st =>
    match paint with
    | PaintColrLayers layerIterator =>
        traverse_layers traverse layerIterator st
    | PaintGlyph glyph_paint _ =>
        match FT_Get_Paint face glyph_paint with
        | None => Some (false, st)
        | Some fillPaint =>
            if is_fill fillPaint then
              let '(ok, c) :=
                colrv1_draw_glyph_with_path (canvas st) paint fillPaint in
              Some (ok, set_canvas c st)
            else
              let '(ok, c) := colrv1_draw_paint (canvas st) paint in
              if negb ok then Some (false, set_canvas c st)
              else traverse glyph_paint (set_canvas c st)
        end
    | PaintColrGlyph glyphID =>
        colrv1_start_glyph_with traverse glyphID FT_COLOR_NO_ROOT_TRANSFORM st
    | PaintTransform child _
    | PaintTranslate child _ _
    | PaintScale child _ _ _ _
    | PaintRotate child _ _ _
    | PaintSkew child _ _ _ _ =>
        traverse child
          (with_canvas (emit (OpConcat (colrv1_transform paint))) st)
    | PaintComposite source_paint composite_mode backdrop_paint =>
        let acr := saveCount (canvas st) in
        let st := with_canvas (saveLayer None) st in
        match traverse backdrop_paint st with
        | None => None
        | Some (false, st') =>
            Some (false, with_canvas (restoreToCount acr) st')
        | Some (true, st') =>
            let blendModePaint :=
              setBlendMode (ToSkBlendMode composite_mode) SkPaint_default in
            let st' := with_canvas (saveLayer (Some blendModePaint)) st' in
            match traverse source_paint st' with
            | None => None
            | Some (ok, st'') =>
                Some (ok, with_canvas (restoreToCount acr) st'')
            end
        end
    | PaintSolid _
    | PaintLinearGradient _ _ _ _
    | PaintRadialGradient _ _ _ _ _
    | PaintSweepGradient _ _ _ _ =>
        let '(ok, c) := colrv1_draw_paint (canvas st) paint in
        Some (ok, set_canvas c st)
    | PaintUnsupported => Some (false, st)
    end.

(** [bool colrv1_traverse_paint(canvas, palette, foregroundColor, face,
    opaquePaint, activePaints)]; [depth] bounds the depth of the
    recursion. *)
Fixpoint colrv1_traverse_paint (depth : nat) (opaquePaint : FT_OpaquePaint)
  : Walk RenderState :=
  fun st =>
    match depth with
    | O => None
    | S depth' =>
        if decide (opaquePaint ∈ activePaints st) then Some (false, st)
        else
          let st := add_active opaquePaint st in
          match FT_Get_Paint face opaquePaint with
          | None => Some (false, remove_active opaquePaint st)
          | Some paint =>
              let autoRestore := saveCount (canvas st) in
              let st := with_canvas save st in
              match traverse_paint_switch (colrv1_traverse_paint depth')
                                          paint st with
              | None => None
              | Some (ok, st') =>
                  Some (ok, remove_active opaquePaint
                              (with_canvas (restoreToCount autoRestore) st'))
              end
          end
    end.

Definition colrv1_start_glyph (depth : nat) (glyphId : Z)
    (rootTransform : FT_Color_Root_Transform) : Walk RenderState :=
  colrv1_start_glyph_with (colrv1_traverse_paint depth) glyphId rootTransform.
End Draw.

(** ** The bounds walk *)

Section Bounds.
Context `{SkMath}.
Variable face : FT_Face.

(** The running matrix, the rectangle accumulated so far, kept as the
    list of the transformed outlines joined into it, and the set of
    paints on the active path. *)
Record BoundsState := {
  ctm : SkMatrix;
  bounds : list (SkMatrix * SkPath);
  activePaintsB : VisitedSet
}.

Definition set_ctm (m : SkMatrix) (st : BoundsState) : BoundsState :=
  {| ctm := m; bounds := bounds st; activePaintsB := activePaintsB st |}.

Definition join_bounds (path : SkPath) (st : BoundsState) : BoundsState :=
  {| ctm := ctm st; bounds := bounds st ++ [(ctm st, path)];
     activePaintsB := activePaintsB st |}.

Definition add_activeB (o : FT_OpaquePaint) (st : BoundsState) : BoundsState :=
  {| ctm := ctm st; bounds := bounds st;
     activePaintsB := {[o]} ∪ activePaintsB st |}.

Definition remove_activeB (o : FT_OpaquePaint) (st : BoundsState)
  : BoundsState :=
  {| ctm := ctm st; bounds := bounds st;
     activePaintsB := activePaintsB st ∖ {[o]} |}.

(** [bool colrv1_start_glyph_bounds(ctm, bounds, face, glyphId,
    rootTransform, activePaints)], over the walk it calls. *)
Definition colrv1_start_glyph_bounds_with
    (traverse : FT_OpaquePaint -> Walk BoundsState)
    (glyphId : Z) (rootTransform : FT_Color_Root_Transform)
  : Walk BoundsState :=
  fun st =>
    match FT_Get_Color_Glyph_Paint face glyphId rootTransform with
    | None => Some (false, st)
    | Some opaquePaint => traverse opaquePaint st
    end.

(** The [switch] of [colrv1_traverse_paint_bounds]. *)
Definition traverse_paint_bounds_switch
    (traverse : FT_OpaquePaint -> Walk BoundsState)
    (paint : FT_COLR_Paint) : Walk BoundsState :=
  fun st =>
    match paint with
    | PaintColrLayers layerIterator =>
        traverse_layers traverse layerIterator st
    | PaintGlyph _ glyphID =>
        match generateFacePathCOLRv1 face glyphID with
        | None => Some (false, st)
        | Some path => Some (true, join_bounds path st)
        end
    | PaintColrGlyph glyphID =>
        colrv1_start_glyph_bounds_with traverse glyphID
                                       FT_COLOR_NO_ROOT_TRANSFORM st
    | PaintTransform child _
    | PaintTranslate child _ _
    | PaintScale child _ _ _ _
    | PaintRotate child _ _ _
    | PaintSkew child _ _ _ _ =>
        traverse child (set_ctm (ctm st ++ colrv1_transform paint) st)
    | PaintComposite sourcePaint _ backdropPaint =>
        match traverse backdropPaint st with
        | None => None
        | Some (false, st') => Some (false, st')
        | Some (true, st') => traverse sourcePaint st'
        end
    | PaintSolid _
    | PaintLinearGradient _ _ _ _
    | PaintRadialGradient _ _ _ _ _
    | PaintSweepGradient _ _ _ _ => Some (true, st)
    | PaintUnsupported => Some (false, st)
    end.

(** [bool colrv1_traverse_paint_bounds(ctm, bounds, face, opaquePaint,
    activePaints)]; [depth] bounds the depth of the recursion. *)
Fixpoint colrv1_traverse_paint_bounds (depth : nat)
    (opaquePaint : FT_OpaquePaint) : Walk BoundsState :=
  fun st =>
    match depth with
    | O => None
    | S depth' =>
        if decide (opaquePaint ∈ activePaintsB st) then Some (false, st)
        else
          let st := add_activeB opaquePaint st in
          match FT_Get_Paint face opaquePaint with
          | None => Some (false, remove_activeB opaquePaint st)
          | Some paint =>
              let restoreMatrix := ctm st in
              match traverse_paint_bounds_switch
                      (colrv1_traverse_paint_bounds depth') paint st with
              | None => None
              | Some (ok, st') =>
                  Some (ok, remove_activeB opaquePaint
                              (set_ctm restoreMatrix st'))
              end
          end
    end.

Definition colrv1_start_glyph_bounds (depth : nat) (glyphId : Z)
    (rootTransform : FT_Color_Root_Transform) : Walk BoundsState :=
  colrv1_start_glyph_bounds_with (colrv1_traverse_paint_bounds depth)
                                 glyphId rootTransform.
End Bounds.

(** ** The paint graph *)

Section Graph.
Variable face : FT_Face.

(** The paints a paint record refers to. *)
Definition paint_children (paint : FT_COLR_Paint) : list FT_OpaquePaint :=
  match paint with
  | PaintColrLayers layers => layers
  | PaintGlyph child _ => [child]
  | PaintColrGlyph glyphID =>
      match FT_Get_Color_Glyph_Paint face glyphID FT_COLOR_NO_ROOT_TRANSFORM with
      | Some root => [root]
      | None => []
      end
  | PaintTransform child _ | PaintTranslate child _ _
  | PaintScale child _ _ _ _ | PaintRotate child _ _ _
  | PaintSkew child _ _ _ _ => [child]
  | PaintComposite source_paint _ backdrop_paint =>
      [backdrop_paint; source_paint]
  | _ => []
  end.

(** The paints below which the bounds walk looks: it takes the outline
    of a glyph paint and does not read the paint that fills it. *)
Definition bounds_children (paint : FT_COLR_Paint) : list FT_OpaquePaint :=
  match paint with
  | PaintGlyph _ _ => []
  | _ => paint_children paint
  end.

(** The edges of the paint graph: from a paint handle that decodes to
    the paints its record refers to. *)
Definition paint_edge (a b : FT_OpaquePaint) : Prop :=
  exists paint, FT_Get_Paint face a = Some paint /\ b ∈ paint_children paint.

Definition bounds_edge (a b : FT_OpaquePaint) : Prop :=
  exists paint, FT_Get_Paint face a = Some paint /\ b ∈ bounds_children paint.

(** A cycle that can be reached from [start] along the edges [R]. *)
Definition reachable_cycle (R : relation FT_OpaquePaint)
    (start : FT_OpaquePaint) : Prop :=
  exists a, rtc R start a /\ tc R a a.

(** No paint of the graph lies on a cycle. *)
Definition acyclic : Prop := forall a, ~ tc paint_edge a a.
End Graph.

(** The state of a top-level call: a fresh canvas and an empty
    [VisitedSet], as [drawCOLRv1Glyph] and [computeColrV1GlyphBoundingBox]
    set them up. *)
Definition initial_canvas : SkCanvas := {| ops := []; saveCount := 1 |}.

Definition initial_render_state : RenderState :=
  {| canvas := initial_canvas; activePaints := ∅ |}.

Definition initial_bounds_state : BoundsState :=
  {| ctm := []; bounds := []; activePaintsB := ∅ |}.

(** A colour line as [FT_Get_Paint] hands it out: the iterator stands
    before the first of its [num_color_stops] stops, whose offsets are
    [FT_F2Dot14] numbers and whose palette indices are [FT_UInt16]
    numbers. *)
Definition colorline_wf (it : FT_ColorStopIterator) : Prop :=
  current_color_stop it = 0%nat /\
  length (stop_data it) = num_color_stops it /\
  Forall (fun cs => - 2 ^ 15 <= stop_offset cs < 2 ^ 15 /\
                    0 <= palette_index (color cs) < 2 ^ 16) (stop_data it).

(** ** Definitions used by the statements and the proofs *)

Module Range.
(** [forall_range k base f] evaluates [f] on the [2^k] integers starting
    at [base]. *)
Fixpoint forall_range (k : nat) (base : Z) (f : Z -> bool) : bool :=
  match k with
  | O => f base
  | S k' => forall_range k' base f && forall_range k' (base + 2 ^ Z.of_nat k') f
  end.
End Range.

Definition spec_float_eqb (a b : spec_float) : bool :=
  match a, b with
  | S754_zero s, S754_zero s' => Bool.eqb s s'
  | S754_infinity s, S754_infinity s' => Bool.eqb s s'
  | S754_nan, S754_nan => true
  | S754_finite s m e, S754_finite s' m' e' =>
      Bool.eqb s s' && Pos.eqb m m' && Z.eqb e e'
  | _, _ => false
  end.

(** The order of a sort by an integer key. *)
Definition key_less {A : Type} (key : A -> Z) (a b : A) : bool :=
  key a <? key b.

Definition key_le {A : Type} (key : A -> Z) (a b : A) : Prop :=
  key a <= key b.

(** The position and the colour [fetchColorStops] stores for a stop. *)
Definition stop_position (cs : FT_ColorStop) : SkScalar :=
  F32.div (F32.of_Z (stop_offset cs)) (F32.of_Z (Z.shiftl 1 14)).

Definition resolved_color (palette : list SkColor) (foregroundColor : SkColor)
    (cs : FT_ColorStop) : SkColor :=
  default 0 (resolve_color palette foregroundColor (color cs)).

Definition resolved_stop (palette : list SkColor) (foregroundColor : SkColor)
    (cs : FT_ColorStop) : ColorStop :=
  {| pos := stop_position cs;
     stop_color := resolved_color palette foregroundColor cs |}.

(** A stop whose colour index resolves. *)
Abbreviation resolvable palette foregroundColor :=
  (fun cs : FT_ColorStop =>
     is_Some (resolve_color palette foregroundColor (color cs))).

(** The colour a colour index names: the foreground colour for the
    reserved index, the palette entry otherwise. *)
Definition base_color (palette : list SkColor) (foregroundColor : SkColor)
    (c : FT_ColorIndex) : SkColor :=
  if palette_index c =? kForegroundColorPaletteIndex then foregroundColor
  else palette !!! Z.to_nat (palette_index c).

(** A palette index that is neither the reserved one nor in the palette. *)
Definition out_of_range (palette : list SkColor) (c : FT_ColorIndex) : Prop :=
  palette_index c <> kForegroundColorPaletteIndex /\
  Z.of_nat (length palette) <= palette_index c.

(** The colour line of a gradient paint. *)
Definition gradient_colorline (colrPaint : FT_COLR_Paint)
  : option FT_ColorLine :=
  match colrPaint with
  | PaintLinearGradient colorline _ _ _
  | PaintRadialGradient colorline _ _ _ _
  | PaintSweepGradient colorline _ _ _ => Some colorline
  | _ => None
  end.

(** ** Notions for the walks *)

(** A walk that leaves the set of active paints as it found it. *)
Definition keeps_active {S : Type} (active : S -> VisitedSet)
    (w : FT_OpaquePaint -> Walk S) : Prop :=
  forall o st ok st', w o st = Some (ok, st') -> active st' = active st.

(** A walk that returns whenever the set of active paints is [V]. *)
Definition returns_at {S : Type} (active : S -> VisitedSet) (V : VisitedSet)
    (w : FT_OpaquePaint -> Walk S) : Prop :=
  forall o st, active st = V -> is_Some (w o st).

(** The walk [w] succeeds on the paints of a list, one after the other,
    from the state [st] to the state [st']. *)
Inductive all_succeed {S : Type} (w : FT_OpaquePaint -> Walk S)
  : list FT_OpaquePaint -> S -> S -> Prop :=
  | all_succeed_nil st : all_succeed w [] st st
  | all_succeed_cons o l st st1 st2 :
      w o st = Some (true, st1) ->
      all_succeed w l st1 st2 ->
      all_succeed w (o :: l) st st2.

(** The paints the drawing walk descends into: the paints a record refers
    to, but for a paint that has no edge of its own.  (A fill below a
    glyph paint is drawn with the glyph and not walked into.) *)
Definition walk_edge (face : FT_Face) (a b : FT_OpaquePaint) : Prop :=
  paint_edge face a b /\ exists c, paint_edge face b c.

(** The drawing walk has returned true on [a] from a state whose active
    set is [V]; the same for the bounds walk. *)
Definition render_success `{SkMath} (palette : list SkColor)
    (foregroundColor : SkColor) (face : FT_Face)
    (a : FT_OpaquePaint) (V : VisitedSet) : Prop :=
  exists depth st st',
    activePaints st = V /\
    colrv1_traverse_paint palette foregroundColor face depth a st
    = Some (true, st').

Definition bounds_success `{SkMath} (face : FT_Face)
    (a : FT_OpaquePaint) (V : VisitedSet) : Prop :=
  exists depth st st',
    activePaintsB st = V /\
    colrv1_traverse_paint_bounds face depth a st = Some (true, st').

(** The bytes [packA8ToA1] writes for a row. *)
Definition row_bytes (octs leftOverBits : Z) : Z :=
  octs + (if 0 <? leftOverBits then 1 else 0).

(** Well-formedness of a colour line that is written out. *)
Ltac solve_colorline_wf :=
  split; [reflexivity|]; split; [reflexivity|];
  repeat (apply Forall_cons_2; [simpl; lia|]); apply Forall_nil_2.




(** ** Notions for the paint configuration *)




(** The paint [colrPaint] is configured and drawn as a flat fill of the
    colour [c]:
    - on every [SkPaint], [colrv1_configure_skpaint] returns true, the
      colour of the paint is [c] afterwards, and its shader, which no
      gradient has replaced, and its other fields are as they were;
    - [colrv1_draw_paint], which configures a new [SkPaint], draws a
      paint of the colour [c] without shader;
    - both callers, [colrv1_draw_paint] and
      [colrv1_draw_glyph_with_path], leave the canvas as they leave it
      for a solid paint whose colour resolves to [c]. *)
Definition configures_flat_fill `{SkMath} (palette : list SkColor)
    (foregroundColor : SkColor) (colrPaint : FT_COLR_Paint) (c : SkColor)
  : Prop :=
  (forall paint : SkPaint, exists paint' : SkPaint,
     colrv1_configure_skpaint palette foregroundColor colrPaint paint
     = (true, paint') /\
     fColor paint' = c /\ fShader paint' = fShader paint /\
     fAntiAlias paint' = fAntiAlias paint /\
     fBlendMode paint' = fBlendMode paint) /\
  (forall (face : FT_Face) (canvas : SkCanvas),
     colrv1_draw_paint palette foregroundColor face canvas colrPaint
     = (true,
        emit (OpDrawPaint {| fColor := c; fShader := None;
                             fAntiAlias := false; fBlendMode := kSrcOver |})
             canvas)) /\
  (forall solid : FT_ColorIndex,
     resolve_color palette foregroundColor solid = Some c ->
     forall (face : FT_Face) (canvas : SkCanvas) (glyphPaint : FT_COLR_Paint),
       colrv1_draw_paint palette foregroundColor face canvas colrPaint
       = colrv1_draw_paint palette foregroundColor face canvas
                           (PaintSolid solid) /\
       colrv1_draw_glyph_with_path palette foregroundColor face canvas
                                   glyphPaint colrPaint
       = colrv1_draw_glyph_with_path palette foregroundColor face canvas
                                     glyphPaint (PaintSolid solid)).
(** ** Sample inputs *)

Module Sample.
(** The external routines are not called on the sample inputs that need
    none of them; this instance fixes them arbitrarily. *)
Definition math : SkMath :=
  {| SkScalarMod := fun a _ => a;
     SkScalarTan := fun a => a;
     SkPoint_length := fun _ => F32.one;
     SkPoint_normalize := fun a => a |}.

Definition stop (offset index a : Z) : FT_ColorStop :=
  {| stop_offset := offset;
     color := {| palette_index := index; alpha := a |} |}.

Definition iterator (l : list FT_ColorStop) : FT_ColorStopIterator :=
  {| num_color_stops := length l; current_color_stop := 0; stop_data := l |}.

Definition line (l : list FT_ColorStop) : FT_ColorLine :=
  {| extend := FT_COLR_PAINT_EXTEND_PAD; color_stop_iterator := iterator l |}.

(** Opaque red and half-transparent green; the foreground is opaque
    blue. *)
Definition palette : list SkColor := [0xFFFF0000; 0x8000FF00].
Definition foreground : SkColor := 0xFF0000FF.

(** Three stops, out of order, two of them at offset 1.0. *)
Definition three_stops : list FT_ColorStop :=
  [stop 16384 0 16384; stop 0 0xFFFF 8192; stop 16384 1 16384].

Definition vec (a b : Z) : FT_Vector := {| x := a; y := b |}.
Definition handle (n : Z) : FT_OpaquePaint := OpaquePaint n false.

Definition red : FT_ColorIndex := {| palette_index := 0; alpha := 16384 |}.

(** A glyph paint that is filled by itself. *)
Definition glyph_loop : FT_Face :=
  {| paints := {[ handle 1 := PaintGlyph (handle 1) 7 ]};
     color_glyph_paint := fun _ _ => Some (handle 1);
     glyph_outline := fun _ => Some [(0, 0); (1, 0); (0, 1)];
     clip_box := fun _ _ => [] |}.

(** A translation over a layer list that comes back to the
    translation. *)
Definition layer_loop : FT_Face :=
  {| paints := {[ handle 1 := PaintTranslate (handle 2) 65536 0;
                  handle 2 := PaintColrLayers [handle 3; handle 1];
                  handle 3 := PaintSolid red ]};
     color_glyph_paint := fun _ _ => Some (handle 1);
     glyph_outline := fun _ => Some [(0, 0); (1, 0); (0, 1)];
     clip_box := fun _ _ => [] |}.

(** Three layers; the second is a solid paint whose palette index is out
    of range. *)
Definition three_layers : FT_Face :=
  {| paints := {[ handle 1 := PaintColrLayers [handle 2; handle 3; handle 4];
                  handle 2 := PaintGlyph (handle 5) 7;
                  handle 3 := PaintSolid {| palette_index := 99; alpha := 16384 |};
                  handle 4 := PaintSolid red;
                  handle 5 := PaintSolid red ]};
     color_glyph_paint := fun _ _ => Some (handle 1);
     glyph_outline := fun _ => Some [(0, 0); (1, 0); (0, 1)];
     clip_box := fun _ _ => [] |}.

(** A mask of ten pixels by two rows, three bytes a row, and its A8
    source, twelve bytes a row. *)
Definition mask : SkMask :=
  {| fImage := replicate 6 0xAA;
     fBounds := {| fLeft := 0; fTop := 0; fRight := 10; fBottom := 2 |};
     fRowBytes := 3 |}.

Definition a8 : list Z :=
  [255; 0; 0; 0; 0; 0; 0; 255; 255; 0x40; 9; 9;
   0; 0x3F; 0; 0; 0; 0; 0; 0; 0; 0xBF; 9; 9].
End Sample.

(** ** The outline decomposer *)

(** Modelled from the spec: [SkFDot6ToScalar] (src/core/SkFDot6.h is not
    among the sources) converts a 26.6 fixed-point number with
    [x * 0.015625f], that is, a conversion to [float] followed by a product
    with 2^-6. *)
Definition SkFDot6ToScalar (x : Z) : SkScalar :=
  F32.mul (F32.of_Z x) (F32.dyadic 1 (-6)).

(** The calls a path under construction receives. *)
Inductive SkPathCall :=
  | PathMoveTo (x y : SkScalar)
  | PathLineTo (x y : SkScalar)
  | PathQuadTo (x0 y0 x1 y1 : SkScalar)
  | PathCubicTo (x0 y0 x1 y1 x2 y2 : SkScalar)
  | PathClose.

(** A path being built: the calls received so far, oldest first;
    [reset()] empties it. *)
Abbreviation SkPathCalls := (list SkPathCall) (only parsing).

(** The segments FreeType reports for an outline, one per call of a
    function of [FT_Outline_Funcs]; the coordinates are 26.6 numbers. *)
Inductive FT_Outline_Call :=
  | move_to (to : FT_Vector)
  | line_to (to : FT_Vector)
  | conic_to (control to : FT_Vector)
  | cubic_to (control1 control2 to : FT_Vector).

Module SkFTGeometrySink.
(** [class SkFTGeometrySink]: its three members. *)
Record t := Make {
  fPath : SkPathCalls;
  fStarted : bool;
  fCurrent : FT_Vector
}.

(** [SkFTGeometrySink(SkPath* path)]. *)
Definition init (path : SkPathCalls) : t :=
  {| fPath := path; fStarted := false; fCurrent := {| x := 0; y := 0 |} |}.

Definition goingTo (pt : FT_Vector) (self : t) : t :=
  let self :=
    if negb (fStarted self) then
      {| fPath := fPath self
                  ++ [PathMoveTo (SkFDot6ToScalar (x (fCurrent self)))
                                 (F32.opp (SkFDot6ToScalar (y (fCurrent self))))];
         fStarted := true;
         fCurrent := fCurrent self |}
    else self in
  {| fPath := fPath self; fStarted := fStarted self; fCurrent := pt |}.

Definition currentIsNot (pt : FT_Vector) (self : t) : bool :=
  negb (x (fCurrent self) =? x pt) || negb (y (fCurrent self) =? y pt).

Definition emit (call : SkPathCall) (self : t) : t :=
  {| fPath := fPath self ++ [call]; fStarted := fStarted self;
     fCurrent := fCurrent self |}.

(** The four functions of the table; each returns 0. *)
Definition Move (pt : FT_Vector) (self : t) : Z * t :=
  let self :=
    if fStarted self then
      {| fPath := fPath self ++ [PathClose]; fStarted := false;
         fCurrent := fCurrent self |}
    else self in
  (0, {| fPath := fPath self; fStarted := fStarted self; fCurrent := pt |}).

Definition Line (pt : FT_Vector) (self : t) : Z * t :=
  if currentIsNot pt self then
    (0, emit (PathLineTo (SkFDot6ToScalar (x pt))
                         (F32.opp (SkFDot6ToScalar (y pt))))
             (goingTo pt self))
  else (0, self).

Definition Quad (pt0 pt1 : FT_Vector) (self : t) : Z * t :=
  if currentIsNot pt0 self || currentIsNot pt1 self then
    (0, emit (PathQuadTo (SkFDot6ToScalar (x pt0))
                         (F32.opp (SkFDot6ToScalar (y pt0)))
                         (SkFDot6ToScalar (x pt1))
                         (F32.opp (SkFDot6ToScalar (y pt1))))
             (goingTo pt1 self))
  else (0, self).

Definition Cubic (pt0 pt1 pt2 : FT_Vector) (self : t) : Z * t :=
  if currentIsNot pt0 self || currentIsNot pt1 self || currentIsNot pt2 self
  then
    (0, emit (PathCubicTo (SkFDot6ToScalar (x pt0))
                          (F32.opp (SkFDot6ToScalar (y pt0)))
                          (SkFDot6ToScalar (x pt1))
                          (F32.opp (SkFDot6ToScalar (y pt1)))
                          (SkFDot6ToScalar (x pt2))
                          (F32.opp (SkFDot6ToScalar (y pt2))))
             (goingTo pt2 self))
  else (0, self).

(** [FT_Outline_Funcs Funcs]: the function called for a segment. *)
Definition Funcs (call : FT_Outline_Call) (self : t) : Z * t :=
  match call with
  | move_to pt => Move pt self
  | line_to pt => Line pt self
  | conic_to pt0 pt1 => Quad pt0 pt1 self
  | cubic_to pt0 pt1 pt2 => Cubic pt0 pt1 pt2 self
  end.
End SkFTGeometrySink.

(** An [FT_Outline] as far as the file looks at it: the segments
    [FT_Outline_Decompose] reports for it, the error FreeType gives when
    the outline is broken behind these segments (0 when it is sound), and
    the [flags] word. *)
Record FT_Outline := {
  segments : list FT_Outline_Call;
  outline_error : Z;
  outline_flags : Z
}.

(** [FT_Outline_Decompose(outline, funcs, user)]: one call of the table
    per segment; the walk ends with the error of the first call that
    returns one, or with the error of the outline. *)
Fixpoint decompose_calls {U : Type} (funcs : FT_Outline_Call -> U -> Z * U)
    (calls : list FT_Outline_Call) (user : U) : Z * U :=
  match calls with
  | [] => (0, user)
  | call :: calls' =>
      let '(error, user) := funcs call user in
      if error =? 0 then decompose_calls funcs calls' user else (error, user)
  end.

Definition FT_Outline_Decompose {U : Type} (outline : FT_Outline)
    (funcs : FT_Outline_Call -> U -> Z * U) (user : U) : Z * U :=
  let '(error, user) := decompose_calls funcs (segments outline) user in
  if error =? 0 then (outline_error outline, user) else (error, user).

Inductive FT_Glyph_Format :=
  | FT_GLYPH_FORMAT_NONE
  | FT_GLYPH_FORMAT_COMPOSITE
  | FT_GLYPH_FORMAT_BITMAP
  | FT_GLYPH_FORMAT_OUTLINE
  | FT_GLYPH_FORMAT_PLOTTER
  | FT_GLYPH_FORMAT_SVG.

(** [face->glyph], the glyph slot, as far as the path generators read
    it. *)
Record FT_GlyphSlot := {
  format : FT_Glyph_Format;
  outline : FT_Outline
}.

(** [bool generateGlyphPathStatic(FT_Face face, SkPath* path)], on the
    glyph slot of the face: the result and the path afterwards. *)
Definition generateGlyphPathStatic (glyph : FT_GlyphSlot) (path : SkPathCalls)
  : bool * SkPathCalls :=
  let sink := SkFTGeometrySink.init path in
  match format glyph with
  | FT_GLYPH_FORMAT_OUTLINE =>
      let '(error, sink) :=
        FT_Outline_Decompose (outline glyph) SkFTGeometrySink.Funcs sink in
      if error =? 0 then (true, SkFTGeometrySink.fPath sink ++ [PathClose])
      else (false, [])
  | _ => (false, [])
  end.

(** The load flags of FreeType that the file sets, clears or tests. *)
Definition FT_LOAD_RENDER : Z := Z.shiftl 1 2.
Definition FT_LOAD_NO_BITMAP : Z := Z.shiftl 1 3.
Definition FT_LOAD_TARGET_MONO : Z := Z.shiftl 2 16.

(** What the path generators and [drawCOLRv0Glyph] ask of an [FT_Face]:
    [FT_Load_Glyph], which gives an error or fills the glyph slot, and
    the layers [FT_Get_Color_Glyph_Layer] hands out for a glyph, each a
    glyph index and a colour index. *)
Record FT_OutlineFace := {
  FT_Load_Glyph : Z -> Z -> Z * FT_GlyphSlot;
  color_glyph_layers : Z -> list (Z * Z)
}.

(** [bool generateFacePathStatic(face, glyphID, loadGlyphFlags, path)];
    [loadGlyphFlags] is a [uint32_t]. *)
Definition generateFacePathStatic (face : FT_OutlineFace) (glyphID : Z)
    (loadGlyphFlags : Z) (path : SkPathCalls) : bool * SkPathCalls :=
  let loadGlyphFlags := Z.lor loadGlyphFlags FT_LOAD_NO_BITMAP in
  let loadGlyphFlags :=
    Z.land loadGlyphFlags (Z.lnot FT_LOAD_RENDER) mod 2 ^ 32 in
  let '(error, glyph) := FT_Load_Glyph face glyphID loadGlyphFlags in
  if negb (error =? 0) then (false, [])
  else generateGlyphPathStatic glyph path.

(** [SkScalerContext_FreeType_Base::generateFacePath]. *)
Definition generateFacePath (face : FT_OutlineFace) (glyphID : Z)
    (loadGlyphFlags : Z) (path : SkPathCalls) : bool * SkPathCalls :=
  generateFacePathStatic face glyphID loadGlyphFlags path.

(** ** COLRv0 glyphs *)

(** The calls [drawCOLRv0Glyph] makes on its canvas. *)
Inductive CanvasCall :=
  | CallTranslate (dx dy : SkScalar)
  | CallDrawPath (path : SkPathCalls) (paint : SkPaint).

(** The glyph, as far as [drawCOLRv0Glyph] reads it. *)
Record SkGlyph := {
  getGlyphID : Z;
  getSubXFixed : Z;
  getSubYFixed : Z
}.

(** The loop of [drawCOLRv0Glyph] over the layers that
    [FT_Get_Color_Glyph_Layer] hands out; [palette[layerColorIndex]] is
    read without a check of the index. *)
Fixpoint draw_layers (face : FT_OutlineFace) (fForegroundColor : SkColor)
    (loadGlyphFlags : Z) (palette : list SkColor) (layers : list (Z * Z))
    (haveLayers : bool) (paint : SkPaint) (canvas : list CanvasCall)
  : bool * list CanvasCall :=
  match layers with
  | [] => (haveLayers, canvas)
  | (layerGlyphIndex, layerColorIndex) :: layers' =>
      let haveLayers := true in
      let paint :=
        if layerColorIndex =? 0xFFFF then setColor fForegroundColor paint
        else setColor (palette !!! Z.to_nat layerColorIndex) paint in
      let '(ok, path) :=
        generateFacePath face layerGlyphIndex loadGlyphFlags [] in
      let canvas :=
        if ok then canvas ++ [CallDrawPath path paint] else canvas in
      draw_layers face fForegroundColor loadGlyphFlags palette layers'
                  haveLayers paint canvas
  end.

(** [bool SkScalerContext_FreeType_Base::drawCOLRv0Glyph(face, glyph,
    loadGlyphFlags, palette, canvas)]; [isSubpixel] and
    [fForegroundColor] are those of the scaler context. *)
Definition drawCOLRv0Glyph (isSubpixel : bool) (fForegroundColor : SkColor)
    (face : FT_OutlineFace) (glyph : SkGlyph) (loadGlyphFlags : Z)
    (palette : list SkColor) (canvas : list CanvasCall)
  : bool * list CanvasCall :=
  let canvas :=
    if isSubpixel then
      canvas ++ [CallTranslate (SkFixedToScalar (getSubXFixed glyph))
                               (SkFixedToScalar (getSubYFixed glyph))]
    else canvas in
  let paint :=
    setAntiAlias (Z.land loadGlyphFlags FT_LOAD_TARGET_MONO =? 0)
                 SkPaint_default in
  draw_layers face fForegroundColor loadGlyphFlags palette
              (color_glyph_layers face (getGlyphID glyph)) false paint canvas.

(** ** COLRv1 glyphs *)

(** [bool SkScalerContext_FreeType_Base::drawCOLRv1Glyph(face, glyph,
    loadGlyphFlags, palette, canvas)]; [isSubpixel] and
    [fForegroundColor] are those of the scaler context, [depth] bounds
    the recursion of the walk, [skCanvas] is the canvas.
    [canvas->translate(dx, dy)] is the [concat] of the translation.  The
    [VisitedSet] starts empty and ends with the call. *)
Definition drawCOLRv1Glyph `{SkMath} (isSubpixel : bool)
    (fForegroundColor : SkColor) (depth : nat) (face : FT_Face)
    (glyph : SkGlyph) (loadGlyphFlags : Z) (palette : list SkColor)
    (skCanvas : SkCanvas) : option (bool * SkCanvas) :=
  let skCanvas :=
    if isSubpixel then
      emit (OpConcat [Translate (SkFixedToScalar (getSubXFixed glyph))
                                (SkFixedToScalar (getSubYFixed glyph))])
           skCanvas
    else skCanvas in
  let visited : VisitedSet := ∅ in
  match colrv1_start_glyph palette fForegroundColor face depth
          (getGlyphID glyph) FT_COLOR_INCLUDE_ROOT_TRANSFORM
          {| canvas := skCanvas; activePaints := visited |} with
  | Some (haveLayers, st) => Some (haveLayers, canvas st)
  | None => None
  end.

(** ** Glyph bitmaps *)

(** [FT_Pixel_Mode] of FreeType. *)
Inductive FT_Pixel_Mode :=
  | FT_PIXEL_MODE_NONE
  | FT_PIXEL_MODE_MONO
  | FT_PIXEL_MODE_GRAY
  | FT_PIXEL_MODE_GRAY2
  | FT_PIXEL_MODE_GRAY4
  | FT_PIXEL_MODE_LCD
  | FT_PIXEL_MODE_LCD_V
  | FT_PIXEL_MODE_BGRA.

(** [SkMask::Format]. *)
Inductive SkMask_Format :=
  | kBW_Format
  | kA8_Format
  | k3D_Format
  | kARGB32_Format
  | kLCD16_Format
  | kSDF_Format.

(** [SkColorType]: the two colour types the file names;
    [kOther_SkColorType] stands for every other one. *)
Inductive SkColorType :=
  | kAlpha_8_SkColorType
  | kN32_SkColorType
  | kOther_SkColorType.

(** [FT_Pixel_Mode compute_pixel_mode(SkMask::Format format)]. *)
Definition compute_pixel_mode (format : SkMask_Format) : FT_Pixel_Mode :=
  match format with
  | kBW_Format => FT_PIXEL_MODE_MONO
  | _ => FT_PIXEL_MODE_GRAY
  end.

(** [inline SkMask::Format SkMaskFormat_for_SkColorType(SkColorType)]. *)
Definition SkMaskFormat_for_SkColorType (colorType : SkColorType)
  : SkMask_Format :=
  match colorType with
  | kAlpha_8_SkColorType => kA8_Format
  | kN32_SkColorType => kARGB32_Format
  | _ => kA8_Format
  end.

(** [inline SkColorType SkColorType_for_FTPixelMode(FT_Pixel_Mode)]. *)
Definition SkColorType_for_FTPixelMode (pixel_mode : FT_Pixel_Mode)
  : SkColorType :=
  match pixel_mode with
  | FT_PIXEL_MODE_MONO | FT_PIXEL_MODE_GRAY => kAlpha_8_SkColorType
  | FT_PIXEL_MODE_BGRA => kN32_SkColorType
  | _ => kAlpha_8_SkColorType
  end.

(** [inline SkColorType SkColorType_for_SkMaskFormat(SkMask::Format)]. *)
Definition SkColorType_for_SkMaskFormat (format : SkMask_Format)
  : SkColorType :=
  match format with
  | kBW_Format | kA8_Format | kLCD16_Format => kAlpha_8_SkColorType
  | kARGB32_Format => kN32_SkColorType
  | _ => kAlpha_8_SkColorType
  end.

(** [FT_Bitmap]: [buffer] is the block of bytes the pointer of the
    bitmap points into and [buffer_pos] the position of the pointer in
    it (a bitmap with a negative [pitch] has its later rows before the
    pointer). *)
Record FT_Bitmap := {
  rows : Z;
  width : Z;
  pitch : Z;
  buffer : list Z;
  buffer_pos : Z;
  pixel_mode : FT_Pixel_Mode
}.

(** What is fixed by the processor and the build: the byte order, and
    the positions of the four channels in an [SkPMColor]. *)
Class SkCPU := {
  SK_CPU_BENDIAN : bool;
  SK_A32_SHIFT : Z;
  SK_R32_SHIFT : Z;
  SK_G32_SHIFT : Z;
  SK_B32_SHIFT : Z
}.

(** A store through a [uint16_t*] and through an [SkPMColor*] at the
    byte [off] of a buffer, and the reads. *)
Definition store16 `{SkCPU} (buf : list Z) (off : Z) (v : Z) : list Z :=
  let lo := Z.land v 0xFF in
  let hi := Z.land (Z.shiftr v 8) 0xFF in
  if SK_CPU_BENDIAN then store (store buf off hi) (off + 1) lo
  else store (store buf off lo) (off + 1) hi.

Definition load16 `{SkCPU} (buf : list Z) (off : Z) : Z :=
  if SK_CPU_BENDIAN then Z.lor (Z.shiftl (load buf off) 8) (load buf (off + 1))
  else Z.lor (Z.shiftl (load buf (off + 1)) 8) (load buf off).

Definition store32 `{SkCPU} (buf : list Z) (off : Z) (v : Z) : list Z :=
  let lo := Z.land v 0xFFFF in
  let hi := Z.land (Z.shiftr v 16) 0xFFFF in
  if SK_CPU_BENDIAN then store16 (store16 buf off hi) (off + 2) lo
  else store16 (store16 buf off lo) (off + 2) hi.

Definition load32 `{SkCPU} (buf : list Z) (off : Z) : Z :=
  if SK_CPU_BENDIAN
  then Z.lor (Z.shiftl (load16 buf off) 16) (load16 buf (off + 2))
  else Z.lor (Z.shiftl (load16 buf (off + 2)) 16) (load16 buf off).

(** [for (i = first; ...; ++i) body], [n] times. *)
Fixpoint for_loop {St : Type} (n : nat) (i : Z) (body : Z -> St -> St)
    (st : St) : St :=
  match n with
  | O => st
  | S n' => for_loop n' (i + 1) body (body i st)
  end.

(** [for (y = height; y --> 0;) { row; src += srcStep; dst += dstStep; }]:
    [row] gets the positions of [src] and [dst] and the destination
    buffer. *)
Fixpoint for_rows (height : nat) (row : Z -> Z -> list Z -> list Z)
    (srcStep dstStep : Z) (src dst : Z) (image : list Z) : list Z :=
  match height with
  | O => image
  | S h =>
      for_rows h row srcStep dstStep (src + srcStep) (dst + dstStep)
               (row src dst image)
  end.

Definition kSkShowTextBlitCoverage : bool := false.

(** Modelled from the spec: [SkPack888ToRGB16] (include/core/SkColorPriv.h
    is not among the sources) packs the upper five, six and five bits of
    red, green and blue into a 5-6-5 pixel, red uppermost. *)
Definition SkPack888ToRGB16 (r g b : Z) : Z :=
  Z.lor (Z.lor (Z.shiftl (Z.shiftr r 3) 11) (Z.shiftl (Z.shiftr g 2) 5))
        (Z.shiftr b 3).

(** [uint16_t packTriple(U8CPU r, U8CPU g, U8CPU b)]. *)
Definition packTriple (r g b : Z) : Z :=
  let '(r, g, b) :=
    if kSkShowTextBlitCoverage
    then (Z.max r 0x40, Z.max g 0x40, Z.max b 0x40)
    else (r, g, b) in
  SkPack888ToRGB16 r g b.

(** [uint16_t grayToRGB16(U8CPU gray)]. *)
Definition grayToRGB16 (gray : Z) : Z :=
  let gray := if kSkShowTextBlitCoverage then Z.max gray 0x40 else gray in
  SkPack888ToRGB16 gray gray gray.

(** [int bittst(const uint8_t data[], int bitOffset)]; [data] is the
    buffer and the position of the pointer in it. *)
Definition bittst (data : list Z) (data_pos : Z) (bitOffset : Z) : Z :=
  let lowBit :=
    Z.shiftr (load data (data_pos + Z.shiftr bitOffset 3))
             (Z.land (Z.lnot bitOffset) 7) in
  Z.land lowBit 1.

(** Modelled from the spec: [sk_apply_lut_if<APPLY_LUT>]
    (src/core/SkMaskGamma.h is not among the sources) looks the component
    up in the table when [APPLY_LUT] is set and returns it otherwise. *)
Definition sk_apply_lut_if (APPLY_LUT : bool) (component : Z) (lut : list Z)
  : Z :=
  if APPLY_LUT then load lut component else component.

Section CopyLCD16.
Context `{SkCPU}.
Variable APPLY_PREBLEND : bool.
Variable bitmap : FT_Bitmap.
Variable lcdIsBGR : bool.
Variables tableR tableG tableB : list Z.

(** The rows of [copyFT2LCD16], one per pixel mode. *)
Definition lcd16_row_mono (width : Z) (src dst : Z) (image : list Z)
  : list Z :=
  for_loop (Z.to_nat width) 0
    (fun x image =>
       store16 image (dst + 2 * x)
               ((- bittst (buffer bitmap) src x) mod 2 ^ 16))
    image.

Definition lcd16_row_gray (width : Z) (src dst : Z) (image : list Z)
  : list Z :=
  for_loop (Z.to_nat width) 0
    (fun x image =>
       store16 image (dst + 2 * x)
               (grayToRGB16 (load (buffer bitmap) (src + x))))
    image.

(** The state of the [FT_PIXEL_MODE_LCD] row: [triple] and the image. *)
Definition lcd16_row_lcd (width : Z) (src dst : Z) (image : list Z)
  : list Z :=
  let triple := src in
  snd (for_loop (Z.to_nat width) 0
         (fun x '(triple, image) =>
            let t i := load (buffer bitmap) (triple + i) in
            let pixel :=
              if lcdIsBGR then
                packTriple (sk_apply_lut_if APPLY_PREBLEND (t 2) tableR)
                           (sk_apply_lut_if APPLY_PREBLEND (t 1) tableG)
                           (sk_apply_lut_if APPLY_PREBLEND (t 0) tableB)
              else
                packTriple (sk_apply_lut_if APPLY_PREBLEND (t 0) tableR)
                           (sk_apply_lut_if APPLY_PREBLEND (t 1) tableG)
                           (sk_apply_lut_if APPLY_PREBLEND (t 2) tableB) in
            (triple + 3, store16 image (dst + 2 * x) pixel))
         (triple, image)).

(** The state of the [FT_PIXEL_MODE_LCD_V] row: [srcR], [srcG], [srcB]
    and the image. *)
Definition lcd16_row_lcd_v (width : Z) (src dst : Z) (image : list Z)
  : list Z :=
  let srcR := src in
  let srcG := srcR + pitch bitmap in
  let srcB := srcG + pitch bitmap in
  let '(srcR, srcB) := if lcdIsBGR then (srcB, srcR) else (srcR, srcB) in
  snd (for_loop (Z.to_nat width) 0
         (fun x '(srcR, srcG, srcB, image) =>
            let pixel :=
              packTriple
                (sk_apply_lut_if APPLY_PREBLEND (load (buffer bitmap) srcR)
                                 tableR)
                (sk_apply_lut_if APPLY_PREBLEND (load (buffer bitmap) srcG)
                                 tableG)
                (sk_apply_lut_if APPLY_PREBLEND (load (buffer bitmap) srcB)
                                 tableB) in
            (srcR + 1, srcG + 1, srcB + 1,
             store16 image (dst + 2 * x) pixel))
         (srcR, srcG, srcB, image)).

(** [template<bool APPLY_PREBLEND> void copyFT2LCD16(bitmap, mask,
    lcdIsBGR, tableR, tableG, tableB)]: the image of the mask
    afterwards. *)
Definition copyFT2LCD16 (mask : SkMask) : list Z :=
  let src := buffer_pos bitmap in
  let dst := 0 in
  let dstRB := fRowBytes mask in
  let width := SkIRect_width (fBounds mask) in
  let height := SkIRect_height (fBounds mask) in
  match pixel_mode bitmap with
  | FT_PIXEL_MODE_MONO =>
      for_rows (Z.to_nat height) (lcd16_row_mono width) (pitch bitmap) dstRB
               src dst (fImage mask)
  | FT_PIXEL_MODE_GRAY =>
      for_rows (Z.to_nat height) (lcd16_row_gray width) (pitch bitmap) dstRB
               src dst (fImage mask)
  | FT_PIXEL_MODE_LCD =>
      for_rows (Z.to_nat height) (lcd16_row_lcd width) (pitch bitmap) dstRB
               src dst (fImage mask)
  | FT_PIXEL_MODE_LCD_V =>
      for_rows (Z.to_nat height) (lcd16_row_lcd_v width) (3 * pitch bitmap)
               dstRB src dst (fImage mask)
  | _ => fImage mask
  end.
End CopyLCD16.

(** Modelled from the spec: [SkPackARGB32] (include/core/SkColorPriv.h is
    not among the sources) puts each channel at its shift. *)
Definition SkPackARGB32 `{SkCPU} (a r g b : Z) : Z :=
  Z.lor (Z.lor (Z.shiftl a SK_A32_SHIFT) (Z.shiftl r SK_R32_SHIFT))
        (Z.lor (Z.shiftl g SK_G32_SHIFT) (Z.shiftl b SK_B32_SHIFT)).

(** [memcpy(dst, src, n)] from the buffer [from] into [image]. *)
Definition memcpy (from : list Z) (n : Z) (src dst : Z) (image : list Z)
  : list Z :=
  for_loop (Z.to_nat n) 0
    (fun i image => store image (dst + i) (load from (src + i))) image.

Section CopyBitmap.
Context `{SkCPU}.
Variable srcFTBitmap : FT_Bitmap.

(** The row of the mono to A8 branch of [copyFTBitmap]; the state is
    [byte], [bits], [src_row], [dst_row] and the image. *)
Definition copy_row_mono_a8 (width : Z) (src dst : Z) (image : list Z)
  : list Z :=
  let '(_, _, _, _, image) :=
    for_loop (Z.to_nat width) 0
      (fun _ '(byte, bits, src_row, dst_row, image) =>
         let '(byte, bits, src_row) :=
           if bits =? 0 then (load (buffer srcFTBitmap) src_row, 8, src_row + 1)
           else (byte, bits, src_row) in
         let image :=
           store image dst_row (if Z.land byte 0x80 =? 0 then 0x00 else 0xff) in
         (Z.shiftl byte 1 mod 2 ^ 8, bits - 1, src_row, dst_row + 1, image))
      (0, 0, src, dst, image) in
  image.

(** The row of the BGRA to ARGB32 branch. *)
Definition copy_row_bgra (width : Z) (src dst : Z) (image : list Z)
  : list Z :=
  snd (for_loop (Z.to_nat width) 0
         (fun _ '(src_row, dst_row, image) =>
            let b := load (buffer srcFTBitmap) src_row in
            let g := load (buffer srcFTBitmap) (src_row + 1) in
            let r := load (buffer srcFTBitmap) (src_row + 2) in
            let a := load (buffer srcFTBitmap) (src_row + 3) in
            (src_row + 4, dst_row + 4,
             store32 image dst_row (SkPackARGB32 a r g b)))
         (src, dst, image)).

(** [void copyFTBitmap(const FT_Bitmap& srcFTBitmap, SkMask& dstMask)]:
    the image of the mask afterwards; [dstFormat] is [dstMask.fFormat].
    An unsupported pair of formats leaves the image as it is. *)
Definition copyFTBitmap (dstFormat : SkMask_Format) (dstMask : SkMask)
  : list Z :=
  let src := buffer_pos srcFTBitmap in
  let srcFormat := pixel_mode srcFTBitmap in
  let srcPitch := pitch srcFTBitmap in
  let srcRowBytes := Z.abs srcPitch in
  let dst := 0 in
  let dstRowBytes := fRowBytes dstMask in
  let width := width srcFTBitmap in
  let height := rows srcFTBitmap in
  match dstFormat, srcFormat with
  | kLCD16_Format, _ =>
      copyFT2LCD16 false srcFTBitmap false [] [] [] dstMask
  | kBW_Format, FT_PIXEL_MODE_MONO
  | kA8_Format, FT_PIXEL_MODE_GRAY =>
      let commonRowBytes := Z.min srcRowBytes dstRowBytes in
      for_rows (Z.to_nat height) (memcpy (buffer srcFTBitmap) commonRowBytes)
               srcPitch dstRowBytes src dst (fImage dstMask)
  | kA8_Format, FT_PIXEL_MODE_MONO =>
      for_rows (Z.to_nat height) (copy_row_mono_a8 width)
               srcPitch dstRowBytes src dst (fImage dstMask)
  | kARGB32_Format, FT_PIXEL_MODE_BGRA =>
      for_rows (Z.to_nat height) (copy_row_bgra width)
               srcPitch dstRowBytes src dst (fImage dstMask)
  | _, _ => fImage dstMask
  end.
End CopyBitmap.

(** ** Pieces of [generateGlyphImage] *)

(** Conversions to [unsigned int] and to [int]. *)
Definition to_uint32 (v : Z) : Z := v mod 2 ^ 32.
Definition to_int32 (v : Z) : Z := (v + 2 ^ 31) mod 2 ^ 32 - 2 ^ 31.

(** [SkToInt]: the cast to [int] (its assertion that the value fits is
    compiled out of a release build). *)
Definition SkToInt (x : Z) : Z := to_int32 x.

(** The translation [generateGlyphImage] gives an outline before it is
    rendered into an A8 or BW mask, along one axis:
    [dx - ((bbox.xMin + dx) & ~63)], in 26.6 numbers. *)
Definition outline_translation (bbox_min d : Z) : Z :=
  d - Z.land (bbox_min + d) (Z.lnot 63).

(** What the LCD branch of [generateGlyphImage] changes when it fits the
    bitmap FreeType has rendered and the mask of the glyph to each other:
    the position and the extent of the bitmap in the glyph slot
    ([ftGlyph.bitmap_left], [bitmap_top], [bitmap.rows], [bitmap.width]),
    the pointer into its buffer, the bounds of the mask and the pointer
    into its image. *)
Record LCDFit := {
  bitmap_left : Z;
  bitmap_top : Z;
  bitmap_rows : Z;
  bitmap_width : Z;
  bitmap_buffer : Z;
  mask_bounds : SkIRect;
  mask_image : Z
}.

(** The eight [if] statements of [generateGlyphImage] between "First
    align the top left (origin)" and the call of [copyFT2LCD16], one
    definition each, in their order.  [bitmap_pitch] is
    [ftGlyph.bitmap.pitch], [mask_rowBytes] is [mask.fRowBytes]. *)

(** [if (-ftGlyph.bitmap_top < mask.fBounds.fTop)]: the bitmap begins
    above the mask. *)
Definition skip_bitmap_rows (bitmap_pitch : Z) (st : LCDFit) : LCDFit :=
  if - bitmap_top st <? fTop (mask_bounds st) then
    let topDiff := fTop (mask_bounds st) - (- bitmap_top st) in
    {| bitmap_left := bitmap_left st;
       bitmap_top := - fTop (mask_bounds st);
       bitmap_rows := to_uint32 (bitmap_rows st - topDiff);
       bitmap_width := bitmap_width st;
       bitmap_buffer := bitmap_buffer st + bitmap_pitch * topDiff;
       mask_bounds := mask_bounds st;
       mask_image := mask_image st |}
  else st.

(** [if (ftGlyph.bitmap_left < mask.fBounds.fLeft)]: the bitmap begins
    left of the mask. *)
Definition skip_bitmap_columns (st : LCDFit) : LCDFit :=
  if bitmap_left st <? fLeft (mask_bounds st) then
    let leftDiff := fLeft (mask_bounds st) - bitmap_left st in
    {| bitmap_left := fLeft (mask_bounds st);
       bitmap_top := bitmap_top st;
       bitmap_rows := bitmap_rows st;
       bitmap_width := to_uint32 (bitmap_width st - leftDiff);
       bitmap_buffer := bitmap_buffer st + leftDiff;
       mask_bounds := mask_bounds st;
       mask_image := mask_image st |}
  else st.

(** [if (mask.fBounds.fTop < -ftGlyph.bitmap_top)]: the mask begins
    above the bitmap. *)
Definition skip_mask_rows (mask_rowBytes : Z) (st : LCDFit) : LCDFit :=
  if fTop (mask_bounds st) <? - bitmap_top st then
    {| bitmap_left := bitmap_left st;
       bitmap_top := bitmap_top st;
       bitmap_rows := bitmap_rows st;
       bitmap_width := bitmap_width st;
       bitmap_buffer := bitmap_buffer st;
       mask_bounds :=
         {| fLeft := fLeft (mask_bounds st);
            fTop := - bitmap_top st;
            fRight := fRight (mask_bounds st);
            fBottom := fBottom (mask_bounds st) |};
       mask_image :=
         mask_image st
         + to_uint32 (mask_rowBytes
                      * (- bitmap_top st - fTop (mask_bounds st))) |}
  else st.

(** [if (mask.fBounds.fLeft < ftGlyph.bitmap_left)]: the mask begins
    left of the bitmap; a pixel of the mask has [sizeof(uint16_t)]
    bytes. *)
Definition skip_mask_columns (st : LCDFit) : LCDFit :=
  if fLeft (mask_bounds st) <? bitmap_left st then
    {| bitmap_left := bitmap_left st;
       bitmap_top := bitmap_top st;
       bitmap_rows := bitmap_rows st;
       bitmap_width := bitmap_width st;
       bitmap_buffer := bitmap_buffer st;
       mask_bounds :=
         {| fLeft := bitmap_left st;
            fTop := fTop (mask_bounds st);
            fRight := fRight (mask_bounds st);
            fBottom := fBottom (mask_bounds st) |};
       mask_image :=
         mask_image st + 2 * (bitmap_left st - fLeft (mask_bounds st)) |}
  else st.

Definition ftVertScale (doVert : bool) : Z := if doVert then 3 else 1.
Definition ftHoriScale (doVert : bool) : Z := if doVert then 1 else 3.

(** [if (mask.fBounds.height() * ftVertScale
         < SkToInt(ftGlyph.bitmap.rows))]. *)
Definition clamp_bitmap_rows (doVert : bool) (st : LCDFit) : LCDFit :=
  if SkIRect_height (mask_bounds st) * ftVertScale doVert
     <? SkToInt (bitmap_rows st) then
    {| bitmap_left := bitmap_left st;
       bitmap_top := bitmap_top st;
       bitmap_rows :=
         to_uint32 (SkIRect_height (mask_bounds st) * ftVertScale doVert);
       bitmap_width := bitmap_width st;
       bitmap_buffer := bitmap_buffer st;
       mask_bounds := mask_bounds st;
       mask_image := mask_image st |}
  else st.

(** [if (mask.fBounds.width() * ftHoriScale
         < SkToInt(ftGlyph.bitmap.width))]. *)
Definition clamp_bitmap_width (doVert : bool) (st : LCDFit) : LCDFit :=
  if SkIRect_width (mask_bounds st) * ftHoriScale doVert
     <? SkToInt (bitmap_width st) then
    {| bitmap_left := bitmap_left st;
       bitmap_top := bitmap_top st;
       bitmap_rows := bitmap_rows st;
       bitmap_width :=
         to_uint32 (SkIRect_width (mask_bounds st) * ftHoriScale doVert);
       bitmap_buffer := bitmap_buffer st;
       mask_bounds := mask_bounds st;
       mask_image := mask_image st |}
  else st.

(** [if (SkToInt(ftGlyph.bitmap.rows)
         < mask.fBounds.height() * ftVertScale)]; the sum is one of
    [unsigned int] and its value becomes an [int32_t]. *)
Definition clamp_mask_bottom (doVert : bool) (st : LCDFit) : LCDFit :=
  if SkToInt (bitmap_rows st)
     <? SkIRect_height (mask_bounds st) * ftVertScale doVert then
    {| bitmap_left := bitmap_left st;
       bitmap_top := bitmap_top st;
       bitmap_rows := bitmap_rows st;
       bitmap_width := bitmap_width st;
       bitmap_buffer := bitmap_buffer st;
       mask_bounds :=
         {| fLeft := fLeft (mask_bounds st);
            fTop := fTop (mask_bounds st);
            fRight := fRight (mask_bounds st);
            fBottom :=
              to_int32 (to_uint32 (fTop (mask_bounds st)
                                   + bitmap_rows st / ftVertScale doVert)) |};
       mask_image := mask_image st |}
  else st.

(** [if (SkToInt(ftGlyph.bitmap.width)
         < mask.fBounds.width() * ftHoriScale)]. *)
Definition clamp_mask_right (doVert : bool) (st : LCDFit) : LCDFit :=
  if SkToInt (bitmap_width st)
     <? SkIRect_width (mask_bounds st) * ftHoriScale doVert then
    {| bitmap_left := bitmap_left st;
       bitmap_top := bitmap_top st;
       bitmap_rows := bitmap_rows st;
       bitmap_width := bitmap_width st;
       bitmap_buffer := bitmap_buffer st;
       mask_bounds :=
         {| fLeft := fLeft (mask_bounds st);
            fTop := fTop (mask_bounds st);
            fRight :=
              to_int32 (to_uint32 (fLeft (mask_bounds st)
                                   + bitmap_width st / ftHoriScale doVert));
            fBottom := fBottom (mask_bounds st) |};
       mask_image := mask_image st |}
  else st.

(** The eight statements, one after the other. *)
Definition fit_lcd_bitmap (doVert : bool) (bitmap_pitch mask_rowBytes : Z)
    (st : LCDFit) : LCDFit :=
  let st := skip_bitmap_rows bitmap_pitch st in
  let st := skip_bitmap_columns st in
  let st := skip_mask_rows mask_rowBytes st in
  let st := skip_mask_columns st in
  let st := clamp_bitmap_rows doVert st in
  let st := clamp_bitmap_width doVert st in
  let st := clamp_mask_bottom doVert st in
  let st := clamp_mask_right doVert st in
  st.

(** ** The storage of an embedded pipeline
       (src/core/SkLinearBitmapPipeline.h) *)

(** Modelled from the spec: [SkAlign4], [SkAlign16] and [SkAlignPtr]
    (include/core/SkTypes.h is not among the sources) round up to the next
    multiple of 4, of 16 and of the size of a pointer. *)
Definition SkAlign4 (x : Z) : Z := Z.shiftl (Z.shiftr (x + 3) 2) 2.
Definition SkAlign16 (x : Z) : Z := Z.shiftl (Z.shiftr (x + 15) 4) 4.

Module SkEmbeddableLinearPipeline.
Section Storage.
(** The size of a pointer and [sizeof(SkLinearBitmapPipeline)]. *)
Variable sizeof_ptr : Z.
Variable kActualSize : Z.

Definition SkAlignPtr (x : Z) : Z :=
  if sizeof_ptr =? 8 then SkAlign8 x else SkAlign4 x.

Definition kPaddedSize : Z := SkAlignPtr (kActualSize + 12).

(** [sizeof(fPipelineStorage)], an array of
    [kPaddedSize] bytes, counted in pointers. *)
Definition sizeof_storage : Z := kPaddedSize / sizeof_ptr * sizeof_ptr.

(** [init]: the address [fPipeline] gets, from the address of
    [fPipelineStorage]. *)
Definition init (fPipelineStorage : Z) : Z := SkAlign16 fPipelineStorage.
End Storage.
End SkEmbeddableLinearPipeline.

(** ** Further notions for the walks *)

(** The depth of the save stack after the canvas calls [l], from the
    depth [d]; [None] when a [restore()] finds nothing to restore. *)
Fixpoint nesting (l : list CanvasOp) (d : nat) : option nat :=
  match l with
  | [] => Some d
  | OpSave :: l' | OpSaveLayer _ :: l' => nesting l' (S d)
  | OpRestore :: l' =>
      match d with
      | O => None
      | S d' => nesting l' d'
      end
  | _ :: l' => nesting l' d
  end.

(** Calls that restore every level they save and nothing else. *)
Definition balanced (l : list CanvasOp) : Prop := nesting l 0 = Some 0%nat.

(** The canvas [c'] is the canvas [c] after further calls that are
    balanced. *)
Definition canvas_grows (c c' : SkCanvas) : Prop :=
  saveCount c' = saveCount c /\
  exists new, ops c' = ops c ++ new /\ balanced new.

(** A walk that leaves the save stack as it found it. *)
Definition balances (w : FT_OpaquePaint -> Walk RenderState) : Prop :=
  forall o st ok st',
    (1 <= saveCount (canvas st))%nat -> w o st = Some (ok, st') ->
    canvas_grows (canvas st) (canvas st').

(** The bounds state [st'] is [st] with further outlines joined, each
    under a matrix that begins with the matrix of [st]. *)
Definition bounds_grow (st st' : BoundsState) : Prop :=
  exists new,
    bounds st' = bounds st ++ new /\
    Forall (fun mp : SkMatrix * SkPath => ctm st `prefix_of` mp.1) new.

(** A bounds walk that hands the running matrix back as it got it. *)
Definition restores_ctm (w : FT_OpaquePaint -> Walk BoundsState) : Prop :=
  forall o st ok st',
    w o st = Some (ok, st') -> ctm st' = ctm st /\ bounds_grow st st'.

(** Where the drawing walk [w] succeeds, the bounds walk [wB] succeeds
    from every state with the same active paints. *)
Definition covered_by (w : FT_OpaquePaint -> Walk RenderState)
    (wB : FT_OpaquePaint -> Walk BoundsState) : Prop :=
  forall o st st' stB,
    activePaintsB stB = activePaints st ->
    w o st = Some (true, st') ->
    exists stB', wB o stB = Some (true, stB').

(** ** Notions for paths *)

(** Where a path stands between its contours: no contour is open, a
    contour was opened by a [moveTo] and has no segment yet, or a contour
    is open and has a segment. *)
Inductive ContourState := NoContour | Moved | InContour.

Definition contour_step (s : ContourState) (call : SkPathCall)
  : option ContourState :=
  match call, s with
  | PathMoveTo _ _, NoContour => Some Moved
  | PathLineTo _ _, (Moved | InContour)
  | PathQuadTo _ _ _ _, (Moved | InContour)
  | PathCubicTo _ _ _ _ _ _, (Moved | InContour) => Some InContour
  | PathClose, InContour => Some NoContour
  | _, _ => None
  end.

(** The state after the calls [l] from the state [s], when the calls
    build contours: a [moveTo] comes only between contours, a segment
    only in a contour, and a [close()] only ends a contour that has a
    segment. *)
Fixpoint contours (l : list SkPathCall) (s : ContourState)
  : option ContourState :=
  match l with
  | [] => Some s
  | call :: l' =>
      match contour_step s call with
      | Some s' => contours l' s'
      | None => None
      end
  end.

(** Calls that build whole contours: each is one [moveTo], one segment
    or more, and one [close()]. *)
Definition whole_contours (l : list SkPathCall) : Prop :=
  contours l NoContour = Some NoContour.

(** The state of the path a sink has built. *)
Definition sink_state (self : SkFTGeometrySink.t) : ContourState :=
  if SkFTGeometrySink.fStarted self then InContour else NoContour.

(** What a sink has added to the path [path] builds contours. *)
Definition sink_ok (path : list SkPathCall) (self : SkFTGeometrySink.t)
  : Prop :=
  exists new,
    SkFTGeometrySink.fPath self = path ++ new /\
    contours new NoContour = Some (sink_state self).

(** The points of a segment. *)
Definition call_points (call : FT_Outline_Call) : list FT_Vector :=
  match call with
  | move_to pt | line_to pt => [pt]
  | conic_to pt0 pt1 => [pt0; pt1]
  | cubic_to pt0 pt1 pt2 => [pt0; pt1; pt2]
  end.

(** The colour [drawCOLRv0Glyph] draws a layer with. *)
Definition layer_color (fForegroundColor : SkColor) (palette : list SkColor)
    (layerColorIndex : Z) : SkColor :=
  if layerColorIndex =? 0xFFFF then fForegroundColor
  else palette !!! Z.to_nat layerColorIndex.

(** The call [drawCOLRv0Glyph] makes for a layer, if it makes one. *)
Definition layer_call (face : FT_OutlineFace) (fForegroundColor : SkColor)
    (loadGlyphFlags : Z) (palette : list SkColor) (layer : Z * Z)
  : option CanvasCall :=
  let '(ok, path) := generateFacePath face layer.1 loadGlyphFlags [] in
  if ok then
    Some (CallDrawPath path
            (setColor (layer_color fForegroundColor palette layer.2)
               (setAntiAlias (Z.land loadGlyphFlags FT_LOAD_TARGET_MONO =? 0)
                             SkPaint_default)))
  else None.

(** ** Notions for the bitmap conversions *)

(** A buffer of bytes. *)
Definition bytes (buf : list Z) : Prop :=
  Forall (fun a => 0 <= a <= 0xFF) buf.

(** The row function [row] writes the [width] cells of a row, each of
    [cell] bytes: from the source position [src] it gives the cell [x]
    the value [val src x], and it leaves every byte outside the row as
    it is.  [loadc] reads a cell. *)
Definition writes_row (cell : Z) (loadc : list Z -> Z -> Z) (width : Z)
    (val : Z -> Z -> Z) (row : Z -> Z -> list Z -> list Z) : Prop :=
  forall src dst image,
    0 <= dst -> dst + cell * width <= Z.of_nat (length image) ->
    length (row src dst image) = length image /\
    (forall x, 0 <= x < width ->
       loadc (row src dst image) (dst + cell * x) = val src x) /\
    (forall off, ~ (dst <= off < dst + cell * width) ->
       load (row src dst image) off = load image off).

(** The image [image'] is the image [image] with the cells of [width]
    columns and [height] rows written, the rows [dstStep] bytes apart:
    the cell at the column [x] of the row [r] has the value [val r x],
    and every byte outside these cells is as it was. *)
Definition writes_image (cell : Z) (loadc : list Z -> Z -> Z)
    (width height dstStep : Z) (val : Z -> Z -> Z) (image image' : list Z)
  : Prop :=
  length image' = length image /\
  (forall r x, 0 <= r < height -> 0 <= x < width ->
     loadc image' (r * dstStep + cell * x) = val r x) /\
  (forall off,
     (forall r, 0 <= r < height ->
        ~ (r * dstStep <= off < r * dstStep + cell * width)) ->
     load image' off = load image off).

(** A reader of cells that looks at the [cell] bytes of the cell
    only. *)
Definition reads_cell (cell : Z) (loadc : list Z -> Z -> Z) : Prop :=
  forall image image' off,
    (forall k, off <= k < off + cell -> load image k = load image' k) ->
    loadc image off = loadc image' off.

(** The sample [copyFTBitmap] makes of a bit. *)
Definition expand_bit (bit : Z) : Z := if bit =? 0 then 0x00 else 0xFF.

(** The first [j] cells of a row at [dst] are written with the values
    [val], and every byte outside them is as it was in [image]. *)
Definition row_written (cell : Z) (loadc : list Z -> Z -> Z) (dst : Z)
    (val : Z -> Z) (image : list Z) (j : Z) (image' : list Z) : Prop :=
  length image' = length image /\
  (forall k, 0 <= k < j -> loadc image' (dst + cell * k) = val k) /\
  (forall off, ~ (dst <= off < dst + cell * j) ->
     load image' off = load image off).

(** Modelled from the spec: the three channels of a 5-6-5 pixel
    ([SkGetPackedR16], [SkGetPackedG16] and [SkGetPackedB16] of
    include/core/SkColorPriv.h, which is not among the sources). *)
Definition SkGetPackedR16 (color : Z) : Z := Z.land (Z.shiftr color 11) 0x1F.
Definition SkGetPackedG16 (color : Z) : Z := Z.land (Z.shiftr color 5) 0x3F.
Definition SkGetPackedB16 (color : Z) : Z := Z.land color 0x1F.

(** The three samples [copyFT2LCD16] packs into the pixel at the column
    [x] of the row [r] of a bitmap of LCD triples, in the order red,
    green, blue. *)
Definition lcd_samples (bitmap : FT_Bitmap) (lcdIsBGR : bool) (r x : Z)
  : Z * Z * Z :=
  let sample off := load (buffer bitmap) (buffer_pos bitmap + off) in
  let '(first, step) :=
    match pixel_mode bitmap with
    | FT_PIXEL_MODE_LCD_V => (3 * r * pitch bitmap + x, pitch bitmap)
    | _ => (r * pitch bitmap + 3 * x, 1)
    end in
  if lcdIsBGR
  then (sample (first + 2 * step), sample (first + step), sample first)
  else (sample first, sample (first + step), sample (first + 2 * step)).

(** The pixel [copyFT2LCD16] packs of three samples. *)
Definition triple_pixel (APPLY_PREBLEND : bool) (tableR tableG tableB : list Z)
    (samples : Z * Z * Z) : Z :=
  let '(sr, sg, sb) := samples in
  packTriple (sk_apply_lut_if APPLY_PREBLEND sr tableR)
             (sk_apply_lut_if APPLY_PREBLEND sg tableG)
             (sk_apply_lut_if APPLY_PREBLEND sb tableB).

(** Modelled from the spec: a channel of an [SkPMColor]
    ([SkGetPackedA32] and the like of include/core/SkColorPriv.h, which is
    not among the sources): the byte at the shift of the channel. *)
Definition SkGetPacked32 (shift : Z) (packed : Z) : Z :=
  Z.land (Z.shiftr packed shift) 0xFF.

(** The four channels have the four bytes of an [SkPMColor], each its
    own. *)
Definition channel_shifts `{SkCPU} : Prop :=
  Forall (fun s => s = 0 \/ s = 8 \/ s = 16 \/ s = 24)
         [SK_A32_SHIFT; SK_R32_SHIFT; SK_G32_SHIFT; SK_B32_SHIFT] /\
  NoDup [SK_A32_SHIFT; SK_R32_SHIFT; SK_G32_SHIFT; SK_B32_SHIFT].

(** The values the LCD fit starts from are in range, and the bitmap
    meets the mask, as the test with [SkIRect::Intersects] before the
    two blocks makes sure. *)
Definition fit_input (st : LCDFit) : Prop :=
  let b := mask_bounds st in
  - 2 ^ 28 <= fLeft b /\ fLeft b <= fRight b <= 2 ^ 28 /\
  - 2 ^ 28 <= fTop b /\ fTop b <= fBottom b <= 2 ^ 28 /\
  - 2 ^ 28 <= bitmap_left st <= 2 ^ 28 /\
  - 2 ^ 28 <= bitmap_top st <= 2 ^ 28 /\
  0 <= bitmap_rows st <= 2 ^ 28 /\ 0 <= bitmap_width st <= 2 ^ 28 /\
  fLeft b < bitmap_left st + bitmap_width st /\ bitmap_left st < fRight b /\
  fTop b < - bitmap_top st + bitmap_rows st /\ - bitmap_top st < fBottom b.

(** A bound on a sample input, by computing both sides. *)
Ltac by_computing :=
  vm_compute; first [congruence | split; congruence].

(** ** Further sample inputs *)

Module Example.
(** A glyph filled with opaque red. *)
Definition red_glyph : FT_Face :=
  {| paints := {[ Sample.handle 1 := PaintGlyph (Sample.handle 2) 7;
                  Sample.handle 2 := PaintSolid Sample.red ]};
     color_glyph_paint := fun _ _ => Some (Sample.handle 1);
     glyph_outline := fun _ => Some [(0, 0); (1, 0); (0, 1)];
     clip_box := fun _ _ => [] |}.

(** A blend of two glyphs under a translation. *)
Definition blended : FT_Face :=
  {| paints := {[ Sample.handle 1 := PaintTranslate (Sample.handle 2) 65536 0;
                  Sample.handle 2 :=
                    PaintComposite (Sample.handle 3) FT_COLR_COMPOSITE_MULTIPLY
                                   (Sample.handle 4);
                  Sample.handle 3 := PaintGlyph (Sample.handle 5) 7;
                  Sample.handle 4 := PaintGlyph (Sample.handle 5) 8;
                  Sample.handle 5 := PaintSolid Sample.red ]};
     color_glyph_paint := fun _ _ => Some (Sample.handle 1);
     glyph_outline := fun _ => Some [(0, 0); (1, 0); (0, 1)];
     clip_box := fun _ _ => [] |}.

(** A triangle, then a contour that does not leave its point. *)
Definition triangle : FT_Outline :=
  {| segments := [move_to (Sample.vec 0 0); line_to (Sample.vec 64 0);
                  line_to (Sample.vec 0 64); line_to (Sample.vec 0 0);
                  move_to (Sample.vec 128 128); line_to (Sample.vec 128 128)];
     outline_error := 0;
     outline_flags := 0 |}.

(** A contour that does not leave its point. *)
Definition dot : FT_Outline :=
  {| segments := [move_to (Sample.vec 64 64); line_to (Sample.vec 64 64);
                  conic_to (Sample.vec 64 64) (Sample.vec 64 64)];
     outline_error := 0;
     outline_flags := 0 |}.

Definition slot (o : FT_Outline) : FT_GlyphSlot :=
  {| format := FT_GLYPH_FORMAT_OUTLINE; outline := o |}.

(** Glyph 1 is the triangle, glyph 2 cannot be loaded; the colour glyph
    5 has three layers. *)
Definition outlines : FT_OutlineFace :=
  {| FT_Load_Glyph := fun glyphID _ =>
       if glyphID =? 1 then (0, slot triangle) else (6, slot dot);
     color_glyph_layers := fun glyphID =>
       if glyphID =? 5 then [(1, 0); (2, 1); (1, 0xFFFF)] else [] |}.

Definition glyph5 : SkGlyph :=
  {| getGlyphID := 5; getSubXFixed := 0; getSubYFixed := 0 |}.

(** A little-endian processor with the channels in the order B, G, R,
    A. *)
Definition cpu : SkCPU :=
  {| SK_CPU_BENDIAN := false;
     SK_A32_SHIFT := 24; SK_R32_SHIFT := 16;
     SK_G32_SHIFT := 8; SK_B32_SHIFT := 0 |}.

(** A mono bitmap of 10 columns and 2 rows, stored bottom-up: the
    pointer is at the first row, which is the last in the buffer. *)
Definition mono : FT_Bitmap :=
  {| rows := 2; width := 10; pitch := -2;
     buffer := [0x00; 0x40; 0xA5; 0xC0];
     buffer_pos := 2;
     pixel_mode := FT_PIXEL_MODE_MONO |}.

(** A gray bitmap of 3 columns and 2 rows. *)
Definition gray : FT_Bitmap :=
  {| rows := 2; width := 3; pitch := 4;
     buffer := [0; 0x80; 0xFF; 9; 0x3F; 0x40; 0x41; 9];
     buffer_pos := 0;
     pixel_mode := FT_PIXEL_MODE_GRAY |}.

(** A mask of [w] columns and [h] rows on an image of [n] bytes 0xAA. *)
Definition blank (w h rowBytes : Z) (n : nat) : SkMask :=
  {| fImage := replicate n 0xAA;
     fBounds := {| fLeft := 0; fTop := 0; fRight := w; fBottom := h |};
     fRowBytes := rowBytes |}.

(** Two pixels of horizontal LCD triples in one row. *)
Definition lcd : FT_Bitmap :=
  {| rows := 1; width := 6; pitch := 8;
     buffer := [0xFF; 0x80; 0x00; 0x10; 0x20; 0x30; 9; 9];
     buffer_pos := 0;
     pixel_mode := FT_PIXEL_MODE_LCD |}.

(** A table that inverts a sample. *)
Definition invert : list Z := (fun i => 255 - Z.of_nat i) <$> seq 0 256.

(** Two premultiplied BGRA pixels in one row. *)
Definition bgra : FT_Bitmap :=
  {| rows := 1; width := 2; pitch := 8;
     buffer := [0x10; 0x20; 0x30; 0xFF; 0x01; 0x02; 0x03; 0x80];
     buffer_pos := 0;
     pixel_mode := FT_PIXEL_MODE_BGRA |}.

(** A bitmap of 30 columns of samples and 12 rows at (-2, 3) and a mask
    of 8 columns and 10 rows at (0, 0). *)
Definition fit : LCDFit :=
  {| bitmap_left := -2; bitmap_top := 3; bitmap_rows := 12;
     bitmap_width := 30; bitmap_buffer := 0;
     mask_bounds := {| fLeft := 0; fTop := 0; fRight := 8; fBottom := 10 |};
     mask_image := 0 |}.
End Example.

(** * Facts *)

(** ** binary32 on the numbers the resolver meets *)

Module F32Facts.
Lemma forall_range_spec k : forall base f,
  Range.forall_range k base f = true ->
  forall z, base <= z < base + 2 ^ Z.of_nat k -> f z = true.
Proof.
  induction k as [|k IH]; intros base f Hall z Hz.
  - simpl in *. assert (z = base) by lia. subst. exact Hall.
  - cbn [Range.forall_range] in Hall. apply andb_true_iff in Hall as [H1 H2].
    rewrite Nat2Z.inj_succ, Z.pow_succ_r in Hz by lia.
    destruct (Z_lt_dec z (base + 2 ^ Z.of_nat k)).
    + apply (IH _ _ H1). lia.
    + apply (IH _ _ H2). lia.
Qed.

Lemma spec_float_eqb_eq a b : spec_float_eqb a b = true -> a = b.
Proof.
  destruct a as [s|s| |s m e], b as [s'|s'| |s' m' e']; simpl; try discriminate.
  - intros E. apply Bool.eqb_prop in E. congruence.
  - intros E. apply Bool.eqb_prop in E. congruence.
  - reflexivity.
  - intros E. apply andb_true_iff in E as [E E3].
    apply andb_true_iff in E as [E1 E2].
    apply Bool.eqb_prop in E1. apply Pos.eqb_eq in E2. apply Z.eqb_eq in E3.
    congruence.
Qed.

(** Division by 2^14 is exact on 16-bit integers, signed or unsigned. *)
Lemma div_2_14_signed :
  Range.forall_range 16 (- 2 ^ 15)
    (fun z => spec_float_eqb (F32.div (F32.of_Z z) (F32.of_Z (Z.shiftl 1 14)))
                             (F32.dyadic z (-14))) = true.
Proof. vm_compute. reflexivity. Qed.

Lemma div_2_14_high :
  Range.forall_range 15 (2 ^ 15)
    (fun z => spec_float_eqb (F32.div (F32.of_Z z) (F32.of_Z (Z.shiftl 1 14)))
                             (F32.dyadic z (-14))) = true.
Proof. vm_compute. reflexivity. Qed.

Lemma div_2_14 z :
  - 2 ^ 15 <= z < 2 ^ 16 ->
  F32.div (F32.of_Z z) (F32.of_Z (Z.shiftl 1 14)) = F32.dyadic z (-14).
Proof.
  intros Hz. apply spec_float_eqb_eq.
  destruct (Z_lt_dec z (2 ^ 15)).
  - apply (forall_range_spec _ _ _ div_2_14_signed z). simpl. lia.
  - apply (forall_range_spec _ _ _ div_2_14_high z). simpl. lia.
Qed.

Lemma of_Z_byte_all :
  Range.forall_range 8 0
    (fun z => spec_float_eqb (F32.of_Z z) (F32.dyadic z 0)) = true.
Proof. vm_compute. reflexivity. Qed.

Lemma of_Z_byte z : 0 <= z < 2 ^ 8 -> F32.of_Z z = F32.dyadic z 0.
Proof.
  intros Hz. apply spec_float_eqb_eq.
  apply (forall_range_spec _ _ _ of_Z_byte_all z). simpl. lia.
Qed.

(** Comparison of two numbers of the same scale is the comparison of
    their integers. *)
Lemma pos_mantissa_compare a b k :
  0 < a -> 0 < b -> 0 <= k ->
  Pos.compare_cont Eq (Z.to_pos (a * 2 ^ k)) (Z.to_pos (b * 2 ^ k)) = (a ?= b).
Proof.
  intros Ha Hb Hk.
  assert (0 < 2 ^ k) by (apply Z.pow_pos_nonneg; lia).
  change (Pos.compare_cont Eq ?u ?v) with (Pos.compare u v).
  rewrite <- Z2Pos.inj_compare by nia.
  destruct (Z.compare_spec (a * 2 ^ k) (b * 2 ^ k)),
           (Z.compare_spec a b); try reflexivity; nia.
Qed.

Lemma finite_compare_pos a b s :
  0 < a < 2 ^ 24 -> 0 < b < 2 ^ 24 ->
  match Z.log2 a - 23 + s ?= Z.log2 b - 23 + s with
  | Eq => Pos.compare_cont Eq (Z.to_pos (a * 2 ^ (23 - Z.log2 a)))
                              (Z.to_pos (b * 2 ^ (23 - Z.log2 b)))
  | Lt => Lt
  | Gt => Gt
  end = (a ?= b).
Proof.
  intros Ha Hb.
  assert (La : Z.log2 a < 24) by (apply Z.log2_lt_pow2; lia).
  assert (Lb : Z.log2 b < 24) by (apply Z.log2_lt_pow2; lia).
  destruct (Z.compare_spec (Z.log2 a - 23 + s) (Z.log2 b - 23 + s)) as [E|L|G].
  - assert (E' : Z.log2 a = Z.log2 b) by lia. rewrite E'.
    apply pos_mantissa_compare; lia.
  - symmetry. apply Z.compare_lt_iff. apply Z.log2_lt_cancel. lia.
  - symmetry. apply Z.compare_gt_iff. apply Z.log2_lt_cancel. lia.
Qed.

Lemma dyadic_compare s a b :
  Z.abs a < 2 ^ 24 -> Z.abs b < 2 ^ 24 ->
  SFcompare (F32.dyadic a s) (F32.dyadic b s) = Some (a ?= b).
Proof.
  intros Ha Hb. unfold F32.dyadic.
  destruct (Z.eqb_spec a 0) as [->|Na], (Z.eqb_spec b 0) as [->|Nb];
    unfold SFcompare.
  - reflexivity.
  - destruct (Z.ltb_spec b 0); f_equal; symmetry.
    + apply Z.compare_gt_iff. lia.
    + apply Z.compare_lt_iff. lia.
  - destruct (Z.ltb_spec a 0); f_equal; symmetry.
    + apply Z.compare_lt_iff. lia.
    + apply Z.compare_gt_iff. lia.
  - destruct (Z.ltb_spec a 0), (Z.ltb_spec b 0); f_equal.
    + assert (Hab : (a ?= b) = (Z.abs b ?= Z.abs a)).
      { destruct (Z.compare_spec a b), (Z.compare_spec (Z.abs b) (Z.abs a));
          try reflexivity; lia. }
      rewrite Hab, <- (finite_compare_pos (Z.abs b) (Z.abs a) s) by lia.
      rewrite (Z.compare_antisym (Z.log2 (Z.abs a) - 23 + s)).
      destruct (Z.log2 (Z.abs a) - 23 + s ?= Z.log2 (Z.abs b) - 23 + s);
        cbn [CompOpp]; try reflexivity.
      change (Pos.compare_cont Eq ?u ?v) with (Pos.compare u v).
      symmetry. apply Pos.compare_antisym.
    + symmetry. apply Z.compare_lt_iff. lia.
    + symmetry. apply Z.compare_gt_iff. lia.
    + rewrite Z.abs_eq by lia. rewrite (Z.abs_eq b) by lia.
      apply finite_compare_pos; lia.
Qed.

Lemma digits2_pos_size q : digits2_pos q = Pos.size q.
Proof. induction q; simpl; congruence. Qed.

Lemma Zdigits2_log2 z : 0 < z -> Zdigits2 z = Z.log2 z + 1.
Proof.
  destruct z as [|q|q]; try lia. intros _. simpl.
  rewrite digits2_pos_size. destruct q; simpl; lia.
Qed.

Lemma shr_1_double m :
  shr_1 {| shr_m := 2 * m; shr_r := false; shr_s := false |}
  = {| shr_m := m; shr_r := false; shr_s := false |}.
Proof. destruct m; reflexivity. Qed.

Lemma iter_pos_shr_exact n : forall Q,
  0 <= Q ->
  SpecFloat.iter_pos shr_1 n {| shr_m := Q * 2 ^ Z.pos n; shr_r := false; shr_s := false |}
  = {| shr_m := Q; shr_r := false; shr_s := false |}.
Proof.
  induction n as [n IH|n IH|]; intros Q HQ; cbn [SpecFloat.iter_pos].
  - replace (Q * 2 ^ Z.pos n~1) with (2 * ((Q * 2 ^ Z.pos n) * 2 ^ Z.pos n)).
    + rewrite shr_1_double. rewrite IH by nia. apply IH. lia.
    + replace (Z.pos n~1) with (Z.pos n + Z.pos n + 1) by lia.
      rewrite !Z.pow_add_r by lia. ring.
  - replace (Q * 2 ^ Z.pos n~0) with ((Q * 2 ^ Z.pos n) * 2 ^ Z.pos n).
    + rewrite IH by nia. apply IH. lia.
    + replace (Z.pos n~0) with (Z.pos n + Z.pos n) by lia.
      rewrite !Z.pow_add_r by lia. ring.
  - rewrite Z.pow_1_r, Z.mul_comm. apply shr_1_double.
Qed.

(** Rounding a product that fits in 24 bits changes nothing. *)
Lemma round_aux_exact sx P n0 E :
  0 < P < 2 ^ 24 -> 23 - Z.log2 P <= n0 -> -100 <= E <= 50 ->
  binary_round_aux F32.prec F32.emax sx (P * 2 ^ n0) (E - n0) loc_Exact
  = S754_finite sx (Z.to_pos (P * 2 ^ (23 - Z.log2 P))) (Z.log2 P - 23 + E).
Proof.
  intros HP Hn HE.
  assert (LP : 0 <= Z.log2 P < 24).
  { split; [apply Z.log2_nonneg | apply Z.log2_lt_pow2; lia]. }
  set (Q := P * 2 ^ (23 - Z.log2 P)).
  assert (Hpow : 0 < 2 ^ (23 - Z.log2 P)) by (apply Z.pow_pos_nonneg; lia).
  assert (HQ : 0 < Q) by (unfold Q; nia).
  assert (LQ : Z.log2 Q = 23).
  { unfold Q. rewrite Z.log2_mul_pow2 by lia. lia. }
  assert (Hmant : P * 2 ^ n0 = Q * 2 ^ (n0 - (23 - Z.log2 P))).
  { unfold Q. rewrite <- Z.mul_assoc, <- Z.pow_add_r by lia.
    f_equal. f_equal. lia. }
  assert (Hfirst : shr_fexp F32.prec F32.emax (P * 2 ^ n0) (E - n0) loc_Exact
                   = ({| shr_m := Q; shr_r := false; shr_s := false |},
                      Z.log2 P - 23 + E)).
  { unfold shr_fexp. rewrite Zdigits2_log2 by nia.
    rewrite Z.log2_mul_pow2 by lia.
    unfold fexp, emin, F32.prec, F32.emax.
    match goal with
    | |- context [Z.max ?a ?b - ?c] =>
        replace (Z.max a b - c) with (n0 - (23 - Z.log2 P)) by lia
    end.
    unfold shr. cbn [shr_record_of_loc]. rewrite Hmant.
    destruct (n0 - (23 - Z.log2 P)) as [|np|np] eqn:En; try lia.
    - rewrite Z.pow_0_r, Z.mul_1_r. f_equal. lia.
    - rewrite iter_pos_shr_exact by lia. f_equal. lia. }
  unfold binary_round_aux. rewrite Hfirst.
  cbn [shr_m loc_of_shr_record round_nearest_even].
  assert (Hsecond : shr_fexp F32.prec F32.emax Q (Z.log2 P - 23 + E) loc_Exact
                    = ({| shr_m := Q; shr_r := false; shr_s := false |},
                       Z.log2 P - 23 + E)).
  { unfold shr_fexp. rewrite Zdigits2_log2, LQ by lia.
    unfold fexp, emin, F32.prec, F32.emax.
    match goal with
    | |- context [Z.max ?a ?b - ?c] =>
        replace (Z.max a b - c) with 0 by lia
    end.
    reflexivity. }
  rewrite Hsecond. cbn [shr_m].
  destruct Q as [|q|q] eqn:EQ; try lia.
  unfold F32.emax, F32.prec.
  destruct (Z.leb_spec (Z.log2 P - 23 + E) (128 - 24)); [|lia].
  reflexivity.
Qed.

Lemma mul_dyadic A B s1 s2 :
  0 < A -> 0 < B -> A * B < 2 ^ 24 -> -100 <= s1 + s2 <= 50 ->
  F32.mul (F32.dyadic A s1) (F32.dyadic B s2) = F32.dyadic (A * B) (s1 + s2).
Proof.
  intros HA HB HAB Hs.
  assert (LA : 0 <= Z.log2 A) by apply Z.log2_nonneg.
  assert (LB : 0 <= Z.log2 B) by apply Z.log2_nonneg.
  assert (Lmul : Z.log2 A + Z.log2 B <= Z.log2 (A * B))
    by (apply Z.log2_mul_below; lia).
  assert (LP : Z.log2 (A * B) < 24) by (apply Z.log2_lt_pow2; nia).
  unfold F32.dyadic.
  destruct (Z.eqb_spec A 0); [lia|]. destruct (Z.eqb_spec B 0); [lia|].
  destruct (Z.eqb_spec (A * B) 0); [nia|].
  destruct (Z.ltb_spec A 0); [lia|]. destruct (Z.ltb_spec B 0); [lia|].
  destruct (Z.ltb_spec (A * B) 0); [nia|].
  rewrite !Z.abs_eq by nia.
  unfold F32.mul, SFmul. cbn [xorb].
  assert (HpA : 0 < 2 ^ (23 - Z.log2 A)) by (apply Z.pow_pos_nonneg; lia).
  assert (HpB : 0 < 2 ^ (23 - Z.log2 B)) by (apply Z.pow_pos_nonneg; lia).
  rewrite Pos2Z.inj_mul, !Z2Pos.id by nia.
  replace (A * 2 ^ (23 - Z.log2 A) * (B * 2 ^ (23 - Z.log2 B)))
    with (A * B * 2 ^ (46 - Z.log2 A - Z.log2 B)).
  2:{ replace (46 - Z.log2 A - Z.log2 B)
        with ((23 - Z.log2 A) + (23 - Z.log2 B)) by lia.
      rewrite Z.pow_add_r by lia. ring. }
  replace (Z.log2 A - 23 + s1 + (Z.log2 B - 23 + s2))
    with ((s1 + s2) - (46 - Z.log2 A - Z.log2 B)) by lia.
  apply round_aux_exact; lia.
Qed.

Lemma trunc_dyadic P : 0 <= P < 2 ^ 24 -> F32.trunc (F32.dyadic P (-14)) = P / 2 ^ 14.
Proof.
  intros HP. unfold F32.dyadic.
  destruct (Z.eqb_spec P 0) as [->|NP]; [reflexivity|].
  assert (LP : 0 <= Z.log2 P < 24).
  { split; [apply Z.log2_nonneg | apply Z.log2_lt_pow2; lia]. }
  destruct (Z.ltb_spec P 0); [lia|]. rewrite Z.abs_eq by lia.
  unfold F32.trunc.
  destruct (Z.leb_spec 0 (Z.log2 P - 23 + -14)); [lia|].
  assert (Hp : 0 < 2 ^ (23 - Z.log2 P)) by (apply Z.pow_pos_nonneg; lia).
  rewrite Z2Pos.id by nia.
  replace (- (Z.log2 P - 23 + -14)) with (14 + (23 - Z.log2 P)) by lia.
  rewrite Z.pow_add_r by lia.
  apply Z.div_mul_cancel_r; lia.
Qed.

(** The new alpha of a resolved colour, in integers. *)
Lemma newAlpha_exact A a :
  0 <= A < 2 ^ 8 ->
  F32.to_unsigned (F32.mul (F32.of_Z A) (SkColrV1AlphaToFloat a))
  = A * (a mod 2 ^ 16) / 2 ^ 14.
Proof.
  intros HA. unfold SkColrV1AlphaToFloat.
  assert (Ha : 0 <= a mod 2 ^ 16 < 2 ^ 16) by (apply Z.mod_pos_bound; lia).
  set (u := a mod 2 ^ 16) in *.
  rewrite div_2_14, of_Z_byte by lia.
  assert (Hprod : 0 <= A * u < 2 ^ 24) by nia.
  assert (Hmul : F32.mul (F32.dyadic A 0) (F32.dyadic u (-14))
                 = F32.dyadic (A * u) (-14)).
  { destruct (Z.eq_dec A 0) as [->|NA].
    - unfold F32.dyadic at 1. simpl (0 =? 0). cbv iota.
      rewrite Z.mul_0_l. unfold F32.dyadic.
      destruct (u =? 0); [reflexivity|].
      destruct (Z.ltb_spec u 0); [lia|]. reflexivity.
    - destruct (Z.eq_dec u 0) as [->|Nu].
      + rewrite Z.mul_0_r. unfold F32.dyadic.
        destruct (Z.eqb_spec A 0); [lia|].
        destruct (Z.ltb_spec A 0); [lia|]. reflexivity.
      + apply (mul_dyadic A u 0 (-14)); lia. }
  unfold F32.to_unsigned. rewrite Hmul, trunc_dyadic by lia.
  apply Z.mod_small. split.
  - apply Z.div_pos; lia.
  - apply Z.div_lt_upper_bound; lia.
Qed.

(** *** Subtraction of numbers of one scale *)







(** *** Products below one *)










End F32Facts.


(** ** binary32 on the coordinates of control points *)

Module F32Products.
Import F32Facts.

(** *** Numbers that are not NaN *)






(** A number that is not NaN equals itself. *)
Lemma eqb_refl (a : SkScalar) : F32.is_nan a = false -> F32.eqb a a = true.
Proof.
  unfold F32.eqb, SFeqb.
  destruct a as [[|]|[|]| |[|] m e]; try discriminate; intros _;
    try reflexivity; cbn [SFcompare];
    rewrite Z.compare_refl, Pos.compare_cont_refl; reflexivity.
Qed.



(** *** Coordinates of at most 24 bits *)






(** *** Products that round *)






End F32Products.

(** ** The stable sort *)

Section StableSortFacts.
Context {A : Type} (key : A -> Z).

Lemma stable_insert_perm a l :
  stable_insert (key_less key) a l ≡ₚ a :: l.
Proof.
  induction l as [|b l IH]; cbn [stable_insert]; [reflexivity|].
  destruct (key_less key b a); [|reflexivity].
  rewrite IH. apply Permutation_swap.
Qed.

Lemma stable_sort_perm l : stable_sort (key_less key) l ≡ₚ l.
Proof.
  induction l as [|a l IH]; cbn [stable_sort]; [reflexivity|].
  rewrite stable_insert_perm. by rewrite IH.
Qed.

Lemma stable_sort_length l :
  length (stable_sort (key_less key) l) = length l.
Proof. apply Permutation_length, stable_sort_perm. Qed.

Lemma stable_insert_sorted a l :
  StronglySorted (key_le key) l ->
  StronglySorted (key_le key) (stable_insert (key_less key) a l).
Proof.
  induction 1 as [|b l Hs IH Hb]; cbn [stable_insert].
  - repeat constructor.
  - unfold key_less at 1. destruct (Z.ltb_spec (key b) (key a)) as [Hlt|Hge].
    + constructor; [exact IH|].
      rewrite stable_insert_perm. constructor; [unfold key_le; lia | exact Hb].
    + constructor; [by constructor|].
      constructor; [exact Hge|].
      eapply Forall_impl; [exact Hb|]. unfold key_le. intros; simpl in *. lia.
Qed.

Lemma stable_sort_sorted l :
  StronglySorted (key_le key) (stable_sort (key_less key) l).
Proof.
  induction l as [|a l IH]; cbn [stable_sort]; [constructor|].
  by apply stable_insert_sorted.
Qed.

Lemma stable_insert_filter k a l :
  filter (fun b => key b = k) (stable_insert (key_less key) a l)
  = filter (fun b => key b = k) (a :: l).
Proof.
  induction l as [|b l IH]; cbn [stable_insert]; [reflexivity|].
  unfold key_less at 1. destruct (Z.ltb_spec (key b) (key a)) as [Hlt|Hge];
    [|reflexivity].
  rewrite filter_cons, IH, !filter_cons.
  repeat case_decide; try reflexivity; lia.
Qed.

(** Stability: the elements of one key keep their order. *)
Lemma stable_sort_filter k l :
  filter (fun b => key b = k) (stable_sort (key_less key) l)
  = filter (fun b => key b = k) l.
Proof.
  induction l as [|a l IH]; cbn [stable_sort]; [reflexivity|].
  rewrite stable_insert_filter, !filter_cons, IH. reflexivity.
Qed.

(** A comparison that agrees with the keys sorts the images as the keys
    sort the list. *)
Lemma stable_insert_map {B : Type} (f : A -> B) (lt : B -> B -> bool) a l :
  (forall b, b ∈ l -> lt (f b) (f a) = key_less key b a) ->
  stable_insert lt (f a) (f <$> l) = f <$> stable_insert (key_less key) a l.
Proof.
  induction l as [|b l IH]; intros Hlt; [reflexivity|].
  cbn [stable_insert fmap list_fmap]. rewrite Hlt by left.
  destruct (key_less key b a); [|reflexivity].
  cbn [fmap list_fmap]. f_equal. apply IH. intros c Hc. apply Hlt. by right.
Qed.

Lemma stable_sort_map {B : Type} (f : A -> B) (lt : B -> B -> bool) l :
  (forall a b, a ∈ l -> b ∈ l -> lt (f a) (f b) = key_less key a b) ->
  stable_sort lt (f <$> l) = f <$> stable_sort (key_less key) l.
Proof.
  induction l as [|a l IH]; intros Hlt; [reflexivity|].
  cbn [stable_sort fmap list_fmap].
  change (list_fmap A B f l) with (f <$> l).
  rewrite IH by (intros; apply Hlt; by right).
  apply stable_insert_map. intros b Hb. apply Hlt; [right|left].
  by rewrite <- (stable_sort_perm l).
Qed.
End StableSortFacts.


(** ** The colour-stop resolver *)

Section ResolverFacts.
Variable palette : list SkColor.
Variable foregroundColor : SkColor.

Lemma resolve_color_None c :
  resolve_color palette foregroundColor c = None <-> out_of_range palette c.
Proof.
  unfold resolve_color, out_of_range.
  destruct (Z.eqb_spec (palette_index c) kForegroundColorPaletteIndex);
    [split; [discriminate | tauto]|].
  destruct (Z.leb_spec (Z.of_nat (length palette)) (palette_index c));
    [tauto|].
  split; [discriminate | lia].
Qed.

Lemma resolve_color_Some c v :
  resolve_color palette foregroundColor c = Some v ->
  v = SkColorSetA (base_color palette foregroundColor c)
        (F32.to_unsigned
           (F32.mul (F32.of_Z (SkColorGetA (base_color palette foregroundColor c)))
                    (SkColrV1AlphaToFloat (alpha c)))).
Proof.
  unfold resolve_color, base_color.
  destruct (palette_index c =? kForegroundColorPaletteIndex); [congruence|].
  destruct (Z.of_nat (length palette) <=? palette_index c); congruence.
Qed.

(** The loop fills the slots from [current_color_stop] on, in the order
    of the iterator, and gives up at the first colour it cannot
    resolve. *)
Lemma fetch_loop_spec l : forall n k pre mid,
  length pre = k -> length mid = length l -> (length l <= n)%nat ->
  fetch_loop palette foregroundColor n
    {| num_color_stops := k + length l; current_color_stop := k;
       stop_data := l |} (pre ++ mid)
  = if decide (Forall (resolvable palette foregroundColor) l)
    then Some (pre ++ (resolved_stop palette foregroundColor <$> l))
    else None.
Proof.
  induction l as [|cs l IH]; intros n k pre mid Hpre Hmid Hn.
  - destruct mid; [|discriminate].
    rewrite decide_True by constructor.
    destruct n; cbn [fetch_loop]; unfold FT_Get_Colorline_Stops; simpl;
      rewrite Nat.add_0_r, Nat.leb_refl; reflexivity.
  - destruct n as [|n]; [simpl in Hn; lia|].
    destruct mid as [|m0 mid]; [discriminate|].
    cbn [fetch_loop]. unfold FT_Get_Colorline_Stops at 1.
    cbn [num_color_stops current_color_stop stop_data].
    destruct (Nat.leb_spec (k + length (cs :: l)) k) as [Hle|_];
      [simpl in Hle; lia|].
    cbn [current_color_stop]. rewrite Nat.sub_1_r, Nat.pred_succ.
    destruct (resolve_color palette foregroundColor (color cs)) as [c|] eqn:Hc.
    + replace (<[k:={| pos := F32.div (F32.of_Z (stop_offset cs))
                                   (F32.of_Z (Z.shiftl 1 14));
                       stop_color := c |}]> (pre ++ m0 :: mid))
        with ((pre ++ [resolved_stop palette foregroundColor cs]) ++ mid).
      2:{ rewrite <- Hpre. rewrite insert_app_r_alt by lia.
          rewrite Nat.sub_diag, <- app_assoc. cbn.
          unfold resolved_stop, resolved_color, stop_position.
          by rewrite Hc. }
      replace (k + length (cs :: l))%nat with (S k + length l)%nat
        by (simpl; lia).
      rewrite IH; [| rewrite length_app; simpl; lia
                   | simpl in Hmid; lia | simpl in Hn; lia].
      destruct (decide (Forall (resolvable palette foregroundColor) l)) as [Hall|Hnot].
      * rewrite decide_True by (constructor; [by rewrite Hc | exact Hall]).
        by rewrite <- app_assoc.
      * rewrite decide_False; [reflexivity|].
        intros Hall. apply Hnot. by inversion Hall.
    + rewrite decide_False; [reflexivity|].
      intros Hall. inversion Hall as [|? ? [? Hs] ?]; subst. congruence.
Qed.

Lemma ColorStop_less_resolved a b :
  - 2 ^ 15 <= stop_offset a < 2 ^ 15 ->
  - 2 ^ 15 <= stop_offset b < 2 ^ 15 ->
  ColorStop_less (resolved_stop palette foregroundColor a)
                 (resolved_stop palette foregroundColor b)
  = key_less stop_offset a b.
Proof.
  intros Ha Hb. unfold ColorStop_less, resolved_stop, stop_position. simpl pos.
  rewrite !F32Facts.div_2_14 by lia.
  unfold F32.ltb, SFltb. rewrite F32Facts.dyadic_compare by lia.
  reflexivity.
Qed.

Lemma stop_position_le a b :
  - 2 ^ 15 <= stop_offset a < 2 ^ 15 ->
  - 2 ^ 15 <= stop_offset b < 2 ^ 15 ->
  stop_offset a <= stop_offset b ->
  F32.leb (stop_position a) (stop_position b) = true.
Proof.
  intros Ha Hb Hab. unfold stop_position.
  rewrite !F32Facts.div_2_14 by lia.
  unfold F32.leb, SFleb. rewrite F32Facts.dyadic_compare by lia.
  destruct (Z.compare_spec (stop_offset a) (stop_offset b)); try reflexivity.
  lia.
Qed.

(** The resolver on a well-formed colour line. *)
Lemma fetchColorStops_spec it :
  colorline_wf it ->
  fetchColorStops palette foregroundColor it
  = if (num_color_stops it =? 0)%nat then None
    else if decide (Forall (resolvable palette foregroundColor) (stop_data it)) then
      let sorted := stable_sort (key_less stop_offset) (stop_data it) in
      Some (stop_position <$> sorted,
            resolved_color palette foregroundColor <$> sorted)
    else None.
Proof.
  intros (Hcur & Hlen & Hrange). unfold fetchColorStops.
  destruct (num_color_stops it =? 0)%nat; [reflexivity|].
  destruct it as [num cur l]; simpl in *. subst cur num.
  rewrite Nat.sub_0_r.
  pose proof (fetch_loop_spec l (length l) 0 []
                (replicate (length l) {| pos := F32.zero; stop_color := 0 |})
                eq_refl (length_replicate _ _) (Nat.le_refl _)) as Hloop.
  simpl in Hloop. rewrite Hloop. clear Hloop.
  destruct (decide (Forall (resolvable palette foregroundColor) l)); [|reflexivity].
  rewrite (stable_sort_map stop_offset).
  2:{ intros a b Ha Hb. rewrite Forall_forall in Hrange.
      apply ColorStop_less_resolved; by apply Hrange. }
  rewrite take_ge by (rewrite length_fmap, stable_sort_length; lia).
  rewrite <- !list_fmap_compose. reflexivity.
Qed.

Lemma SkColorGetA_mod c : SkColorGetA c = Z.shiftr c 24 mod 2 ^ 8.
Proof. unfold SkColorGetA. apply (Z.land_ones _ 8). lia. Qed.

Lemma SkColorGetA_range c : 0 <= SkColorGetA c < 2 ^ 8.
Proof. rewrite SkColorGetA_mod. apply Z.mod_pos_bound. lia. Qed.

Lemma SkColorGetA_SetA c a : SkColorGetA (SkColorSetA c a) = a mod 2 ^ 8.
Proof.
  rewrite SkColorGetA_mod. unfold SkColorSetA.
  rewrite Z.shiftr_lor.
  change 0x00FFFFFF with (Z.ones 24). rewrite Z.land_ones by lia.
  rewrite !Z.shiftr_div_pow2, Z.shiftl_mul_pow2 by lia.
  rewrite (Z.div_small (c mod 2 ^ 24)) by (apply Z.mod_pos_bound; lia).
  rewrite Z.lor_0_l.
  change (2 ^ 32) with (2 ^ 8 * 2 ^ 24).
  rewrite Z.mul_mod_distr_r, Z.div_mul by lia.
  apply Z.mod_mod. lia.
Qed.

Lemma SkColorSetA_rgb c a :
  Z.land (SkColorSetA c a) 0x00FFFFFF = Z.land c 0x00FFFFFF.
Proof.
  unfold SkColorSetA. change 0x00FFFFFF with (Z.ones 24).
  rewrite !Z.land_ones by lia.
  rewrite <- Z.land_ones, Z.land_lor_distr_l, !Z.land_ones by lia.
  rewrite Z.mod_mod by lia.
  rewrite Z.shiftl_mul_pow2 by lia.
  change (2 ^ 32) with (2 ^ 8 * 2 ^ 24).
  rewrite Z.mul_mod_distr_r by lia.
  rewrite Z.mod_mul by lia. apply Z.lor_0_r.
Qed.

(** The alpha of a resolved colour, in integers. *)
Lemma resolved_alpha c v :
  resolve_color palette foregroundColor c = Some v ->
  let base := base_color palette foregroundColor c in
  Z.land v 0x00FFFFFF = Z.land base 0x00FFFFFF /\
  SkColorGetA v = (SkColorGetA base * (alpha c mod 2 ^ 16) / 2 ^ 14) mod 2 ^ 8 /\
  (0 <= alpha c <= 2 ^ 14 ->
   SkColorGetA v = SkColorGetA base * alpha c / 2 ^ 14).
Proof.
  intros Hv base. apply resolve_color_Some in Hv. fold base in Hv. subst v.
  pose proof (SkColorGetA_range base) as HA.
  rewrite SkColorSetA_rgb, SkColorGetA_SetA, F32Facts.newAlpha_exact by lia.
  split; [reflexivity|]. split; [reflexivity|].
  intros Ha. rewrite (Z.mod_small (alpha c)) by lia.
  apply Z.mod_small. split.
  - apply Z.div_pos; nia.
  - apply Z.div_lt_upper_bound; nia.
Qed.
End ResolverFacts.

(** ** The claims on the colour-stop resolver *)

(** C4. On a colour line as FreeType hands it out, the stops that
    [fetchColorStops] returns are in non-decreasing order of position, and
    they are the stops of the line rearranged so that, for every offset,
    the stops of that offset come in the order they had on the line: the
    sort is stable. *)
Theorem fetchColorStops_sorted_stable
    (palette : list SkColor) (foregroundColor : SkColor)
    (it : FT_ColorStopIterator) (stops : list SkScalar) (colors : list SkColor) :
  colorline_wf it ->
  fetchColorStops palette foregroundColor it = Some (stops, colors) ->
  StronglySorted (fun a b => F32.leb a b = true) stops /\
  exists sorted : list FT_ColorStop,
    sorted ≡ₚ stop_data it /\
    stops = stop_position <$> sorted /\
    colors = resolved_color palette foregroundColor <$> sorted /\
    StronglySorted (key_le stop_offset) sorted /\
    forall o : Z,
      filter (fun cs => stop_offset cs = o) sorted
      = filter (fun cs => stop_offset cs = o) (stop_data it).
Proof.
  intros Hwf Hfetch. rewrite fetchColorStops_spec in Hfetch by assumption.
  destruct (num_color_stops it =? 0)%nat; [discriminate|].
  destruct (decide _); [|discriminate].
  cbv zeta in Hfetch. injection Hfetch as <- <-.
  destruct Hwf as (_ & _ & Hrange).
  set (sorted := stable_sort (key_less stop_offset) (stop_data it)).
  assert (Hperm : sorted ≡ₚ stop_data it) by apply stable_sort_perm.
  assert (Hsorted : StronglySorted (key_le stop_offset) sorted)
    by apply stable_sort_sorted.
  split.
  - assert (Hr : Forall (fun cs => - 2 ^ 15 <= stop_offset cs < 2 ^ 15) sorted).
    { rewrite Hperm. eapply Forall_impl; [exact Hrange|]. by intros ? [? ?]. }
    clear Hperm. induction Hsorted as [|a l Hl IH Ha]; [constructor|].
    apply Forall_cons in Hr as [Hra Hrl].
    cbn [fmap list_fmap]. constructor; [by apply IH|].
    apply Forall_fmap. rewrite Forall_forall in Ha, Hrl |- *.
    intros b Hb. apply stop_position_le; auto. by apply Ha.
  - exists sorted. repeat split; try done.
    intros o. apply stable_sort_filter.
Qed.

Lemma fetchColorStops_sorted_stable_witness :
  let it := Sample.iterator Sample.three_stops in
  let stops := stop_position <$>
                 [Sample.stop 0 0xFFFF 8192; Sample.stop 16384 0 16384;
                  Sample.stop 16384 1 16384] in
  let colors := [0x7F0000FF; 0xFFFF0000; 0x8000FF00] in
  colorline_wf it /\
  fetchColorStops Sample.palette Sample.foreground it = Some (stops, colors) /\
  StronglySorted (fun a b => F32.leb a b = true) stops /\
  exists sorted : list FT_ColorStop,
    sorted ≡ₚ stop_data it /\
    stops = stop_position <$> sorted /\
    colors = resolved_color Sample.palette Sample.foreground <$> sorted /\
    StronglySorted (key_le stop_offset) sorted /\
    forall o : Z,
      filter (fun cs => stop_offset cs = o) sorted
      = filter (fun cs => stop_offset cs = o) (stop_data it).
Proof.
  intros it stops colors.
  assert (Hwf : colorline_wf it) by solve_colorline_wf.
  assert (Hfetch : fetchColorStops Sample.palette Sample.foreground it
                   = Some (stops, colors)) by (vm_compute; reflexivity).
  split; [exact Hwf|]. split; [exact Hfetch|].
  exact (fetchColorStops_sorted_stable Sample.palette Sample.foreground it
           stops colors Hwf Hfetch).
Defined.

(** C5. On a colour line as FreeType hands it out, [fetchColorStops] fails
    exactly when the line has no stop or one of its stops has a palette
    index that is neither the foreground index 0xFFFF nor an index of the
    palette.  When it succeeds, the colours it returns are those of the
    stops of the line, each with the red, green and blue of its base
    colour (the foreground colour for the reserved index, the palette
    entry otherwise) and with the alpha of the base colour times the alpha
    of the stop, a 2.14 fraction; the product is cut to an integer, and to
    eight bits if the fraction is above one. *)
Theorem fetchColorStops_failure_and_alpha
    (palette : list SkColor) (foregroundColor : SkColor)
    (it : FT_ColorStopIterator) :
  colorline_wf it ->
  (fetchColorStops palette foregroundColor it = None <->
   num_color_stops it = 0%nat \/
   Exists (fun cs => out_of_range palette (color cs)) (stop_data it)) /\
  forall stops colors,
    fetchColorStops palette foregroundColor it = Some (stops, colors) ->
    exists sorted : list FT_ColorStop,
      sorted ≡ₚ stop_data it /\
      Forall2 (fun cs v =>
                 let base := base_color palette foregroundColor (color cs) in
                 let a := alpha (color cs) in
                 resolve_color palette foregroundColor (color cs) = Some v /\
                 Z.land v 0x00FFFFFF = Z.land base 0x00FFFFFF /\
                 SkColorGetA v
                 = (SkColorGetA base * (a mod 2 ^ 16) / 2 ^ 14) mod 2 ^ 8 /\
                 (0 <= a <= 2 ^ 14 ->
                  SkColorGetA v = SkColorGetA base * a / 2 ^ 14))
              sorted colors.
Proof.
  intros Hwf. rewrite fetchColorStops_spec by assumption.
  destruct (Nat.eqb_spec (num_color_stops it) 0) as [Hz|Hnz].
  { split; [tauto | discriminate]. }
  destruct (decide _) as [Hall|Hnot].
  - split.
    + split; [discriminate|]. intros [?|Hex]; [done|].
      exfalso. rewrite Forall_forall in Hall. apply Exists_exists in Hex.
      destruct Hex as (cs & Hin & Hout).
      pose proof (proj2 (resolve_color_None palette foregroundColor _) Hout).
      destruct (Hall cs Hin) as [v Hv]. congruence.
    + intros stops colors [= <- <-].
      exists (stable_sort (key_less stop_offset) (stop_data it)).
      split; [apply stable_sort_perm|].
      apply Forall2_fmap_r, Forall_Forall2_diag.
      rewrite stable_sort_perm. eapply Forall_impl; [exact Hall|].
      intros cs [v Hv]. unfold compose, resolved_color. cbv beta zeta.
      rewrite Hv. cbn [default from_option].
      split; [reflexivity|]. by apply resolved_alpha.
  - split; [|discriminate].
    split; [|done]. intros _. right.
    apply not_Forall_Exists in Hnot; [|intros cs; apply _].
    eapply Exists_impl; [exact Hnot|].
    intros cs Hcs. apply (resolve_color_None palette foregroundColor).
    destruct (resolve_color palette foregroundColor (color cs)) eqn:E;
      [|reflexivity].
    exfalso. apply Hcs. rewrite E. eauto.
Qed.

Lemma fetchColorStops_failure_and_alpha_witness :
  let it := Sample.iterator Sample.three_stops in
  colorline_wf it /\
  (fetchColorStops Sample.palette Sample.foreground it = None <->
   num_color_stops it = 0%nat \/
   Exists (fun cs => out_of_range Sample.palette (color cs)) (stop_data it)) /\
  forall stops colors,
    fetchColorStops Sample.palette Sample.foreground it = Some (stops, colors) ->
    exists sorted : list FT_ColorStop,
      sorted ≡ₚ stop_data it /\
      Forall2 (fun cs v =>
                 let base := base_color Sample.palette Sample.foreground (color cs) in
                 let a := alpha (color cs) in
                 resolve_color Sample.palette Sample.foreground (color cs) = Some v /\
                 Z.land v 0x00FFFFFF = Z.land base 0x00FFFFFF /\
                 SkColorGetA v
                 = (SkColorGetA base * (a mod 2 ^ 16) / 2 ^ 14) mod 2 ^ 8 /\
                 (0 <= a <= 2 ^ 14 ->
                  SkColorGetA v = SkColorGetA base * a / 2 ^ 14))
              sorted colors.
Proof.
  intros it.
  assert (Hwf : colorline_wf it) by solve_colorline_wf.
  split; [exact Hwf|].
  exact (fetchColorStops_failure_and_alpha Sample.palette Sample.foreground
           it Hwf).
Defined.

(** ** The claims on the paint configuration *)

Section ConfigureFacts.
Context `{SkMath}.
Variable palette : list SkColor.
Variable foregroundColor : SkColor.

Lemma fetchColorStops_lengths it stops colors :
  fetchColorStops palette foregroundColor it = Some (stops, colors) -> length stops = length colors.
Proof.
  unfold fetchColorStops. destruct (_ =? _)%nat; [discriminate|].
  destruct (fetch_loop _ _ _ _ _); [|discriminate].
  intros [= <- <-]. by rewrite !length_fmap.
Qed.

Lemma single_stop_colors it stops colors :
  fetchColorStops palette foregroundColor it = Some (stops, colors) -> length stops = 1%nat ->
  colors = [first_color colors].
Proof.
  intros Hf Hl. apply fetchColorStops_lengths in Hf. rewrite Hl in Hf.
  destruct colors as [|c [|? ?]]; try discriminate. reflexivity.
Qed.

(** A gradient that only sets the colour of the paint is configured and
    drawn as a flat fill of that colour. *)
Lemma sets_color_flat_fill (colrPaint : FT_COLR_Paint)
    (colorline : FT_ColorLine) (c : SkColor) :
  gradient_colorline colrPaint = Some colorline ->
  (forall paint,
     colrv1_configure_skpaint palette foregroundColor colrPaint paint
     = (true, setColor c paint)) ->
  configures_flat_fill palette foregroundColor colrPaint c.
Proof.
  intros Hgrad Hconf. split; [|split].
  - intros paint. exists (setColor c paint).
    split; [apply Hconf | repeat split; reflexivity].
  - intros face canvas.
    destruct colrPaint; try discriminate Hgrad;
      cbn [colrv1_draw_paint]; rewrite Hconf; reflexivity.
  - intros solid Hsolid face canvas glyphPaint. split.
    + destruct colrPaint; try discriminate Hgrad;
        cbn [colrv1_draw_paint]; rewrite Hconf;
        cbn [colrv1_configure_skpaint]; rewrite Hsolid; reflexivity.
    + unfold colrv1_draw_glyph_with_path. rewrite Hconf.
      cbn [colrv1_configure_skpaint]. rewrite Hsolid. reflexivity.
Qed.

(** C6. When the colour line of a linear, radial or sweep gradient
    resolves to exactly one stop, the gradient is a flat fill of the
    colour of that stop: on every paint [colrv1_configure_skpaint]
    succeeds, makes this colour the colour of the paint and attaches no
    shader, and both callers draw exactly what they draw for a solid
    fill of this colour. *)
Theorem single_stop_gradient_is_flat_fill
    (colrPaint : FT_COLR_Paint) (colorline : FT_ColorLine)
    (stops : list SkScalar) (colors : list SkColor) :
  gradient_colorline colrPaint = Some colorline ->
  fetchColorStops palette foregroundColor (color_stop_iterator colorline)
  = Some (stops, colors) ->
  length stops = 1%nat ->
  exists c : SkColor,
    colors = [c] /\
    configures_flat_fill palette foregroundColor colrPaint c.
Proof.
  intros Hgrad Hfetch Hlen. exists (first_color colors).
  split; [exact (single_stop_colors _ _ _ Hfetch Hlen)|].
  apply (sets_color_flat_fill colrPaint colorline); [exact Hgrad|].
  intros paint.
  destruct colrPaint; try discriminate; injection Hgrad as ->;
    cbn [colrv1_configure_skpaint]; rewrite Hfetch, Hlen; reflexivity.
Qed.



(** C10. When [colrv1_configure_skpaint] returns false, the paint is as
    it was: neither its colour nor its shader has been set. *)
Theorem configure_failure_leaves_paint
    (colrPaint : FT_COLR_Paint) (paint : SkPaint) :
  (colrv1_configure_skpaint palette foregroundColor colrPaint paint).1 = false ->
  (colrv1_configure_skpaint palette foregroundColor colrPaint paint).2 = paint.
Proof.
  destruct colrPaint; cbn [colrv1_configure_skpaint]; try reflexivity.
  - destruct (resolve_color _ _ _); [discriminate | reflexivity].
  - destruct (fetchColorStops _ _ _) as [[stops colors]|]; [|reflexivity].
    destruct (_ =? _)%nat; [discriminate|].
    destruct (linear_degenerate _ _ _); [discriminate|].
    destruct (linear_positions _ _ _ _). discriminate.
  - destruct (fetchColorStops _ _ _) as [[stops colors]|]; [|reflexivity].
    destruct (_ =? _)%nat; discriminate.
  - destruct (fetchColorStops _ _ _) as [[stops colors]|]; [|reflexivity].
    destruct (_ =? _)%nat; discriminate.
Qed.

(** What the failures are: a solid paint with an index out of range, a
    gradient whose colour line does not resolve, or a paint that is no
    fill. *)
Lemma configure_failure_cases (colrPaint : FT_COLR_Paint) (paint : SkPaint) :
  (colrv1_configure_skpaint palette foregroundColor colrPaint paint).1 = false <->
  match colrPaint with
  | PaintSolid solid => resolve_color palette foregroundColor solid = None
  | PaintLinearGradient colorline _ _ _
  | PaintRadialGradient colorline _ _ _ _
  | PaintSweepGradient colorline _ _ _ =>
      fetchColorStops palette foregroundColor (color_stop_iterator colorline) = None
  | _ => True
  end.
Proof.
  destruct colrPaint; cbn [colrv1_configure_skpaint]; try (simpl; tauto).
  - destruct (resolve_color _ _ _); simpl; split; congruence.
  - destruct (fetchColorStops _ _ _) as [[stops colors]|]; [|simpl; tauto].
    destruct (_ =? _)%nat; [simpl; split; congruence|].
    destruct (linear_degenerate _ _ _); [simpl; split; congruence|].
    destruct (linear_positions _ _ _ _). simpl; split; congruence.
  - destruct (fetchColorStops _ _ _) as [[stops colors]|]; [|simpl; tauto].
    destruct (_ =? _)%nat; simpl; split; congruence.
  - destruct (fetchColorStops _ _ _) as [[stops colors]|]; [|simpl; tauto].
    destruct (_ =? _)%nat; simpl; split; congruence.
Qed.
End ConfigureFacts.

Lemma single_stop_gradient_is_flat_fill_witness :
  let colorline := Sample.line [Sample.stop 8192 1 16384] in
  let colrPaint :=
    PaintSweepGradient colorline (Sample.vec 0 0) 0 65536 in
  gradient_colorline colrPaint = Some colorline /\
  exists c : SkColor,
    [0x8000FF00] = [c] /\
    @configures_flat_fill Sample.math Sample.palette Sample.foreground
      colrPaint c.
Proof.
  intros colorline colrPaint. split; [reflexivity|].
  apply (@single_stop_gradient_is_flat_fill Sample.math Sample.palette
           Sample.foreground colrPaint colorline
           [stop_position (Sample.stop 8192 1 16384)] [0x8000FF00]).
  - reflexivity.
  - vm_compute. reflexivity.
  - reflexivity.
Defined.



Lemma configure_failure_leaves_paint_witness :
  let colrPaint := PaintSolid {| palette_index := 99; alpha := 16384 |} in
  (@colrv1_configure_skpaint Sample.math Sample.palette Sample.foreground
     colrPaint SkPaint_default).1 = false /\
  (@colrv1_configure_skpaint Sample.math Sample.palette Sample.foreground
     colrPaint SkPaint_default).2 = SkPaint_default.
Proof.
  intros colrPaint.
  assert (Hfail :
    (@colrv1_configure_skpaint Sample.math Sample.palette Sample.foreground
       colrPaint SkPaint_default).1 = false) by reflexivity.
  split; [exact Hfail|].
  exact (@configure_failure_leaves_paint Sample.math Sample.palette
           Sample.foreground colrPaint SkPaint_default Hfail).
Defined.

(** ** The rescaling of the stops of a linear gradient *)

(** A finite number minus itself is +0. *)
Lemma F32_sub_diag (s : SkScalar) :
  F32.is_finite s = true -> F32.sub s s = F32.zero.
Proof.
  destruct s as [[|]|[|]| |sg m e]; try discriminate; intros _;
    try reflexivity.
  unfold F32.sub, SFsub, shl_align.
  rewrite Z.min_id, !Z.sub_diag. reflexivity.
Qed.

(** When the first and the last stop of the sorted colour line have the
    same finite position, the scale factor is 1 / 0 = +infinity and every
    stop at that position is rescaled to 0 * infinity, which is NaN. *)
Lemma rescale_stops_zero_span (stops : list SkScalar) (s : SkScalar) :
  F32.is_finite s = true ->
  front stops = s -> back stops = s ->
  forall i, stops !! i = Some s -> rescale_stops stops !! i = Some S754_nan.
Proof.
  intros Hfin Hfront Hback i Hi. unfold rescale_stops.
  rewrite list_lookup_fmap, Hi, Hfront, Hback. cbn [fmap option_fmap option_map].
  rewrite F32_sub_diag by assumption. reflexivity.
Qed.

(** A colour line with two stops at offset 0.5 and control points that
    are not degenerate: the paint gets a linear shader whose stop
    positions are both NaN. *)
Lemma linear_gradient_equal_offsets `{SkMath} :
  let colorline :=
    Sample.line [Sample.stop 8192 0 16384; Sample.stop 8192 0xFFFF 16384] in
  let colrPaint :=
    PaintLinearGradient colorline (Sample.vec 0 0) (Sample.vec 65536 0)
                        (Sample.vec 0 65536) in
  exists pts0 pts1 : SkPoint,
    colrv1_configure_skpaint Sample.palette Sample.foreground colrPaint
                             SkPaint_default
    = (true,
       setShader (Some (MakeLinear pts0 pts1 [0xFFFF0000; 0xFF0000FF]
                                   [S754_nan; S754_nan] kClamp))
                 (setColor SK_ColorBLACK SkPaint_default)).
Proof.
  intros colorline colrPaint. unfold colrPaint.
  cbn [colrv1_configure_skpaint].
  assert (Hfetch :
    fetchColorStops Sample.palette Sample.foreground
                    (color_stop_iterator colorline)
    = Some ([S754_finite false 8388608 (-24); S754_finite false 8388608 (-24)],
            [0xFFFF0000; 0xFF0000FF])) by (vm_compute; reflexivity).
  rewrite Hfetch. cbn [length Nat.eqb].
  assert (Hdeg :
    linear_degenerate (ToSkPoint (Sample.vec 0 0)) (ToSkPoint (Sample.vec 65536 0))
                      (ToSkPoint (Sample.vec 0 65536)) = false)
    by (vm_compute; reflexivity).
  rewrite Hdeg.
  destruct (linear_positions _ _ _ _) as [pts0 pts1].
  exists pts0, pts1. reflexivity.
Qed.







(** ** The A8 to A1 packing *)

Lemma convert_8_to_1_cutoff (a : Z) :
  0 <= a -> convert_8_to_1 a = if 0x40 <=? a then 1 else 0.
Proof.
  intros Ha. unfold convert_8_to_1. rewrite Z.shiftr_div_pow2 by lia.
  destruct (Z.leb_spec 0x40 a) as [Hge|Hlt].
  - assert (1 <= a / 2 ^ 6) by (apply Z.div_le_lower_bound; lia).
    destruct (Z.eqb_spec (a / 2 ^ 6) 0); [lia | reflexivity].
  - rewrite Z.div_small by lia. reflexivity.
Qed.

Lemma convert_8_to_1_bit (a : Z) : convert_8_to_1 a = 0 \/ convert_8_to_1 a = 1.
Proof. unfold convert_8_to_1. destruct (_ =? _); auto. Qed.

(** The byte of [pack_8_to_1] has the bit of [alpha[i]] at position
    [7 - i]. *)
Lemma pack_8_to_1_testbit (alpha : list Z) (i : nat) :
  (i < 8)%nat ->
  Z.testbit (pack_8_to_1 alpha) (7 - Z.of_nat i)
  = (convert_8_to_1 (alpha !!! i) =? 1).
Proof.
  intros Hi. unfold pack_8_to_1. cbn [pack_8_to_1_loop].
  destruct (convert_8_to_1_bit (alpha !!! 0%nat)) as [E0|E0];
  destruct (convert_8_to_1_bit (alpha !!! 1%nat)) as [E1|E1];
  destruct (convert_8_to_1_bit (alpha !!! 2%nat)) as [E2|E2];
  destruct (convert_8_to_1_bit (alpha !!! 3%nat)) as [E3|E3];
  destruct (convert_8_to_1_bit (alpha !!! 4%nat)) as [E4|E4];
  destruct (convert_8_to_1_bit (alpha !!! 5%nat)) as [E5|E5];
  destruct (convert_8_to_1_bit (alpha !!! 6%nat)) as [E6|E6];
  destruct (convert_8_to_1_bit (alpha !!! 7%nat)) as [E7|E7];
  rewrite E0, E1, E2, E3, E4, E5, E6, E7;
  do 8 (destruct i as [|i]; [rewrite ?E0, ?E1, ?E2, ?E3, ?E4, ?E5, ?E6, ?E7;
                             reflexivity|]);
  lia.
Qed.

(** *** The buffers *)

Lemma load_store_eq buf off v :
  0 <= off < Z.of_nat (length buf) -> load (store buf off v) off = v.
Proof.
  intros Hoff. unfold load, store.
  destruct (Z.leb_spec 0 off); [|lia].
  apply list_lookup_total_insert_eq. lia.
Qed.

Lemma load_store_ne buf off k v :
  k <> off -> load (store buf off v) k = load buf k.
Proof.
  intros Hne. unfold load, store.
  destruct (Z.leb_spec 0 k); [|reflexivity].
  destruct (Z.leb_spec 0 off); [|reflexivity].
  apply list_lookup_total_insert_ne. lia.
Qed.

Lemma length_store buf off v : length (store buf off v) = length buf.
Proof. unfold store. destruct (0 <=? off); [apply length_insert | reflexivity]. Qed.

Lemma load_drop src s i :
  0 <= s -> drop (Z.to_nat s) src !!! i = load src (s + Z.of_nat i).
Proof.
  intros Hs. unfold load. destruct (Z.leb_spec 0 (s + Z.of_nat i)); [|lia].
  rewrite lookup_total_drop. f_equal. lia.
Qed.

(** *** The loop over the whole octets of a row *)

Lemma pack_octs_spec src n : forall st,
  0 <= srcOff st -> 0 <= dstOff st ->
  dstOff st + Z.of_nat n <= Z.of_nat (length (dstBuf st)) ->
  let st' := pack_octs n src st in
  srcOff st' = srcOff st + 8 * Z.of_nat n /\
  dstOff st' = dstOff st + Z.of_nat n /\
  length (dstBuf st') = length (dstBuf st) /\
  (forall j, 0 <= j < Z.of_nat n ->
     load (dstBuf st') (dstOff st + j)
     = pack_8_to_1 (drop (Z.to_nat (srcOff st + 8 * j)) src)) /\
  (forall k, ~ (dstOff st <= k < dstOff st + Z.of_nat n) ->
     load (dstBuf st') k = load (dstBuf st) k).
Proof.
  induction n as [|n IH]; intros st Hs Hd Hlen; cbn [pack_octs].
  - repeat split; lia.
  - cbv zeta.
    match goal with
    | |- context [pack_octs n src ?s] => set (st1 := s)
    end.
    destruct (IH st1) as (Es & Ed & El & Hin & Hout); subst st1;
      cbn [srcOff dstOff dstBuf] in *;
      try rewrite length_store in *; try lia.
    repeat split; try lia.
    + intros j Hj. destruct (Z.eq_dec j 0) as [->|Hj0].
      * rewrite Z.add_0_r, Hout by lia.
        rewrite load_store_eq by lia. do 2 f_equal. lia.
      * replace (dstOff st + j) with (dstOff st + 1 + (j - 1)) by lia.
        rewrite Hin by lia. do 2 f_equal. lia.
    + intros k Hk. rewrite Hout by lia. apply load_store_ne. lia.
Qed.

(** *** The loop over the left-over bits of a row *)

Lemma testbit_shiftl_bit c shift b :
  0 <= shift -> 0 <= b -> c = 0 \/ c = 1 ->
  Z.testbit (Z.shiftl c shift) b = (b =? shift) && (c =? 1).
Proof.
  intros Hshift Hb Hc. rewrite Z.shiftl_spec by assumption.
  destruct (Z.eqb_spec b shift) as [->|Hne].
  - rewrite Z.sub_diag. by destruct Hc as [-> | ->].
  - destruct Hc as [-> | ->]; [apply Z.testbit_0_l|].
    destruct (Z_lt_dec b shift).
    + apply Z.testbit_neg_r. lia.
    + replace (b - shift) with (Z.succ (b - shift - 1)) by lia.
      change 1 with (2 * 0 + 1) at 1.
      rewrite Z.testbit_odd_succ by lia. apply Z.testbit_0_l.
Qed.

(** The bits the loop sets: bit [b] for the sample at distance
    [shift - b], for the [n] positions below and at [shift]. *)
Lemma pack_leftover_spec src n : forall s shift bits,
  Z.of_nat n <= shift + 1 ->
  exists bits',
    pack_leftover n src s shift bits = (s + Z.of_nat n, bits') /\
    forall b, 0 <= b ->
      Z.testbit bits' b
      = Z.testbit bits b
        || ((shift - Z.of_nat n <? b) && (b <=? shift)
            && (convert_8_to_1 (load src (s + (shift - b))) =? 1)).
Proof.
  induction n as [|n IH]; intros s shift bits Hn; cbn [pack_leftover].
  - exists bits. split; [f_equal; lia|]. intros b Hb.
    destruct (Z.ltb_spec (shift - Z.of_nat 0) b), (Z.leb_spec b shift);
      try lia; cbn; by rewrite orb_false_r.
  - destruct (IH (s + 1) (shift - 1)
                (Z.lor bits (Z.shiftl (convert_8_to_1 (load src s)) shift)))
      as (bits' & Erun & Hbits); [lia|].
    exists bits'. split; [rewrite Erun; f_equal; lia|].
    intros b Hb. rewrite Hbits, Z.lor_spec by assumption.
    rewrite testbit_shiftl_bit by (try apply convert_8_to_1_bit; lia).
    replace (s + 1 + (shift - 1 - b)) with (s + (shift - b)) by lia.
    destruct (Z.eqb_spec b shift) as [->|Hne].
    + rewrite Z.sub_diag, Z.add_0_r.
      destruct (Z.ltb_spec (shift - 1 - Z.of_nat n) shift),
               (Z.leb_spec shift (shift - 1)),
               (Z.ltb_spec (shift - Z.of_nat (S n)) shift),
               (Z.leb_spec shift shift); try lia.
      cbn. by rewrite orb_false_r.
    + cbn [andb]. rewrite orb_false_r.
      destruct (Z.ltb_spec (shift - 1 - Z.of_nat n) b),
               (Z.leb_spec b (shift - 1)),
               (Z.ltb_spec (shift - Z.of_nat (S n)) b),
               (Z.leb_spec b shift); try lia; reflexivity.
Qed.

(** *** A row, and the rows *)

Lemma convert_8_to_1_eqb (a : Z) :
  0 <= a -> (convert_8_to_1 a =? 1) = (0x40 <=? a).
Proof.
  intros Ha. rewrite convert_8_to_1_cutoff by assumption.
  by destruct (0x40 <=? a).
Qed.

Lemma pack_row_spec src octs leftOverBits srcPad dstPad st :
  0 <= octs -> 0 <= leftOverBits < 8 ->
  0 <= srcOff st -> 0 <= dstOff st ->
  dstOff st + row_bytes octs leftOverBits <= Z.of_nat (length (dstBuf st)) ->
  (forall k, 0 <= load src k) ->
  let st' := pack_row octs leftOverBits srcPad dstPad src st in
  srcOff st' = srcOff st + (8 * octs + leftOverBits) + srcPad /\
  dstOff st' = dstOff st + row_bytes octs leftOverBits + dstPad /\
  length (dstBuf st') = length (dstBuf st) /\
  (forall x, 0 <= x < 8 * octs + leftOverBits ->
     Z.testbit (load (dstBuf st') (dstOff st + x / 8)) (7 - x mod 8)
     = (0x40 <=? load src (srcOff st + x))) /\
  (forall k, ~ (dstOff st <= k < dstOff st + row_bytes octs leftOverBits) ->
     load (dstBuf st') k = load (dstBuf st) k).
Proof.
  intros Hocts Hleft Hs Hd Hlen Hsrc. unfold row_bytes in *.
  destruct (pack_octs_spec src (Z.to_nat octs) st Hs Hd)
    as (Es & Ed & El & Hin & Hout).
  { destruct (0 <? leftOverBits); lia. }
  unfold pack_row. set (st1 := pack_octs (Z.to_nat octs) src st) in *.
  rewrite Z2Nat.id in * by lia.
  assert (Hwhole : forall x, 0 <= x < 8 * octs ->
            Z.testbit (load (dstBuf st1) (dstOff st + x / 8)) (7 - x mod 8)
            = (0x40 <=? load src (srcOff st + x))).
  { intros x Hx.
    rewrite Hin by (Z.to_euclidean_division_equations; lia).
    replace (7 - x mod 8) with (7 - Z.of_nat (Z.to_nat (x mod 8)))
      by (Z.to_euclidean_division_equations; lia).
    rewrite pack_8_to_1_testbit by (Z.to_euclidean_division_equations; lia).
    rewrite load_drop by (Z.to_euclidean_division_equations; lia).
    rewrite convert_8_to_1_eqb by apply Hsrc.
    do 2 f_equal. Z.to_euclidean_division_equations; lia. }
  destruct (Z.ltb_spec 0 leftOverBits) as [Hpos|Hzero].
  - destruct (pack_leftover_spec src (Z.to_nat leftOverBits) (srcOff st1) 7 0)
      as (bits & Erun & Hbits); [lia|].
    rewrite Erun. cbn [srcOff dstOff dstBuf]. rewrite length_store.
    repeat split; try lia.
    + intros x Hx. destruct (Z_lt_dec x (8 * octs)) as [Hlow|Hhigh].
      * rewrite load_store_ne by (Z.to_euclidean_division_equations; lia).
        apply Hwhole. lia.
      * replace (dstOff st + x / 8) with (dstOff st1)
          by (Z.to_euclidean_division_equations; lia).
        rewrite load_store_eq by lia.
        unfold SkToU8.
        rewrite Z.mod_pow2_bits_low by (Z.to_euclidean_division_equations; lia).
        rewrite Hbits by (Z.to_euclidean_division_equations; lia).
        rewrite Z.testbit_0_l, orb_false_l.
        rewrite convert_8_to_1_eqb by apply Hsrc.
        replace (srcOff st1 + (7 - (7 - x mod 8))) with (srcOff st + x)
          by (Z.to_euclidean_division_equations; lia).
        destruct (Z.ltb_spec (7 - Z.of_nat (Z.to_nat leftOverBits))
                             (7 - x mod 8)),
                 (Z.leb_spec (7 - x mod 8) 7);
          try reflexivity; Z.to_euclidean_division_equations; lia.
    + intros k Hk. rewrite load_store_ne by lia. apply Hout. lia.
  - cbn [srcOff dstOff dstBuf].
    repeat split; try lia.
    + intros x Hx. apply Hwhole. lia.
    + intros k Hk. apply Hout. lia.
Qed.

Lemma pack_rows_spec src octs leftOverBits srcPad dstPad height : forall st,
  0 <= octs -> 0 <= leftOverBits < 8 -> 0 <= srcPad -> 0 <= dstPad ->
  0 <= srcOff st -> 0 <= dstOff st ->
  dstOff st + Z.of_nat height * (row_bytes octs leftOverBits + dstPad)
  <= Z.of_nat (length (dstBuf st)) ->
  (forall k, 0 <= load src k) ->
  let st' := pack_rows height octs leftOverBits srcPad dstPad src st in
  length (dstBuf st') = length (dstBuf st) /\
  (forall row x, 0 <= row < Z.of_nat height ->
     0 <= x < 8 * octs + leftOverBits ->
     Z.testbit
       (load (dstBuf st')
             (dstOff st + row * (row_bytes octs leftOverBits + dstPad) + x / 8))
       (7 - x mod 8)
     = (0x40 <=? load src (srcOff st
                           + row * (8 * octs + leftOverBits + srcPad) + x))) /\
  (forall k, k < dstOff st -> load (dstBuf st') k = load (dstBuf st) k).
Proof.
  induction height as [|height IH];
    intros st Hocts Hleft HsrcPad HdstPad Hs Hd Hlen Hsrc; cbn [pack_rows].
  - repeat split; lia.
  - assert (Hbytes : 0 <= row_bytes octs leftOverBits)
      by (unfold row_bytes; destruct (0 <? leftOverBits); lia).
    destruct (pack_row_spec src octs leftOverBits srcPad dstPad st)
      as (Es & Ed & El & Hrow & Hout); try assumption; [nia|].
    set (st1 := pack_row octs leftOverBits srcPad dstPad src st) in *.
    assert (Hlen1 : dstOff st1
                    + Z.of_nat height * (row_bytes octs leftOverBits + dstPad)
                    <= Z.of_nat (length (dstBuf st1)))
      by (rewrite El, Ed; nia).
    destruct (IH st1) as (El' & Hrows & Hbelow); try assumption; try lia.
    cbv zeta. split; [congruence|]. split.
    + intros row x Hr Hx. destruct (Z.eq_dec row 0) as [->|Hr0].
      * rewrite Z.mul_0_l, !Z.add_0_r.
        rewrite Hbelow.
        -- by apply Hrow.
        -- unfold row_bytes in *. destruct (Z.ltb_spec 0 leftOverBits);
             Z.to_euclidean_division_equations; lia.
      * specialize (Hrows (row - 1) x).
        rewrite Ed, Es in Hrows.
        replace (dstOff st + row * (row_bytes octs leftOverBits + dstPad) + x / 8)
          with (dstOff st + row_bytes octs leftOverBits + dstPad
                + (row - 1) * (row_bytes octs leftOverBits + dstPad) + x / 8)
          by ring.
        replace (srcOff st + row * (8 * octs + leftOverBits + srcPad) + x)
          with (srcOff st + (8 * octs + leftOverBits) + srcPad
                + (row - 1) * (8 * octs + leftOverBits + srcPad) + x)
          by ring.
        apply Hrows; lia.
    + intros k Hk. rewrite Hbelow by lia. apply Hout. lia.
Qed.

Lemma SkAlign8_bytes (width : Z) :
  0 <= width ->
  SkAlign8 width / 8 = row_bytes (Z.shiftr width 3) (Z.land width 7).
Proof.
  intros Hw. unfold SkAlign8, row_bytes.
  change 7 with (Z.ones 3) at 2. rewrite Z.land_ones by lia.
  rewrite !Z.shiftr_div_pow2, Z.shiftl_mul_pow2 by lia.
  rewrite Z.div_mul by lia. change (2 ^ 3) with 8.
  destruct (Z.ltb_spec 0 (width mod 8));
    Z.to_euclidean_division_equations; lia.
Qed.

(** [packA8ToA1] on buffers that are large enough, as its assertions
    require: the pixel [(x, row)] lands in bit [7 - x mod 8] of byte
    [x / 8] of its row, set when the sample is at least 0x40. *)
Lemma packA8ToA1_spec (mask : SkMask) (src : list Z) (srcRB : Z) :
  let width := SkIRect_width (fBounds mask) in
  let height := SkIRect_height (fBounds mask) in
  0 <= width -> 0 <= height ->
  SkAlign8 width / 8 <= fRowBytes mask ->
  width <= srcRB ->
  height * fRowBytes mask <= Z.of_nat (length (fImage mask)) ->
  Forall (fun a => 0 <= a <= 0xFF) src ->
  forall row x, 0 <= row < height -> 0 <= x < width ->
    Z.testbit (load (packA8ToA1 mask src srcRB) (row * fRowBytes mask + x / 8))
              (7 - x mod 8)
    = (0x40 <=? load src (row * srcRB + x)).
Proof.
  intros width height Hw Hh HdstPad HsrcPad Hlen Hbytes row x Hrow Hx.
  assert (Hsrc : forall k, 0 <= load src k).
  { intros k. unfold load. destruct (0 <=? k); [|lia].
    destruct (src !! Z.to_nat k) as [a|] eqn:Ha.
    - rewrite (list_lookup_total_correct _ _ _ Ha).
      rewrite Forall_forall in Hbytes.
      apply list_elem_of_lookup_2, Hbytes in Ha. lia.
    - rewrite list_lookup_total_alt, Ha. simpl. lia. }
  assert (Hwidth : 8 * Z.shiftr width 3 + Z.land width 7 = width).
  { change 7 with (Z.ones 3). rewrite Z.land_ones, Z.shiftr_div_pow2 by lia.
    change (2 ^ 3) with 8. Z.to_euclidean_division_equations; lia. }
  assert (Hleft : 0 <= Z.land width 7 < 8).
  { change 7 with (Z.ones 3). rewrite Z.land_ones by lia.
    apply Z.mod_pos_bound. lia. }
  assert (Hocts : 0 <= Z.shiftr width 3) by (apply Z.shiftr_nonneg; lia).
  rewrite SkAlign8_bytes in HdstPad by assumption.
  unfold packA8ToA1. fold width height. rewrite SkAlign8_bytes by assumption.
  set (octs := Z.shiftr width 3) in *.
  set (leftOverBits := Z.land width 7) in *.
  assert (Hrb : row_bytes octs leftOverBits
                + (fRowBytes mask - row_bytes octs leftOverBits)
                = fRowBytes mask) by lia.
  assert (Hfits : 0 + Z.of_nat (Z.to_nat height)
                      * (row_bytes octs leftOverBits
                         + (fRowBytes mask - row_bytes octs leftOverBits))
                  <= Z.of_nat (length (fImage mask)))
    by (rewrite Hrb, Z2Nat.id by lia; lia).
  pose proof (pack_rows_spec src octs leftOverBits (srcRB - width)
                (fRowBytes mask - row_bytes octs leftOverBits)
                (Z.to_nat height)
                {| srcOff := 0; dstOff := 0; dstBuf := fImage mask |}
                Hocts Hleft ltac:(lia) ltac:(lia) (Z.le_refl 0) (Z.le_refl 0)
                Hfits Hsrc) as (_ & Hrows & _).
  specialize (Hrows row x). cbn [srcOff dstOff dstBuf] in Hrows.
  rewrite Z2Nat.id, Hrb in Hrows by lia.
  replace (8 * octs + leftOverBits + (srcRB - width)) with srcRB in Hrows
    by lia.
  apply Hrows; lia.
Qed.

(** ** The claim on the A8 to A1 packing *)

(** C1 as it is stated fails: the sample 0xBF is below 0xC0 and packs to
    the bit 1. *)
Lemma convert_8_to_1_cutoff_is_not_0xC0 :
  ~ (forall a : Z, 0 <= a <= 0xFF ->
       (convert_8_to_1 a = 1 <-> 0xC0 <= a) /\
       (a < 0xC0 -> convert_8_to_1 a = 0)).
Proof.
  intros Hclaim. destruct (Hclaim 0xBF) as [_ Hzero]; [lia|].
  specialize (Hzero ltac:(lia)). discriminate Hzero.
Qed.

(** C1, as the code has it.  The cutoff is at a quarter: an 8-bit sample
    packs to the bit 1 if and only if it is at least 0x40, and to 0 below;
    0x3F packs to 0 and 0x40 to 1.  [pack_8_to_1] puts the bit of
    [alpha[i]] at position [7 - i] of its byte, and [packA8ToA1] puts the
    bit of the pixel [(x, row)] at position [7 - x mod 8] of byte [x / 8]
    of the row. *)
Theorem pack_8_to_1_cutoff :
  (forall a : Z, 0 <= a <= 0xFF ->
     (convert_8_to_1 a = 1 <-> 0x40 <= a) /\
     (convert_8_to_1 a = 0 <-> a < 0x40)) /\
  convert_8_to_1 0x3F = 0 /\ convert_8_to_1 0x40 = 1 /\
  (forall (alpha : list Z) (i : nat),
     (i < 8)%nat -> 0 <= alpha !!! i <= 0xFF ->
     Z.testbit (pack_8_to_1 alpha) (7 - Z.of_nat i) = (0x40 <=? alpha !!! i)) /\
  (forall (mask : SkMask) (src : list Z) (srcRB : Z),
     let width := SkIRect_width (fBounds mask) in
     let height := SkIRect_height (fBounds mask) in
     0 <= width -> 0 <= height ->
     SkAlign8 width / 8 <= fRowBytes mask ->
     width <= srcRB ->
     height * fRowBytes mask <= Z.of_nat (length (fImage mask)) ->
     Forall (fun a => 0 <= a <= 0xFF) src ->
     forall row x, 0 <= row < height -> 0 <= x < width ->
       Z.testbit (load (packA8ToA1 mask src srcRB)
                       (row * fRowBytes mask + x / 8))
                 (7 - x mod 8)
       = (0x40 <=? load src (row * srcRB + x))).
Proof.
  split; [|split; [reflexivity|split; [reflexivity|split]]].
  - intros a Ha. rewrite convert_8_to_1_cutoff by lia.
    destruct (Z.leb_spec 0x40 a); split; split; intros; try lia; discriminate.
  - intros alpha i Hi Ha. rewrite pack_8_to_1_testbit by assumption.
    apply convert_8_to_1_eqb. lia.
  - exact packA8ToA1_spec.
Qed.

Lemma pack_8_to_1_cutoff_witness :
  packA8ToA1 Sample.mask Sample.a8 12 = [0x81; 0xC0; 0xAA; 0x00; 0x40; 0xAA] /\
  Z.testbit (load (packA8ToA1 Sample.mask Sample.a8 12) (1 * 3 + 9 / 8))
            (7 - 9 mod 8)
  = (0x40 <=? load Sample.a8 (1 * 12 + 9)).
Proof.
  split; [vm_compute; reflexivity|].
  destruct pack_8_to_1_cutoff as (_ & _ & _ & _ & Hpack).
  assert (Hbytes : Forall (fun a => 0 <= a <= 0xFF) Sample.a8).
  { unfold Sample.a8. repeat (apply Forall_cons_2; [lia|]). apply Forall_nil_2. }
  apply (Hpack Sample.mask Sample.a8 12); try exact Hbytes;
    vm_compute; repeat split; (discriminate || reflexivity).
Defined.

(** ** The walks over the paint graph *)

(** *** A walk that stops at active paints cannot succeed on a cycle *)

Section CycleGuard.
Variable R : relation FT_OpaquePaint.

(** [Succ a V]: the walk has succeeded on [a] from a state whose active
    set is [V]. *)
Variable Succ : FT_OpaquePaint -> VisitedSet -> Prop.
Hypothesis Succ_fresh : forall a V, Succ a V -> a ∉ V.
Hypothesis Succ_step : forall a b V, Succ a V -> R a b -> Succ b ({[a]} ∪ V).

Lemma Succ_rtc a b V :
  Succ a V -> rtc R a b -> exists V', V ⊆ V' /\ Succ b V'.
Proof.
  intros HS Hab. revert V HS.
  induction Hab as [a|a c b Hac _ IH]; intros V HS.
  - by exists V.
  - destruct (IH _ (Succ_step _ _ _ HS Hac)) as (V' & Hsub & HS').
    exists V'. split; [set_solver | exact HS'].
Qed.

Lemma Succ_tc a b V :
  Succ a V -> tc R a b -> exists V', {[a]} ∪ V ⊆ V' /\ Succ b V'.
Proof.
  intros HS Hab. revert V HS.
  induction Hab as [a b Hab|a c b Hac _ IH]; intros V HS.
  - exists ({[a]} ∪ V). split; [done | by apply Succ_step].
  - destruct (IH _ (Succ_step _ _ _ HS Hac)) as (V' & Hsub & HS').
    exists V'. split; [set_solver | exact HS'].
Qed.

Lemma no_success_on_cycle start V :
  reachable_cycle R start -> ~ Succ start V.
Proof.
  intros (a & Hreach & Hcycle) HS.
  destruct (Succ_rtc _ _ _ HS Hreach) as (V1 & _ & HS1).
  destruct (Succ_tc _ _ _ HS1 Hcycle) as (V2 & Hsub & HS2).
  apply (Succ_fresh _ _ HS2). set_solver.
Qed.
End CycleGuard.

(** A cycle of the paint graph consists of paints that have an edge, so
    it is a cycle of the edges the drawing walk descends into. *)
Lemma tc_has_edge (face : FT_Face) a b :
  tc (paint_edge face) a b -> exists c, paint_edge face a c.
Proof. destruct 1; eauto. Qed.

Lemma tc_walk_edge (face : FT_Face) a b :
  tc (paint_edge face) a b -> (exists c, paint_edge face b c) ->
  tc (walk_edge face) a b.
Proof.
  induction 1 as [a b Hab|a c b Hac Hcb IH]; intros Hb.
  - apply tc_once. by split.
  - eapply tc_l; [|by apply IH]. split; [exact Hac|].
    by apply tc_has_edge in Hcb.
Qed.

Lemma rtc_walk_edge (face : FT_Face) a b :
  rtc (paint_edge face) a b -> (exists c, paint_edge face b c) ->
  rtc (walk_edge face) a b.
Proof.
  induction 1 as [a|a c b Hac Hcb IH]; intros Hb; [constructor|].
  eapply rtc_l; [|by apply IH]. split; [exact Hac|].
  destruct Hcb; [exact Hb | eauto].
Qed.

Lemma reachable_cycle_walk_edge (face : FT_Face) start :
  reachable_cycle (paint_edge face) start ->
  reachable_cycle (walk_edge face) start.
Proof.
  intros (a & Hreach & Hcycle). exists a.
  pose proof (tc_has_edge _ _ _ Hcycle) as Ha.
  split; [by apply rtc_walk_edge | by apply tc_walk_edge].
Qed.

(** *** The layer loop *)

Section Layers.
Context {S : Type} (active : S -> VisitedSet) (w : FT_OpaquePaint -> Walk S).

Lemma traverse_layers_keeps layers :
  keeps_active active w ->
  forall st ok st',
    traverse_layers w layers st = Some (ok, st') -> active st' = active st.
Proof.
  intros Hw. induction layers as [|o layers IH]; intros st ok st' Hrun;
    cbn [traverse_layers] in Hrun.
  - by injection Hrun as <- <-.
  - destruct (w o st) as [[[|] st1]|] eqn:Ho; try discriminate.
    + rewrite (IH _ _ _ Hrun). eapply Hw, Ho.
    + injection Hrun as <- <-. eapply Hw, Ho.
Qed.

Lemma traverse_layers_returns layers V :
  keeps_active active w -> returns_at active V w ->
  forall st, active st = V -> is_Some (traverse_layers w layers st).
Proof.
  intros Hw Hret. induction layers as [|o layers IH]; intros st Hst;
    cbn [traverse_layers]; [eauto|].
  destruct (Hret o st Hst) as [[[|] st1] Ho]; rewrite Ho; [|eauto].
  apply IH. rewrite <- Hst. eapply Hw, Ho.
Qed.

(** The loop returns true exactly when the walk succeeds on every
    layer, in order. *)
Lemma traverse_layers_true layers st st' :
  traverse_layers w layers st = Some (true, st') <->
  all_succeed w layers st st'.
Proof.
  revert st. induction layers as [|o layers IH]; intros st;
    cbn [traverse_layers].
  - split; [intros [= <-]; constructor | by inversion 1].
  - split.
    + destruct (w o st) as [[[|] st1]|] eqn:Ho; try discriminate.
      intros Hrun. econstructor; [exact Ho | by apply IH].
    + inversion 1 as [|? ? ? st1 ? Ho Hrest]; subst. rewrite Ho. by apply IH.
Qed.

(** The loop stops at the first layer on which the walk fails: the
    state it returns is the state that layer left, whatever layers
    follow. *)
Lemma traverse_layers_abort done failing rest st st1 st2 :
  all_succeed w done st st1 ->
  w failing st1 = Some (false, st2) ->
  traverse_layers w (done ++ failing :: rest) st = Some (false, st2).
Proof.
  induction 1 as [st|o l st sta stb Ho _ IH]; intros Hfail;
    cbn [traverse_layers app].
  - by rewrite Hfail.
  - rewrite Ho. by apply IH.
Qed.

Lemma all_succeed_active layers st st' :
  keeps_active active w ->
  all_succeed w layers st st' -> active st' = active st.
Proof.
  intros Hw. induction 1 as [|o l st st1 st2 Ho _ IH]; [done|].
  rewrite IH. eapply Hw, Ho.
Qed.

Lemma all_succeed_each layers st st' o :
  keeps_active active w ->
  all_succeed w layers st st' -> o ∈ layers ->
  exists st1 st2, active st1 = active st /\ w o st1 = Some (true, st2).
Proof.
  intros Hw. induction 1 as [|o' l st st1 st2 Ho Hrest IH]; intros Hin.
  - by apply elem_of_nil in Hin.
  - apply elem_of_cons in Hin as [->|Hin]; [by eauto|].
    destruct (IH Hin) as (sa & sb & Hact & Hrun).
    exists sa, sb. split; [|exact Hrun]. rewrite Hact. eapply Hw, Ho.
Qed.
End Layers.

(** *** The drawing walk *)

Section RenderFacts.
Context `{SkMath}.
Variable palette : list SkColor.
Variable foregroundColor : SkColor.
Variable face : FT_Face.

Lemma start_glyph_keeps w glyphId rootTransform :
  keeps_active activePaints w ->
  forall st ok st',
    colrv1_start_glyph_with face w glyphId rootTransform st = Some (ok, st') ->
    activePaints st' = activePaints st.
Proof.
  intros Hw st ok st'. unfold colrv1_start_glyph_with.
  destruct (FT_Get_Color_Glyph_Paint _ _ _); [|by intros [= <- <-]].
  intros Hrun. apply Hw in Hrun. rewrite Hrun.
  by destruct (GetClipBoxPath _ _ _).
Qed.

Lemma traverse_paint_switch_keeps w paint :
  keeps_active activePaints w ->
  forall st ok st',
    traverse_paint_switch palette foregroundColor face w paint st
    = Some (ok, st') ->
    activePaints st' = activePaints st.
Proof.
  intros Hw st ok st' Hrun.
  destruct paint as [layers | child gid | gid | child aff | child tx ty
                   | child sx sy cx cy | child ang cx cy | child xs ys cx cy
                   | src mode back | col | cl q0 q1 q2 | cl c0 r0 c1 r1
                   | cl ctr a0 a1 | ];
    cbn [traverse_paint_switch] in Hrun;
    try (destruct (colrv1_draw_paint _ _ _ _ _) as [? ?];
         by injection Hrun as <- <-);
    try (by apply Hw in Hrun).
  - by apply (traverse_layers_keeps activePaints w) in Hrun.
  - destruct (FT_Get_Paint _ _); [|by injection Hrun as <- <-].
    destruct (is_fill _).
    + destruct (colrv1_draw_glyph_with_path _ _ _ _ _ _) as [? ?].
      by injection Hrun as <- <-.
    + destruct (colrv1_draw_paint _ _ _ _ _) as [[|] ?]; cbn [negb] in Hrun.
      * by apply Hw in Hrun.
      * by injection Hrun as <- <-.
  - by apply start_glyph_keeps in Hrun.
  - destruct (w back _) as [[[|] st1]|] eqn:Hback;
      try discriminate; apply Hw in Hback.
    + destruct (w src _) as [[ok2 st2]|] eqn:Hsrc; [|discriminate].
      apply Hw in Hsrc. injection Hrun as <- <-. cbn in *. congruence.
    + injection Hrun as <- <-. exact Hback.
  - by injection Hrun as <- <-.
Qed.

(** The set of active paints is the same after a call as before it:
    a paint is added after the membership test and removed on every way
    out. *)
Lemma traverse_paint_keeps depth :
  keeps_active activePaints
    (colrv1_traverse_paint palette foregroundColor face depth).
Proof.
  induction depth as [|depth IH]; intros o st ok st' Hrun;
    cbn [colrv1_traverse_paint] in Hrun; [discriminate|].
  destruct (decide (o ∈ activePaints st)) as [Hin|Hout];
    [by injection Hrun as <- <-|].
  destruct (FT_Get_Paint face o) as [paint|].
  - destruct (traverse_paint_switch _ _ _ _ _ _) as [[ok1 st1]|] eqn:Hsw;
      [|discriminate].
    apply (traverse_paint_switch_keeps _ _ IH) in Hsw.
    injection Hrun as <- <-. cbn in *. rewrite Hsw. set_solver.
  - injection Hrun as <- <-. cbn. set_solver.
Qed.

Lemma start_glyph_returns w glyphId rootTransform V :
  returns_at activePaints V w ->
  forall st, activePaints st = V ->
    is_Some (colrv1_start_glyph_with face w glyphId rootTransform st).
Proof.
  intros Hret st Hst. unfold colrv1_start_glyph_with.
  destruct (FT_Get_Color_Glyph_Paint _ _ _); [|eauto].
  apply Hret. by destruct (GetClipBoxPath _ _ _).
Qed.

Lemma traverse_paint_switch_returns w paint V :
  keeps_active activePaints w -> returns_at activePaints V w ->
  forall st, activePaints st = V ->
    is_Some (traverse_paint_switch palette foregroundColor face w paint st).
Proof.
  intros Hw Hret st Hst.
  destruct paint as [layers | child gid | gid | child aff | child tx ty
                   | child sx sy cx cy | child ang cx cy | child xs ys cx cy
                   | src mode back | col | cl q0 q1 q2 | cl c0 r0 c1 r1
                   | cl ctr a0 a1 | ];
    cbn [traverse_paint_switch];
    try (destruct (colrv1_draw_paint _ _ _ _ _) as [? ?]; by eauto);
    try (by apply Hret).
  - by apply (traverse_layers_returns activePaints w _ V).
  - destruct (FT_Get_Paint _ _); [|eauto].
    destruct (is_fill _).
    + destruct (colrv1_draw_glyph_with_path _ _ _ _ _ _) as [? ?]. eauto.
    + destruct (colrv1_draw_paint _ _ _ _ _) as [[|] ?]; cbn [negb];
        [by apply Hret | eauto].
  - by apply (start_glyph_returns w _ _ V).
  - destruct (Hret back (with_canvas (saveLayer None) st) Hst)
      as [[[|] st1] Hback]; rewrite Hback; [|eauto].
    apply Hw in Hback.
    match goal with
    | |- context [w src ?s] =>
        destruct (Hret src s) as [[ok2 st2] Hsrc];
          [cbn in *; congruence | rewrite Hsrc; eauto]
    end.
  - eauto.
Qed.

Lemma fresh_paint_measure (o : FT_OpaquePaint) (V : VisitedSet) paint :
  FT_Get_Paint face o = Some paint -> o ∉ V ->
  (size (dom (paints face) ∖ ({[o]} ∪ V))
   < size (dom (paints face) ∖ V))%nat.
Proof.
  intros Hget Hout. apply subset_size.
  assert (o ∈ dom (paints face)) by (apply elem_of_dom; by eexists).
  set_solver.
Qed.

(** A call returns when it is allowed a depth above the number of
    paints of the face that are not active. *)
Lemma traverse_paint_returns depth : forall o st,
  (size (dom (paints face) ∖ activePaints st) < depth)%nat ->
  is_Some (colrv1_traverse_paint palette foregroundColor face depth o st).
Proof.
  induction depth as [|depth IH]; intros o st Hsize; [lia|].
  cbn [colrv1_traverse_paint].
  destruct (decide (o ∈ activePaints st)) as [Hin|Hout]; [eauto|].
  destruct (FT_Get_Paint face o) as [paint|] eqn:Hget; [|eauto].
  pose proof (fresh_paint_measure o (activePaints st) paint Hget Hout) as Hlt.
  match goal with
  | |- context [traverse_paint_switch _ _ _ ?w ?q ?s] =>
      destruct (traverse_paint_switch_returns w q ({[o]} ∪ activePaints st)
                  (traverse_paint_keeps depth)) with (st := s)
        as [[ok1 st1] Hsw]
  end.
  - intros o' st' Hst'. apply IH. rewrite Hst'. lia.
  - reflexivity.
  - rewrite Hsw. eauto.
Qed.

Lemma is_fill_no_children paint :
  is_fill paint = true -> paint_children face paint = [].
Proof. by destruct paint. Qed.

(** When the switch returns true, the walk has succeeded on every paint
    the record refers to, but for a fill below a glyph paint. *)
Lemma traverse_paint_switch_children w paint st st' :
  keeps_active activePaints w ->
  traverse_paint_switch palette foregroundColor face w paint st
  = Some (true, st') ->
  forall c, c ∈ paint_children face paint ->
    (exists d, paint_edge face c d) ->
    exists s1 s2, activePaints s1 = activePaints st /\
                  w c s1 = Some (true, s2).
Proof.
  intros Hw Hrun c Hc Hedge.
  destruct paint as [layers | child gid | gid | child aff | child tx ty
                   | child sx sy cx cy | child ang cx cy | child xs ys cx cy
                   | src mode back | col | cl q0 q1 q2 | cl c0 r0 c1 r1
                   | cl ctr a0 a1 | ];
    cbn [traverse_paint_switch paint_children] in Hrun, Hc;
    try (by apply elem_of_nil in Hc);
    try (apply list_elem_of_singleton in Hc as ->;
         eexists _, st'; split; [|exact Hrun]; reflexivity).
  - apply traverse_layers_true in Hrun.
    by apply (all_succeed_each activePaints w _ _ _ _ Hw Hrun).
  - apply list_elem_of_singleton in Hc as ->.
    destruct (FT_Get_Paint face child) as [fillPaint|] eqn:Hget;
      [|discriminate].
    destruct (is_fill fillPaint) eqn:Hfill.
    + destruct Hedge as (d & q & Hq & Hd).
      rewrite Hget in Hq. injection Hq as <-.
      rewrite (is_fill_no_children _ Hfill) in Hd.
      by apply elem_of_nil in Hd.
    + destruct (colrv1_draw_paint _ _ _ _ _) as [[|] cv]; cbn [negb] in Hrun;
        [|discriminate].
      by exists (set_canvas cv st), st'.
  - unfold colrv1_start_glyph_with in Hrun.
    destruct (FT_Get_Color_Glyph_Paint _ _ _) as [root|]; [|discriminate].
    apply list_elem_of_singleton in Hc as ->.
    eexists _, st'. split; [|exact Hrun]. by destruct (GetClipBoxPath _ _ _).
  - destruct (w back _) as [[[|] st1]|] eqn:Hback;
      try discriminate.
    destruct (w src _) as [[ok2 st2]|] eqn:Hsrc; [|discriminate].
    injection Hrun as -> <-.
    apply elem_of_cons in Hc as [->|Hc].
    + eexists _, st1. split; [|exact Hback]. reflexivity.
    + apply list_elem_of_singleton in Hc as ->.
      eexists _, st2. split; [|exact Hsrc]. cbn. by apply Hw in Hback.
Qed.

Lemma render_success_fresh a V : render_success palette foregroundColor face a V -> a ∉ V.
Proof.
  intros (depth & st & st' & <- & Hrun).
  destruct depth; cbn [colrv1_traverse_paint] in Hrun; [discriminate|].
  by destruct (decide (a ∈ activePaints st)).
Qed.

Lemma render_success_step a b V :
  render_success palette foregroundColor face a V -> walk_edge face a b -> render_success palette foregroundColor face b ({[a]} ∪ V).
Proof.
  intros (depth & st & st' & <- & Hrun) [(q & Hq & Hb) Hedge].
  destruct depth; cbn [colrv1_traverse_paint] in Hrun; [discriminate|].
  destruct (decide (a ∈ activePaints st)); [discriminate|].
  rewrite Hq in Hrun.
  destruct (traverse_paint_switch _ _ _ _ _ _) as [[ok1 st1]|] eqn:Hsw;
    [|discriminate].
  injection Hrun as -> _.
  destruct (traverse_paint_switch_children _ _ _ _
              (traverse_paint_keeps depth) Hsw b Hb Hedge)
    as (s1 & s2 & Hact & Hrun).
  by exists depth, s1, s2.
Qed.

(** On a graph with a cycle within reach of [start], no call on [start]
    returns true. *)
Lemma traverse_paint_cycle start depth st ok st' :
  reachable_cycle (paint_edge face) start ->
  colrv1_traverse_paint palette foregroundColor face depth start st
  = Some (ok, st') ->
  ok = false.
Proof.
  intros Hcycle Hrun. destruct ok; [|reflexivity]. exfalso.
  apply reachable_cycle_walk_edge in Hcycle.
  apply (no_success_on_cycle (walk_edge face)
           (render_success palette foregroundColor face)
           render_success_fresh render_success_step
           start (activePaints st) Hcycle).
  by exists depth, st, st'.
Qed.
End RenderFacts.

(** *** The bounds walk *)

Section BoundsFacts.
Context `{SkMath}.
Variable face : FT_Face.

Lemma traverse_paint_bounds_switch_keeps w paint :
  keeps_active activePaintsB w ->
  forall st ok st',
    traverse_paint_bounds_switch face w paint st = Some (ok, st') ->
    activePaintsB st' = activePaintsB st.
Proof.
  intros Hw st ok st' Hrun.
  destruct paint as [layers | child gid | gid | child aff | child tx ty
                   | child sx sy cx cy | child ang cx cy | child xs ys cx cy
                   | src mode back | col | cl q0 q1 q2 | cl c0 r0 c1 r1
                   | cl ctr a0 a1 | ];
    cbn [traverse_paint_bounds_switch] in Hrun;
    try (by injection Hrun as <- <-);
    try (by apply Hw in Hrun).
  - by apply (traverse_layers_keeps activePaintsB w) in Hrun.
  - destruct (generateFacePathCOLRv1 _ _); by injection Hrun as <- <-.
  - unfold colrv1_start_glyph_bounds_with in Hrun.
    destruct (FT_Get_Color_Glyph_Paint _ _ _); [by apply Hw in Hrun|].
    by injection Hrun as <- <-.
  - destruct (w back st) as [[[|] st1]|] eqn:Hback; try discriminate;
      apply Hw in Hback.
    + apply Hw in Hrun. congruence.
    + by injection Hrun as <- <-.
Qed.

Lemma traverse_paint_bounds_keeps depth :
  keeps_active activePaintsB (colrv1_traverse_paint_bounds face depth).
Proof.
  induction depth as [|depth IH]; intros o st ok st' Hrun;
    cbn [colrv1_traverse_paint_bounds] in Hrun; [discriminate|].
  destruct (decide (o ∈ activePaintsB st)) as [Hin|Hout];
    [by injection Hrun as <- <-|].
  destruct (FT_Get_Paint face o) as [paint|].
  - destruct (traverse_paint_bounds_switch _ _ _ _) as [[ok1 st1]|] eqn:Hsw;
      [|discriminate].
    apply (traverse_paint_bounds_switch_keeps _ _ IH) in Hsw.
    injection Hrun as <- <-. cbn in *. rewrite Hsw. set_solver.
  - injection Hrun as <- <-. cbn. set_solver.
Qed.

Lemma traverse_paint_bounds_switch_returns w paint V :
  keeps_active activePaintsB w -> returns_at activePaintsB V w ->
  forall st, activePaintsB st = V ->
    is_Some (traverse_paint_bounds_switch face w paint st).
Proof.
  intros Hw Hret st Hst.
  destruct paint as [layers | child gid | gid | child aff | child tx ty
                   | child sx sy cx cy | child ang cx cy | child xs ys cx cy
                   | src mode back | col | cl q0 q1 q2 | cl c0 r0 c1 r1
                   | cl ctr a0 a1 | ];
    cbn [traverse_paint_bounds_switch];
    try (by eauto); try (by apply Hret).
  - by apply (traverse_layers_returns activePaintsB w _ V).
  - destruct (generateFacePathCOLRv1 _ _); eauto.
  - unfold colrv1_start_glyph_bounds_with.
    destruct (FT_Get_Color_Glyph_Paint _ _ _); [by apply Hret | eauto].
  - destruct (Hret back st Hst) as [[[|] st1] Hback]; rewrite Hback; [|eauto].
    apply Hret. apply Hw in Hback. congruence.
Qed.

Lemma traverse_paint_bounds_returns depth : forall o st,
  (size (dom (paints face) ∖ activePaintsB st) < depth)%nat ->
  is_Some (colrv1_traverse_paint_bounds face depth o st).
Proof.
  induction depth as [|depth IH]; intros o st Hsize; [lia|].
  cbn [colrv1_traverse_paint_bounds].
  destruct (decide (o ∈ activePaintsB st)) as [Hin|Hout]; [eauto|].
  destruct (FT_Get_Paint face o) as [paint|] eqn:Hget; [|eauto].
  pose proof (fresh_paint_measure face o (activePaintsB st) paint Hget Hout)
    as Hlt.
  match goal with
  | |- context [traverse_paint_bounds_switch _ ?w ?q ?s] =>
      destruct (traverse_paint_bounds_switch_returns w q
                  ({[o]} ∪ activePaintsB st)
                  (traverse_paint_bounds_keeps depth)) with (st := s)
        as [[ok1 st1] Hsw]
  end.
  - intros o' st' Hst'. apply IH. rewrite Hst'. lia.
  - reflexivity.
  - rewrite Hsw. eauto.
Qed.

Lemma traverse_paint_bounds_switch_children w paint st st' :
  keeps_active activePaintsB w ->
  traverse_paint_bounds_switch face w paint st = Some (true, st') ->
  forall c, c ∈ bounds_children face paint ->
    exists s1 s2, activePaintsB s1 = activePaintsB st /\
                  w c s1 = Some (true, s2).
Proof.
  intros Hw Hrun c Hc.
  destruct paint as [layers | child gid | gid | child aff | child tx ty
                   | child sx sy cx cy | child ang cx cy | child xs ys cx cy
                   | src mode back | col | cl q0 q1 q2 | cl c0 r0 c1 r1
                   | cl ctr a0 a1 | ];
    cbn [traverse_paint_bounds_switch bounds_children paint_children]
      in Hrun, Hc;
    try (by apply elem_of_nil in Hc);
    try (apply list_elem_of_singleton in Hc as ->;
         eexists _, st'; split; [|exact Hrun]; reflexivity).
  - apply traverse_layers_true in Hrun.
    by apply (all_succeed_each activePaintsB w _ _ _ _ Hw Hrun).
  - unfold colrv1_start_glyph_bounds_with in Hrun.
    destruct (FT_Get_Color_Glyph_Paint _ _ _) as [root|]; [|discriminate].
    apply list_elem_of_singleton in Hc as ->.
    eexists _, st'. split; [|exact Hrun]. reflexivity.
  - destruct (w back st) as [[[|] st1]|] eqn:Hback; try discriminate.
    apply elem_of_cons in Hc as [->|Hc].
    + eexists _, st1. split; [|exact Hback]. reflexivity.
    + apply list_elem_of_singleton in Hc as ->.
      eexists _, st'. split; [|exact Hrun]. by apply Hw in Hback.
Qed.

Lemma bounds_success_fresh a V : bounds_success face a V -> a ∉ V.
Proof.
  intros (depth & st & st' & <- & Hrun).
  destruct depth; cbn [colrv1_traverse_paint_bounds] in Hrun; [discriminate|].
  by destruct (decide (a ∈ activePaintsB st)).
Qed.

Lemma bounds_success_step a b V :
  bounds_success face a V -> bounds_edge face a b ->
  bounds_success face b ({[a]} ∪ V).
Proof.
  intros (depth & st & st' & <- & Hrun) (q & Hq & Hb).
  destruct depth; cbn [colrv1_traverse_paint_bounds] in Hrun; [discriminate|].
  destruct (decide (a ∈ activePaintsB st)); [discriminate|].
  rewrite Hq in Hrun.
  destruct (traverse_paint_bounds_switch _ _ _ _) as [[ok1 st1]|] eqn:Hsw;
    [|discriminate].
  injection Hrun as -> _.
  destruct (traverse_paint_bounds_switch_children _ _ _ _
              (traverse_paint_bounds_keeps depth) Hsw b Hb)
    as (s1 & s2 & Hact & Hrun).
  by exists depth, s1, s2.
Qed.

(** A cycle along the edges the bounds walk follows makes it fail. *)
Lemma traverse_paint_bounds_cycle start depth st ok st' :
  reachable_cycle (bounds_edge face) start ->
  colrv1_traverse_paint_bounds face depth start st = Some (ok, st') ->
  ok = false.
Proof.
  intros Hcycle Hrun. destruct ok; [|reflexivity]. exfalso.
  apply (no_success_on_cycle (bounds_edge face) (bounds_success face)
           bounds_success_fresh bounds_success_step
           start (activePaintsB st) Hcycle).
  by exists depth, st, st'.
Qed.
End BoundsFacts.

(** ** The claims on the walks *)

(** C2, as the code has it.  On a paint graph with a cycle within reach of
    the start paint, every call of [colrv1_traverse_paint] that returns,
    returns false, and a top-level call, which starts from the empty
    [VisitedSet], returns with the [VisitedSet] empty again.  The same
    holds of [colrv1_traverse_paint_bounds] for the cycles along the edges
    it follows: it takes the outline of a glyph paint and does not descend
    into the paint below it. *)
Theorem cycle_fails_and_restores `{SkMath}
    (palette : list SkColor) (foregroundColor : SkColor) (face : FT_Face)
    (start : FT_OpaquePaint) :
  (reachable_cycle (paint_edge face) start ->
   (forall depth st ok st',
      colrv1_traverse_paint palette foregroundColor face depth start st
      = Some (ok, st') ->
      ok = false /\ activePaints st' = activePaints st) /\
   (forall st, activePaints st = ∅ ->
      exists st',
        colrv1_traverse_paint palette foregroundColor face
          (S (size (paints face))) start st = Some (false, st') /\
        activePaints st' = ∅)) /\
  (reachable_cycle (bounds_edge face) start ->
   (forall depth st ok st',
      colrv1_traverse_paint_bounds face depth start st = Some (ok, st') ->
      ok = false /\ activePaintsB st' = activePaintsB st) /\
   (forall st, activePaintsB st = ∅ ->
      exists st',
        colrv1_traverse_paint_bounds face (S (size (paints face))) start st
        = Some (false, st') /\
        activePaintsB st' = ∅)).
Proof.
  assert (Hsize : forall V : VisitedSet, V = ∅ ->
            (size (dom (paints face) ∖ V) < S (size (paints face)))%nat).
  { intros V ->. rewrite difference_empty_L, size_dom. lia. }
  split; intros Hcycle.
  - assert (Hfail : forall depth st ok st',
              colrv1_traverse_paint palette foregroundColor face depth start st
              = Some (ok, st') ->
              ok = false /\ activePaints st' = activePaints st).
    { intros depth st ok st' Hrun. split.
      - by eapply traverse_paint_cycle.
      - by eapply traverse_paint_keeps. }
    split; [exact Hfail|]. intros st Hst.
    destruct (traverse_paint_returns palette foregroundColor face
                (S (size (paints face))) start st (Hsize _ Hst))
      as [[ok st'] Hrun].
    destruct (Hfail _ _ _ _ Hrun) as [-> Hact].
    exists st'. split; [exact Hrun | congruence].
  - assert (Hfail : forall depth st ok st',
              colrv1_traverse_paint_bounds face depth start st = Some (ok, st') ->
              ok = false /\ activePaintsB st' = activePaintsB st).
    { intros depth st ok st' Hrun. split.
      - by eapply traverse_paint_bounds_cycle.
      - by eapply traverse_paint_bounds_keeps. }
    split; [exact Hfail|]. intros st Hst.
    destruct (traverse_paint_bounds_returns face
                (S (size (paints face))) start st (Hsize _ Hst))
      as [[ok st'] Hrun].
    destruct (Hfail _ _ _ _ Hrun) as [-> Hact].
    exists st'. split; [exact Hrun | congruence].
Qed.

Lemma layer_loop_cycle (R : relation FT_OpaquePaint) :
  R (Sample.handle 1) (Sample.handle 2) ->
  R (Sample.handle 2) (Sample.handle 1) ->
  reachable_cycle R (Sample.handle 1).
Proof.
  intros H12 H21. exists (Sample.handle 1). split; [constructor|].
  eapply tc_l; [exact H12|]. by apply tc_once.
Defined.

Lemma layer_loop_paint_cycle :
  reachable_cycle (paint_edge Sample.layer_loop) (Sample.handle 1).
Proof.
  apply layer_loop_cycle.
  - exists (PaintTranslate (Sample.handle 2) 65536 0).
    split; [reflexivity | apply list_elem_of_here].
  - exists (PaintColrLayers [Sample.handle 3; Sample.handle 1]).
    split; [reflexivity | apply list_elem_of_further, list_elem_of_here].
Defined.

Lemma layer_loop_bounds_cycle :
  reachable_cycle (bounds_edge Sample.layer_loop) (Sample.handle 1).
Proof.
  apply layer_loop_cycle.
  - exists (PaintTranslate (Sample.handle 2) 65536 0).
    split; [reflexivity | apply list_elem_of_here].
  - exists (PaintColrLayers [Sample.handle 3; Sample.handle 1]).
    split; [reflexivity | apply list_elem_of_further, list_elem_of_here].
Defined.

Lemma cycle_fails_and_restores_witness :
  reachable_cycle (paint_edge Sample.layer_loop) (Sample.handle 1) /\
  reachable_cycle (bounds_edge Sample.layer_loop) (Sample.handle 1) /\
  (exists st',
     @colrv1_traverse_paint Sample.math Sample.palette Sample.foreground
       Sample.layer_loop (S (size (paints Sample.layer_loop)))
       (Sample.handle 1) initial_render_state = Some (false, st') /\
     activePaints st' = ∅) /\
  (exists st',
     @colrv1_traverse_paint_bounds Sample.math Sample.layer_loop
       (S (size (paints Sample.layer_loop))) (Sample.handle 1)
       initial_bounds_state = Some (false, st') /\
     activePaintsB st' = ∅).
Proof.
  split; [exact layer_loop_paint_cycle|].
  split; [exact layer_loop_bounds_cycle|].
  destruct (@cycle_fails_and_restores Sample.math Sample.palette
              Sample.foreground Sample.layer_loop (Sample.handle 1))
    as [Hdraw Hbounds].
  split.
  - apply (proj2 (Hdraw layer_loop_paint_cycle)). reflexivity.
  - apply (proj2 (Hbounds layer_loop_bounds_cycle)). reflexivity.
Defined.

(** C2 as it is stated fails for the bounds walk: a glyph paint that is
    filled by itself is a cycle of the paint graph, and
    [colrv1_traverse_paint_bounds] returns true on it. *)
Lemma bounds_walk_succeeds_on_glyph_cycle :
  reachable_cycle (paint_edge Sample.glyph_loop) (Sample.handle 1) /\
  @colrv1_traverse_paint_bounds Sample.math Sample.glyph_loop 2
    (Sample.handle 1) initial_bounds_state
  = Some (true, {| ctm := []; bounds := [([], [(0, 0); (1, 0); (0, 1)])];
                   activePaintsB := ∅ |}).
Proof.
  split.
  - exists (Sample.handle 1). split; [constructor|]. apply tc_once.
    exists (PaintGlyph (Sample.handle 1) 7).
    split; [reflexivity | apply list_elem_of_here].
  - vm_compute. reflexivity.
Qed.

(** C3. A call of [colrv1_traverse_paint] returns when it is allowed one
    level of recursion more than there are paints in the face that are not
    active: the membership test bounds the depth of the recursion by the
    number of paint identities.  This holds for every face, with or
    without cycles. *)
Theorem traverse_paint_terminates `{SkMath}
    (palette : list SkColor) (foregroundColor : SkColor) (face : FT_Face)
    (start : FT_OpaquePaint) (st : RenderState) :
  exists ok st',
    colrv1_traverse_paint palette foregroundColor face
      (S (size (dom (paints face) ∖ activePaints st))) start st
    = Some (ok, st').
Proof.
  destruct (traverse_paint_returns palette foregroundColor face
              (S (size (dom (paints face) ∖ activePaints st))) start st)
    as [[ok st'] Hrun]; [lia|].
  by exists ok, st'.
Qed.

(** C7. A call on a fresh paint that decodes to a layer list walks the
    layers in order on the state it has saved.  At the first layer on
    which the walk fails the call returns false with the state that layer
    left (restored and with the paint removed from the active set):
    nothing of the layers behind it is drawn.  The call returns true
    exactly when the walk succeeds on every layer, one after the other. *)
Theorem layer_list_aborts_on_first_failure `{SkMath}
    (palette : list SkColor) (foregroundColor : SkColor) (face : FT_Face)
    (depth : nat) (o : FT_OpaquePaint) (layers : list FT_OpaquePaint)
    (st : RenderState) :
  o ∉ activePaints st ->
  FT_Get_Paint face o = Some (PaintColrLayers layers) ->
  let walk := colrv1_traverse_paint palette foregroundColor face depth in
  let entry := with_canvas save (add_active o st) in
  let leave := fun s : RenderState =>
    remove_active o (with_canvas (restoreToCount (saveCount (canvas st))) s) in
  (forall done failing rest st1 st2,
     layers = done ++ failing :: rest ->
     all_succeed walk done entry st1 ->
     walk failing st1 = Some (false, st2) ->
     colrv1_traverse_paint palette foregroundColor face (S depth) o st
     = Some (false, leave st2)) /\
  (forall st',
     colrv1_traverse_paint palette foregroundColor face (S depth) o st
     = Some (true, st') <->
     exists st1, all_succeed walk layers entry st1 /\ st' = leave st1).
Proof.
  intros Hfresh Hget walk entry leave.
  assert (Hcall :
    colrv1_traverse_paint palette foregroundColor face (S depth) o st
    = match traverse_layers walk layers entry with
      | Some (ok, s) => Some (ok, leave s)
      | None => None
      end).
  { cbn [colrv1_traverse_paint]. rewrite decide_False by assumption.
    rewrite Hget. reflexivity. }
  split.
  - intros done failing rest st1 st2 -> Hdone Hfail.
    rewrite Hcall, (traverse_layers_abort walk _ _ _ _ _ _ Hdone Hfail).
    reflexivity.
  - intros st'. rewrite Hcall. split.
    + destruct (traverse_layers walk layers entry) as [[[|] s]|] eqn:Hrun;
        try discriminate.
      intros [= <-]. exists s. split; [|reflexivity].
      by apply traverse_layers_true.
    + intros (st1 & Hall & ->).
      apply traverse_layers_true in Hall. by rewrite Hall.
Qed.

Lemma layer_list_aborts_on_first_failure_witness :
  (Sample.handle 1 ∉ activePaints initial_render_state) /\
  FT_Get_Paint Sample.three_layers (Sample.handle 1)
  = Some (PaintColrLayers [Sample.handle 2; Sample.handle 3; Sample.handle 4]) /\
  exists st',
    @colrv1_traverse_paint Sample.math Sample.palette Sample.foreground
      Sample.three_layers 3 (Sample.handle 1) initial_render_state
    = Some (false, st') /\
    ops (canvas st')
    = [OpSave;
       OpSave;
       OpDrawPath [(0, 0); (1, 0); (0, 1)]
         (setColor 0xFFFF0000 (setAntiAlias true SkPaint_default));
       OpRestore;
       OpSave; OpRestore;
       OpRestore].
Proof.
  assert (Hfresh : Sample.handle 1 ∉ activePaints initial_render_state)
    by apply not_elem_of_empty.
  assert (Hget : FT_Get_Paint Sample.three_layers (Sample.handle 1)
                 = Some (PaintColrLayers
                           [Sample.handle 2; Sample.handle 3; Sample.handle 4]))
    by reflexivity.
  split; [exact Hfresh|]. split; [exact Hget|].
  destruct (@layer_list_aborts_on_first_failure Sample.math Sample.palette
              Sample.foreground Sample.three_layers 2 (Sample.handle 1) _
              initial_render_state Hfresh Hget) as [Habort _].
  set (drawn :=
    [OpSave; OpSave;
     OpDrawPath [(0, 0); (1, 0); (0, 1)]
       (setColor 0xFFFF0000 (setAntiAlias true SkPaint_default));
     OpRestore]).
  set (st1 := {| canvas := {| ops := drawn; saveCount := 2 |};
                 activePaints := {[Sample.handle 1]} |}).
  set (st2 := {| canvas := {| ops := drawn ++ [OpSave; OpRestore];
                              saveCount := 2 |};
                 activePaints := {[Sample.handle 1]} |}).
  eexists. split.
  - apply (Habort [Sample.handle 2] (Sample.handle 3) [Sample.handle 4]
             st1 st2).
    + reflexivity.
    + eapply all_succeed_cons; [|apply all_succeed_nil].
      vm_compute. reflexivity.
    + vm_compute. reflexivity.
  - vm_compute. reflexivity.
Defined.

(** ** The save stack of the drawing walk *)

Lemma nesting_app (a b : list CanvasOp) (d : nat) :
  nesting (a ++ b) d
  = match nesting a d with
    | Some d' => nesting b d'
    | None => None
    end.
Proof.
  revert d. induction a as [|op a IH]; intros d; [reflexivity|].
  destruct op; cbn [nesting app]; try apply IH.
  destruct d; [reflexivity | apply IH].
Qed.

Lemma nesting_lift (a : list CanvasOp) (d d' k : nat) :
  nesting a d = Some d' -> nesting a (d + k) = Some (d' + k)%nat.
Proof.
  revert d. induction a as [|op a IH]; intros d; cbn [nesting].
  - by intros [= <-].
  - destruct op; try apply IH; try apply (IH (S d)).
    destruct d as [|d]; [discriminate|]. apply IH.
Qed.

Lemma balanced_nil : balanced [].
Proof. reflexivity. Qed.

Lemma balanced_app (a b : list CanvasOp) :
  balanced a -> balanced b -> balanced (a ++ b).
Proof. unfold balanced. intros Ha Hb. by rewrite nesting_app, Ha. Qed.

Lemma balanced_restore (a : list CanvasOp) (n : nat) :
  nesting a 0 = Some n -> balanced (a ++ replicate n OpRestore).
Proof.
  unfold balanced. intros Ha. rewrite nesting_app, Ha. clear Ha.
  induction n as [|n IH]; [reflexivity | exact IH].
Qed.

Lemma canvas_grows_refl (c : SkCanvas) : canvas_grows c c.
Proof.
  split; [reflexivity|]. exists []. by rewrite app_nil_r.
Qed.

Lemma canvas_grows_trans (c1 c2 c3 : SkCanvas) :
  canvas_grows c1 c2 -> canvas_grows c2 c3 -> canvas_grows c1 c3.
Proof.
  intros [Hn1 (a & Ha & Hba)] [Hn2 (b & Hb & Hbb)]. split; [congruence|].
  exists (a ++ b). rewrite Hb, Ha, app_assoc.
  split; [reflexivity | by apply balanced_app].
Qed.

(** A call that is neither a save nor a restore. *)
Lemma canvas_grows_emit (op : CanvasOp) (c : SkCanvas) :
  nesting [op] 0 = Some 0%nat -> canvas_grows c (emit op c).
Proof. intros Hop. split; [reflexivity|]. by exists [op]. Qed.

(** What is saved once and grows from there is balanced after
    [restoreToCount]. *)
Lemma canvas_grows_saved (p : option SkPaint) (c c1 : SkCanvas) :
  (1 <= saveCount c)%nat ->
  canvas_grows (saveLayer p c) c1 ->
  canvas_grows c (restoreToCount (saveCount c) c1).
Proof.
  intros Hc [Hn (a & Ha & Hba)]. cbn in Hn, Ha.
  split; [cbn; lia|].
  exists ([OpSaveLayer p] ++ a ++ replicate 1 OpRestore).
  cbn [restoreToCount ops]. rewrite Ha, Hn.
  replace (S (saveCount c) - Nat.max (saveCount c) 1)%nat with 1%nat by lia.
  split; [by rewrite <- !app_assoc|].
  rewrite app_assoc. apply balanced_restore.
  rewrite nesting_app. cbn [nesting]. apply (nesting_lift a 0 0 1), Hba.
Qed.

(** The same with a second layer saved on the way. *)
Lemma canvas_grows_saved_twice (p q : option SkPaint) (c c1 c2 : SkCanvas) :
  (1 <= saveCount c)%nat ->
  canvas_grows (saveLayer p c) c1 ->
  canvas_grows (saveLayer q c1) c2 ->
  canvas_grows c (restoreToCount (saveCount c) c2).
Proof.
  intros Hc [Hn1 (a & Ha & Hba)] [Hn2 (b & Hb & Hbb)]. cbn in Hn1, Ha, Hn2, Hb.
  split; [cbn; lia|].
  exists ([OpSaveLayer p] ++ a ++ [OpSaveLayer q] ++ b ++ replicate 2 OpRestore).
  cbn [restoreToCount ops]. rewrite Hb, Ha, Hn2, Hn1.
  replace (S (S (saveCount c)) - Nat.max (saveCount c) 1)%nat with 2%nat by lia.
  split; [by rewrite <- !app_assoc|].
  rewrite !app_assoc. apply balanced_restore. rewrite <- !app_assoc.
  rewrite nesting_app. cbn [nesting].
  pose proof (nesting_lift a 0 0 1 Hba) as Ha1. cbn [Nat.add] in Ha1.
  rewrite nesting_app, Ha1. cbn [nesting app].
  apply (nesting_lift b 0 0 2), Hbb.
Qed.

Section BalanceFacts.
Context `{SkMath}.
Variable palette : list SkColor.
Variable foregroundColor : SkColor.
Variable face : FT_Face.

Lemma draw_paint_grows (c c' : SkCanvas) (paint : FT_COLR_Paint) (ok : bool) :
  colrv1_draw_paint palette foregroundColor face c paint = (ok, c') ->
  canvas_grows c c'.
Proof.
  destruct paint; cbn [colrv1_draw_paint];
    try (intros [= <- <-]; apply canvas_grows_refl);
    try (destruct (colrv1_configure_skpaint _ _ _ _) as [[|] ?];
         intros [= <- <-];
         [by apply canvas_grows_emit | apply canvas_grows_refl]).
  destruct (generateFacePathCOLRv1 _ _); intros [= <- <-];
    [by apply canvas_grows_emit | apply canvas_grows_refl].
Qed.

Lemma draw_glyph_with_path_grows (c c' : SkCanvas)
    (glyphPaint fillPaint : FT_COLR_Paint) (ok : bool) :
  colrv1_draw_glyph_with_path palette foregroundColor face c glyphPaint
                              fillPaint = (ok, c') ->
  canvas_grows c c'.
Proof.
  unfold colrv1_draw_glyph_with_path.
  destruct (colrv1_configure_skpaint _ _ _ _) as [[|] ?]; cbn [negb];
    [|intros [= <- <-]; apply canvas_grows_refl].
  destruct glyphPaint; try (intros [= <- <-]; apply canvas_grows_refl).
  destruct (generateFacePathCOLRv1 _ _); intros [= <- <-];
    [by apply canvas_grows_emit | apply canvas_grows_refl].
Qed.

Lemma traverse_layers_grows w layers :
  balances w ->
  forall st ok st',
    (1 <= saveCount (canvas st))%nat ->
    traverse_layers w layers st = Some (ok, st') ->
    canvas_grows (canvas st) (canvas st').
Proof.
  intros Hw. induction layers as [|o layers IH]; intros st ok st' Hst Hrun;
    cbn [traverse_layers] in Hrun.
  - injection Hrun as <- <-. apply canvas_grows_refl.
  - destruct (w o st) as [[[|] st1]|] eqn:Ho; try discriminate.
    + pose proof (Hw _ _ _ _ Hst Ho) as H1.
      eapply canvas_grows_trans; [exact H1|].
      eapply IH; [|exact Hrun]. destruct H1 as [-> _]. exact Hst.
    + injection Hrun as <- <-. by eapply Hw.
Qed.

Lemma start_glyph_grows w glyphId rootTransform :
  balances w ->
  forall st ok st',
    (1 <= saveCount (canvas st))%nat ->
    colrv1_start_glyph_with face w glyphId rootTransform st = Some (ok, st') ->
    canvas_grows (canvas st) (canvas st').
Proof.
  intros Hw st ok st' Hst. unfold colrv1_start_glyph_with.
  destruct (FT_Get_Color_Glyph_Paint _ _ _);
    [|intros [= <- <-]; apply canvas_grows_refl].
  destruct (GetClipBoxPath _ _ _) as [|pt path]; intros Hrun.
  - by eapply Hw.
  - eapply canvas_grows_trans; [|eapply Hw; [|exact Hrun]; exact Hst].
    by apply canvas_grows_emit.
Qed.

Lemma traverse_paint_switch_grows w paint :
  balances w ->
  forall st ok st',
    (1 <= saveCount (canvas st))%nat ->
    traverse_paint_switch palette foregroundColor face w paint st
    = Some (ok, st') ->
    canvas_grows (canvas st) (canvas st').
Proof.
  intros Hw st ok st' Hst Hrun.
  destruct paint as [layers | child gid | gid | child aff | child tx ty
                   | child sx sy cx cy | child ang cx cy | child xs ys cx cy
                   | src mode back | col | cl q0 q1 q2 | cl c0 r0 c1 r1
                   | cl ctr a0 a1 | ];
    cbn [traverse_paint_switch] in Hrun;
    try (destruct (colrv1_draw_paint _ _ _ _ _) as [? ?] eqn:Hdraw;
         injection Hrun as <- <-; by apply draw_paint_grows in Hdraw);
    try (eapply canvas_grows_trans;
         [|eapply Hw; [|exact Hrun]; exact Hst];
         by apply canvas_grows_emit).
  - by eapply traverse_layers_grows.
  - destruct (FT_Get_Paint _ _);
      [|injection Hrun as <- <-; apply canvas_grows_refl].
    destruct (is_fill _).
    + destruct (colrv1_draw_glyph_with_path _ _ _ _ _ _) as [? ?] eqn:Hdraw.
      injection Hrun as <- <-. by apply draw_glyph_with_path_grows in Hdraw.
    + destruct (colrv1_draw_paint _ _ _ _ _) as [[|] c1] eqn:Hdraw;
        cbn [negb] in Hrun; apply draw_paint_grows in Hdraw.
      * eapply canvas_grows_trans; [exact Hdraw|].
        eapply (Hw _ (set_canvas c1 st)); [|exact Hrun].
        cbn. destruct Hdraw as [-> _]. exact Hst.
      * by injection Hrun as <- <-.
  - by eapply start_glyph_grows.
  - destruct (w back _) as [[[|] st1]|] eqn:Hback; try discriminate.
    + destruct (w src _) as [[ok2 st2]|] eqn:Hsrc; [|discriminate].
      injection Hrun as <- <-.
      apply Hw in Hback; [|cbn; lia].
      apply Hw in Hsrc; [|cbn; destruct Hback as [-> _]; cbn; lia].
      cbn in Hback, Hsrc |- *.
      exact (canvas_grows_saved_twice _ _ _ _ _ Hst Hback Hsrc).
    + injection Hrun as <- <-. apply Hw in Hback; [|cbn; lia].
      cbn in Hback |- *.
      exact (canvas_grows_saved _ _ _ Hst Hback).
  - injection Hrun as <- <-. apply canvas_grows_refl.
Qed.

Lemma canvas_grows_save (c c1 : SkCanvas) :
  (1 <= saveCount c)%nat ->
  canvas_grows (save c) c1 ->
  canvas_grows c (restoreToCount (saveCount c) c1).
Proof.
  intros Hc [Hn (a & Ha & Hba)]. cbn in Hn, Ha.
  split; [cbn; lia|].
  exists ([OpSave] ++ a ++ replicate 1 OpRestore).
  cbn [restoreToCount ops]. rewrite Ha, Hn.
  replace (S (saveCount c) - Nat.max (saveCount c) 1)%nat with 1%nat by lia.
  split; [by rewrite <- !app_assoc|].
  rewrite app_assoc. apply balanced_restore.
  rewrite nesting_app. cbn [nesting]. apply (nesting_lift a 0 0 1), Hba.
Qed.

Lemma traverse_paint_balances depth :
  balances (colrv1_traverse_paint palette foregroundColor face depth).
Proof.
  induction depth as [|depth IH]; intros o st ok st' Hst Hrun;
    cbn [colrv1_traverse_paint] in Hrun; [discriminate|].
  destruct (decide (o ∈ activePaints st));
    [injection Hrun as <- <-; apply canvas_grows_refl|].
  destruct (FT_Get_Paint face o) as [paint|];
    [|injection Hrun as <- <-; apply canvas_grows_refl].
  destruct (traverse_paint_switch _ _ _ _ _ _) as [[ok1 st1]|] eqn:Hsw;
    [|discriminate].
  injection Hrun as <- <-.
  apply (traverse_paint_switch_grows _ _ IH) in Hsw; [|cbn; lia].
  cbn in Hsw |- *. by apply canvas_grows_save.
Qed.
End BalanceFacts.

(** X1. Every call of [colrv1_traverse_paint] that returns, with true or
    with false, leaves the save count of the canvas as it found it: the
    calls it has added to the canvas restore every level they save (the
    [save()] of its [SkAutoCanvasRestore] and the layers of a composite
    paint) and never restore a level of the caller. *)
Theorem traverse_paint_restores_canvas `{SkMath}
    (palette : list SkColor) (foregroundColor : SkColor) (face : FT_Face)
    (depth : nat) (opaquePaint : FT_OpaquePaint)
    (st st' : RenderState) (ok : bool) :
  (1 <= saveCount (canvas st))%nat ->
  colrv1_traverse_paint palette foregroundColor face depth opaquePaint st
  = Some (ok, st') ->
  saveCount (canvas st') = saveCount (canvas st) /\
  exists new : list CanvasOp,
    ops (canvas st') = ops (canvas st) ++ new /\
    nesting new 0 = Some 0%nat.
Proof. intros Hst Hrun. by eapply traverse_paint_balances. Qed.

Lemma traverse_paint_restores_canvas_witness :
  (1 <= saveCount (canvas initial_render_state))%nat /\
  exists st',
    @colrv1_traverse_paint Sample.math Sample.palette Sample.foreground
      Example.blended 4 (Sample.handle 1) initial_render_state
    = Some (true, st') /\
    saveCount (canvas st') = 1%nat /\
    exists new : list CanvasOp,
      ops (canvas st') = [] ++ new /\ nesting new 0 = Some 0%nat.
Proof.
  split; [cbn; lia|].
  destruct (@colrv1_traverse_paint Sample.math Sample.palette
              Sample.foreground Example.blended 4 (Sample.handle 1)
              initial_render_state) as [[[|] st']|] eqn:Hrun;
    try (vm_compute in Hrun; discriminate Hrun).
  exists st'. split; [reflexivity|].
  apply (@traverse_paint_restores_canvas Sample.math Sample.palette
           Sample.foreground Example.blended 4 (Sample.handle 1)
           initial_render_state st' true); [cbn; lia | exact Hrun].
Defined.

(** X2. On every face, with or without cycles among its paints,
    [drawCOLRv1Glyph] returns once the walk is allowed a depth above the
    number of paints of the face; whether it has drawn the glyph or
    failed, the canvas has kept its save count, and the calls it has
    received since restore exactly the levels they save. *)
Theorem drawCOLRv1Glyph_returns_balanced `{SkMath} (isSubpixel : bool)
    (fForegroundColor : SkColor) (face : FT_Face) (glyph : SkGlyph)
    (loadGlyphFlags : Z) (palette : list SkColor) (c : SkCanvas) :
  (1 <= saveCount c)%nat ->
  exists (haveLayers : bool) (c' : SkCanvas),
    drawCOLRv1Glyph isSubpixel fForegroundColor
      (S (size (dom (paints face)))) face glyph loadGlyphFlags palette c
    = Some (haveLayers, c') /\
    saveCount c' = saveCount c /\
    exists new : list CanvasOp,
      ops c' = ops c ++ new /\ nesting new 0 = Some 0%nat.
Proof.
  intros Hst. unfold drawCOLRv1Glyph. cbv zeta.
  set (c0 := if isSubpixel then _ else _).
  assert (Hc0 : canvas_grows c c0).
  { subst c0. destruct isSubpixel; [|apply canvas_grows_refl].
    by apply canvas_grows_emit. }
  set (st0 := {| canvas := c0; activePaints := ∅ |}).
  assert (Hst0 : (1 <= saveCount (canvas st0))%nat)
    by (destruct Hc0 as [Hn _]; cbn; lia).
  destruct (start_glyph_returns face
              (colrv1_traverse_paint palette fForegroundColor face
                 (S (size (dom (paints face)))))
              (getGlyphID glyph) FT_COLOR_INCLUDE_ROOT_TRANSFORM ∅)
    with (st := st0) as [[haveLayers st'] Hrun].
  - intros o st Hact. apply traverse_paint_returns.
    rewrite Hact, difference_empty_L. lia.
  - reflexivity.
  - unfold colrv1_start_glyph. rewrite Hrun.
    exists haveLayers, (canvas st'). split; [reflexivity|].
    pose proof (start_glyph_grows face _ _ _
                  (traverse_paint_balances palette fForegroundColor face _)
                  st0 haveLayers st' Hst0 Hrun) as Hgrow.
    exact (canvas_grows_trans _ _ _ Hc0 Hgrow).
Qed.

(** The property holds of the blended sample glyph on a fresh canvas. *)
Lemma drawCOLRv1Glyph_returns_balanced_witness :
  exists (haveLayers : bool) (c' : SkCanvas),
    @drawCOLRv1Glyph Sample.math true Sample.foreground
      (S (size (dom (paints Example.blended)))) Example.blended
      Example.glyph5 0 Sample.palette initial_canvas
    = Some (haveLayers, c') /\
    saveCount c' = 1%nat /\
    exists new : list CanvasOp,
      ops c' = [] ++ new /\ nesting new 0 = Some 0%nat.
Proof.
  apply (@drawCOLRv1Glyph_returns_balanced Sample.math true Sample.foreground
           Example.blended Example.glyph5 0 Sample.palette initial_canvas).
  cbn. lia.
Defined.

(** ** The running matrix of the bounds walk *)

Lemma bounds_grow_refl (st : BoundsState) : bounds_grow st st.
Proof. exists []. by rewrite app_nil_r. Qed.

Lemma bounds_grow_trans (st1 st2 st3 : BoundsState) :
  ctm st1 `prefix_of` ctm st2 ->
  bounds_grow st1 st2 -> bounds_grow st2 st3 -> bounds_grow st1 st3.
Proof.
  intros Hpre (a & Ha & Hfa) (b & Hb & Hfb). exists (a ++ b).
  rewrite Hb, Ha, app_assoc. split; [reflexivity|].
  apply Forall_app. split; [exact Hfa|].
  eapply Forall_impl; [exact Hfb|]. intros mp Hmp. by etrans.
Qed.

Section CtmFacts.
Context `{SkMath}.
Variable face : FT_Face.

Lemma traverse_layers_restores_ctm w layers :
  restores_ctm w ->
  forall st ok st',
    traverse_layers w layers st = Some (ok, st') ->
    ctm st' = ctm st /\ bounds_grow st st'.
Proof.
  intros Hw. induction layers as [|o layers IH]; intros st ok st' Hrun;
    cbn [traverse_layers] in Hrun.
  - injection Hrun as <- <-. split; [reflexivity | apply bounds_grow_refl].
  - destruct (w o st) as [[[|] st1]|] eqn:Ho; try discriminate.
    + destruct (Hw _ _ _ _ Ho) as [Hc1 Hg1].
      destruct (IH _ _ _ Hrun) as [Hc2 Hg2].
      split; [congruence|].
      eapply bounds_grow_trans; [|exact Hg1|exact Hg2]. by rewrite Hc1.
    + injection Hrun as <- <-. by eapply Hw.
Qed.

(** The [switch] keeps what was joined before and joins under matrices
    that begin with the matrix it was entered with. *)
Lemma traverse_paint_bounds_switch_grows w paint :
  restores_ctm w ->
  forall st ok st',
    traverse_paint_bounds_switch face w paint st = Some (ok, st') ->
    bounds_grow st st'.
Proof.
  intros Hw st ok st' Hrun.
  assert (Hchild : forall child t,
            w child (set_ctm (ctm st ++ t) st) = Some (ok, st') ->
            bounds_grow st st').
  { intros child t Hc. apply Hw in Hc as [_ (new & Hnew & Hall)].
    exists new. split; [exact Hnew|].
    eapply Forall_impl; [exact Hall|]. intros mp Hmp. cbn in Hmp.
    etrans; [|exact Hmp]. by apply prefix_app_r. }
  destruct paint as [layers | child gid | gid | child aff | child tx ty
                   | child sx sy cx cy | child ang cx cy | child xs ys cx cy
                   | src mode back | col | cl q0 q1 q2 | cl c0 r0 c1 r1
                   | cl ctr a0 a1 | ];
    cbn [traverse_paint_bounds_switch] in Hrun;
    try (injection Hrun as <- <-; apply bounds_grow_refl);
    try (by eapply Hchild).
  - by eapply traverse_layers_restores_ctm.
  - destruct (generateFacePathCOLRv1 _ _) as [path|];
      injection Hrun as <- <-; [|apply bounds_grow_refl].
    exists [(ctm st, path)]. split; [reflexivity|].
    by apply Forall_singleton.
  - unfold colrv1_start_glyph_bounds_with in Hrun.
    destruct (FT_Get_Color_Glyph_Paint _ _ _);
      [by eapply Hw | injection Hrun as <- <-; apply bounds_grow_refl].
  - destruct (w back st) as [[[|] st1]|] eqn:Hback; try discriminate.
    + destruct (Hw _ _ _ _ Hback) as [Hc1 Hg1].
      destruct (Hw _ _ _ _ Hrun) as [Hc2 Hg2].
      eapply bounds_grow_trans; [|exact Hg1|exact Hg2]. by rewrite Hc1.
    + injection Hrun as <- <-. by eapply Hw.
Qed.

Lemma traverse_paint_bounds_restores depth :
  restores_ctm (colrv1_traverse_paint_bounds face depth).
Proof.
  induction depth as [|depth IH]; intros o st ok st' Hrun;
    cbn [colrv1_traverse_paint_bounds] in Hrun; [discriminate|].
  destruct (decide (o ∈ activePaintsB st));
    [injection Hrun as <- <-; split; [done | apply bounds_grow_refl]|].
  destruct (FT_Get_Paint face o) as [paint|];
    [|injection Hrun as <- <-; split; [done|];
      exists []; cbn; by rewrite app_nil_r].
  destruct (traverse_paint_bounds_switch _ _ _ _) as [[ok1 st1]|] eqn:Hsw;
    [|discriminate].
  injection Hrun as <- <-.
  apply (traverse_paint_bounds_switch_grows _ _ IH) in Hsw.
  split; [reflexivity | exact Hsw].
Qed.

(** *** Drawing and bounds *)

Lemma traverse_layers_covered w wB layers :
  keeps_active activePaints w -> keeps_active activePaintsB wB ->
  covered_by w wB ->
  forall st st' stB,
    activePaintsB stB = activePaints st ->
    traverse_layers w layers st = Some (true, st') ->
    exists stB', traverse_layers wB layers stB = Some (true, stB').
Proof.
  intros Kw KwB Hcov.
  induction layers as [|o layers IH]; intros st st' stB Hact Hrun;
    cbn [traverse_layers] in Hrun |- *; [eauto|].
  destruct (w o st) as [[[|] st1]|] eqn:Ho; try discriminate.
  destruct (Hcov _ _ _ _ Hact Ho) as [stB1 HoB]. rewrite HoB.
  apply (IH st1 st' stB1); [|exact Hrun].
  rewrite (KwB _ _ _ _ HoB), (Kw _ _ _ _ Ho). exact Hact.
Qed.

Lemma draw_paint_glyph_path c c' child gid palette foregroundColor :
  colrv1_draw_paint palette foregroundColor face c (PaintGlyph child gid)
  = (true, c') ->
  is_Some (generateFacePathCOLRv1 face gid).
Proof.
  cbn [colrv1_draw_paint].
  destruct (generateFacePathCOLRv1 face gid); [eauto | discriminate].
Qed.

Lemma draw_glyph_with_path_path c c' child gid fill palette foregroundColor :
  colrv1_draw_glyph_with_path palette foregroundColor face c
                              (PaintGlyph child gid) fill = (true, c') ->
  is_Some (generateFacePathCOLRv1 face gid).
Proof.
  unfold colrv1_draw_glyph_with_path.
  destruct (colrv1_configure_skpaint _ _ _ _) as [[|] ?]; cbn [negb];
    [|discriminate].
  destruct (generateFacePathCOLRv1 face gid); [eauto | discriminate].
Qed.

Lemma traverse_paint_switch_covered palette foregroundColor w wB paint :
  keeps_active activePaints w -> keeps_active activePaintsB wB ->
  covered_by w wB ->
  forall st st' stB,
    activePaintsB stB = activePaints st ->
    traverse_paint_switch palette foregroundColor face w paint st
    = Some (true, st') ->
    exists stB', traverse_paint_bounds_switch face wB paint stB
                 = Some (true, stB').
Proof.
  intros Kw KwB Hcov st st' stB Hact Hrun.
  destruct paint as [layers | child gid | gid | child aff | child tx ty
                   | child sx sy cx cy | child ang cx cy | child xs ys cx cy
                   | src mode back | col | cl q0 q1 q2 | cl c0 r0 c1 r1
                   | cl ctr a0 a1 | ];
    cbn [traverse_paint_switch] in Hrun;
    cbn [traverse_paint_bounds_switch];
    try (by eauto);
    try (by eapply Hcov; [|exact Hrun]).
  - by eapply traverse_layers_covered.
  - destruct (FT_Get_Paint _ _) as [fill|]; [|discriminate].
    assert (Hpath : is_Some (generateFacePathCOLRv1 face gid)).
    { destruct (is_fill fill).
      - destruct (colrv1_draw_glyph_with_path _ _ _ _ _ _) as [ok c1] eqn:Hd.
        injection Hrun as -> _. by eapply draw_glyph_with_path_path.
      - destruct (colrv1_draw_paint _ _ _ _ _) as [[|] c1] eqn:Hd;
          cbn [negb] in Hrun; [|discriminate].
        by eapply draw_paint_glyph_path. }
    destruct Hpath as [path ->]. eauto.
  - unfold colrv1_start_glyph_with in Hrun.
    unfold colrv1_start_glyph_bounds_with.
    destruct (FT_Get_Color_Glyph_Paint _ _ _); [|discriminate].
    eapply Hcov; [|exact Hrun]. by destruct (GetClipBoxPath _ _ _).
  - destruct (w back _) as [[[|] st1]|] eqn:Hback; try discriminate.
    destruct (w src _) as [[ok2 st2]|] eqn:Hsrc; [|discriminate].
    injection Hrun as -> _.
    destruct (Hcov back (with_canvas (saveLayer None) st) st1 stB Hact Hback)
      as [stB1 HbackB].
    rewrite HbackB.
    eapply Hcov; [|exact Hsrc].
    rewrite (KwB _ _ _ _ HbackB). cbn.
    rewrite (Kw _ _ _ _ Hback). exact Hact.
Qed.

Lemma traverse_paint_covered palette foregroundColor depth :
  covered_by (colrv1_traverse_paint palette foregroundColor face depth)
             (colrv1_traverse_paint_bounds face depth).
Proof.
  induction depth as [|depth IH]; intros o st st' stB Hact Hrun;
    cbn [colrv1_traverse_paint] in Hrun; [discriminate|].
  cbn [colrv1_traverse_paint_bounds].
  destruct (decide (o ∈ activePaints st)); [discriminate|].
  destruct (decide (o ∈ activePaintsB stB)) as [Hin|_];
    [by rewrite Hact in Hin|].
  destruct (FT_Get_Paint face o) as [paint|]; [|discriminate].
  destruct (traverse_paint_switch _ _ _ _ _ _) as [[ok1 st1]|] eqn:Hsw;
    [|discriminate].
  injection Hrun as -> _.
  eapply (traverse_paint_switch_covered _ _ _ _ _
            (traverse_paint_keeps _ _ _ depth)
            (traverse_paint_bounds_keeps _ depth) IH
            _ _ (add_activeB o stB)) in Hsw as [stB1 ->]; [eauto|].
  cbn. by rewrite Hact.
Qed.
End CtmFacts.

(** X3. Every call of [colrv1_traverse_paint_bounds] that returns hands the
    running matrix back as it got it, keeps the outlines joined to the
    bounds before the call, and has joined each further outline under a
    matrix that is the caller's matrix with the transforms of the paints
    below pre-concatenated. *)
Theorem traverse_paint_bounds_restores_ctm `{SkMath} (face : FT_Face)
    (depth : nat) (opaquePaint : FT_OpaquePaint)
    (st st' : BoundsState) (ok : bool) :
  colrv1_traverse_paint_bounds face depth opaquePaint st = Some (ok, st') ->
  ctm st' = ctm st /\
  exists new : list (SkMatrix * SkPath),
    bounds st' = bounds st ++ new /\
    Forall (fun mp => ctm st `prefix_of` mp.1) new.
Proof. intros Hrun. by eapply traverse_paint_bounds_restores. Qed.

Lemma traverse_paint_bounds_restores_ctm_witness :
  exists st',
    @colrv1_traverse_paint_bounds Sample.math Example.blended 4
      (Sample.handle 1) initial_bounds_state = Some (true, st') /\
    ctm st' = [] /\
    exists new : list (SkMatrix * SkPath),
      bounds st' = [] ++ new /\
      Forall (fun mp => [] `prefix_of` mp.1) new.
Proof.
  destruct (@colrv1_traverse_paint_bounds Sample.math Example.blended 4
              (Sample.handle 1) initial_bounds_state)
    as [[[|] st']|] eqn:Hrun;
    try (vm_compute in Hrun; discriminate Hrun).
  exists st'. split; [reflexivity|].
  exact (@traverse_paint_bounds_restores_ctm Sample.math Example.blended 4
           (Sample.handle 1) initial_bounds_state st' true Hrun).
Defined.

(** X4. Whenever the drawing walk succeeds on a paint, the bounds walk
    succeeds on it too, from every state with the same active paints and
    within the same depth: what makes the bounds of a colour glyph fail
    makes its drawing fail. *)
Theorem drawing_success_gives_bounds `{SkMath}
    (palette : list SkColor) (foregroundColor : SkColor) (face : FT_Face)
    (depth : nat) (opaquePaint : FT_OpaquePaint)
    (st st' : RenderState) (stB : BoundsState) :
  activePaintsB stB = activePaints st ->
  colrv1_traverse_paint palette foregroundColor face depth opaquePaint st
  = Some (true, st') ->
  exists stB',
    colrv1_traverse_paint_bounds face depth opaquePaint stB
    = Some (true, stB').
Proof. intros Hact Hrun. by eapply traverse_paint_covered. Qed.

Lemma drawing_success_gives_bounds_witness :
  activePaintsB initial_bounds_state = activePaints initial_render_state /\
  exists st' stB',
    @colrv1_traverse_paint Sample.math Sample.palette Sample.foreground
      Example.blended 4 (Sample.handle 1) initial_render_state
    = Some (true, st') /\
    @colrv1_traverse_paint_bounds Sample.math Example.blended 4
      (Sample.handle 1) initial_bounds_state = Some (true, stB').
Proof.
  split; [reflexivity|].
  destruct (@colrv1_traverse_paint Sample.math Sample.palette
              Sample.foreground Example.blended 4 (Sample.handle 1)
              initial_render_state) as [[[|] st']|] eqn:Hrun;
    try (vm_compute in Hrun; discriminate Hrun).
  destruct (@drawing_success_gives_bounds Sample.math Sample.palette
              Sample.foreground Example.blended 4 (Sample.handle 1)
              initial_render_state st' initial_bounds_state eq_refl Hrun)
    as [stB' HB].
  exists st', stB'. split; [reflexivity | exact HB].
Defined.

(** ** The outline decomposer *)

Lemma contours_app (a b : list SkPathCall) (s : ContourState) :
  contours (a ++ b) s
  = match contours a s with
    | Some s' => contours b s'
    | None => None
    end.
Proof.
  revert s. induction a as [|c a IH]; intros s; [reflexivity|].
  cbn [contours app]. destruct (contour_step s c); [apply IH | reflexivity].
Qed.

Lemma sink_ok_init path : sink_ok path (SkFTGeometrySink.init path).
Proof. exists []. by rewrite app_nil_r. Qed.

(** A segment keeps the invariant: [goingTo] opens the contour when
    none is open, and the segment follows. *)
Lemma sink_ok_segment path self pt call :
  contour_step Moved call = Some InContour ->
  contour_step InContour call = Some InContour ->
  sink_ok path self ->
  sink_ok path (SkFTGeometrySink.emit call (SkFTGeometrySink.goingTo pt self)).
Proof.
  intros Hm Hi (new & Hnew & Hc). unfold sink_ok, sink_state in *.
  destruct self as [p [|] cur]; cbn in *.
  - exists (new ++ [call]). rewrite Hnew, app_assoc. split; [done|].
    rewrite contours_app, Hc. cbn. by rewrite Hi.
  - eexists (new ++ [_; call]). rewrite Hnew, <- !app_assoc.
    split; [reflexivity|].
    rewrite contours_app, Hc. cbn. by rewrite Hm.
Qed.

Lemma Funcs_ok path call self :
  sink_ok path self ->
  exists self',
    SkFTGeometrySink.Funcs call self = (0, self') /\ sink_ok path self'.
Proof.
  intros Hok. destruct call as [pt | pt | pt0 pt1 | pt0 pt1 pt2];
    cbn [SkFTGeometrySink.Funcs].
  - unfold SkFTGeometrySink.Move. eexists. split; [reflexivity|].
    destruct Hok as (new & Hnew & Hc). unfold sink_ok, sink_state in *.
    destruct self as [p [|] cur]; cbn in *.
    + exists (new ++ [PathClose]). rewrite Hnew, app_assoc. split; [done|].
      by rewrite contours_app, Hc.
    + by exists new.
  - unfold SkFTGeometrySink.Line.
    destruct (SkFTGeometrySink.currentIsNot _ _); eexists;
      (split; [reflexivity|]); [by apply sink_ok_segment | done].
  - unfold SkFTGeometrySink.Quad.
    destruct (_ || _); eexists;
      (split; [reflexivity|]); [by apply sink_ok_segment | done].
  - unfold SkFTGeometrySink.Cubic.
    destruct (_ || _); eexists;
      (split; [reflexivity|]); [by apply sink_ok_segment | done].
Qed.

Lemma decompose_calls_ok path calls self :
  sink_ok path self ->
  exists self',
    decompose_calls SkFTGeometrySink.Funcs calls self = (0, self') /\
    sink_ok path self'.
Proof.
  revert self. induction calls as [|call calls IH]; intros self Hok;
    cbn [decompose_calls]; [eauto|].
  destruct (Funcs_ok path call self Hok) as (self1 & -> & Hok1).
  cbn. by apply IH.
Qed.

(** A sink that stands at [pt] with no contour open is left as it is by
    segments that stay at [pt]. *)
Lemma decompose_calls_still calls path pt :
  Forall (fun call => Forall (fun q => q = pt) (call_points call)) calls ->
  decompose_calls SkFTGeometrySink.Funcs calls
                  (SkFTGeometrySink.Make path false pt)
  = (0, SkFTGeometrySink.Make path false pt).
Proof.
  induction 1 as [|call calls Hcall _ IH]; [reflexivity|].
  cbn [decompose_calls].
  assert (Hstep : SkFTGeometrySink.Funcs call
                    (SkFTGeometrySink.Make path false pt)
                  = (0, SkFTGeometrySink.Make path false pt)).
  { destruct pt as [px py].
    destruct call as [q | q | q0 q1 | q0 q1 q2]; cbn in Hcall;
      repeat match goal with
             | H : Forall _ (_ :: _) |- _ =>
                 apply Forall_cons in H as [-> H]
             end;
      unfold SkFTGeometrySink.Funcs, SkFTGeometrySink.Move,
        SkFTGeometrySink.Line, SkFTGeometrySink.Quad, SkFTGeometrySink.Cubic,
        SkFTGeometrySink.currentIsNot;
      cbn -[Z.eqb]; rewrite ?Z.eqb_refl; reflexivity. }
  rewrite Hstep. cbn. exact IH.
Qed.

Lemma generateGlyphPathStatic_body (glyph : FT_GlyphSlot)
    (path path' : list SkPathCall) :
  generateGlyphPathStatic glyph path = (true, path') ->
  exists body,
    whole_contours body /\
    (path' = path ++ body \/ path' = path ++ body ++ [PathClose]).
Proof.
  unfold generateGlyphPathStatic, FT_Outline_Decompose.
  destruct (decompose_calls_ok path (segments (outline glyph))
              (SkFTGeometrySink.init path) (sink_ok_init path))
    as (self & Hrun & new & Hnew & Hc).
  destruct (format glyph); try discriminate.
  rewrite Hrun. cbn [Z.eqb].
  destruct (outline_error (outline glyph) =? 0); [|discriminate].
  intros [= <-]. rewrite Hnew.
  unfold sink_state in Hc. destruct (SkFTGeometrySink.fStarted self).
  - exists (new ++ [PathClose]). split.
    + unfold whole_contours. by rewrite contours_app, Hc.
    + left. by rewrite app_assoc.
  - exists new. split; [exact Hc|]. right. by rewrite app_assoc.
Qed.

(** X5. [generateGlyphPathStatic] fails exactly when the glyph slot holds no
    outline or FreeType reports an error for the outline, and it then
    empties the path.  When it succeeds, what it has added to the path is
    a sequence of whole contours, each a [moveTo], one segment or more
    and a [close()], followed by one more [close()] when the outline ends
    on a contour without a segment. *)
Theorem generateGlyphPathStatic_contours (glyph : FT_GlyphSlot)
    (path path' : list SkPathCall) (ok : bool) :
  generateGlyphPathStatic glyph path = (ok, path') ->
  (ok = true <->
   format glyph = FT_GLYPH_FORMAT_OUTLINE /\
   outline_error (outline glyph) = 0) /\
  (ok = false -> path' = []) /\
  (ok = true ->
   exists body,
     whole_contours body /\
     (path' = path ++ body \/ path' = path ++ body ++ [PathClose])).
Proof.
  intros Hrun. split; [|split].
  - revert Hrun. unfold generateGlyphPathStatic, FT_Outline_Decompose.
    destruct (decompose_calls_ok path (segments (outline glyph))
                (SkFTGeometrySink.init path) (sink_ok_init path))
      as (self & -> & _).
    cbn [Z.eqb].
    destruct (format glyph);
      try (intros [= <- <-]; split; [done | by intros [? _]]).
    destruct (Z.eqb_spec (outline_error (outline glyph)) 0);
      intros [= <- <-]; split; try done. by intros [_ ?].
  - intros ->. revert Hrun.
    unfold generateGlyphPathStatic, FT_Outline_Decompose.
    destruct (decompose_calls _ _ _) as [error self].
    destruct (format glyph); try (by intros [= <-]).
    destruct (error =? 0) eqn:He; cbn -[Z.eqb];
      [|rewrite He; by intros [= <-]].
    destruct (outline_error (outline glyph) =? 0); intros Hres;
      [discriminate Hres|].
    by injection Hres as <-.
  - intros ->. by apply (generateGlyphPathStatic_body glyph).
Qed.

Lemma generateGlyphPathStatic_contours_witness :
  exists path',
    generateGlyphPathStatic (Example.slot Example.triangle) [] = (true, path') /\
    exists body,
      whole_contours body /\
      (path' = [] ++ body \/ path' = [] ++ body ++ [PathClose]).
Proof.
  destruct (generateGlyphPathStatic (Example.slot Example.triangle) [])
    as [[|] path'] eqn:Hrun; [|vm_compute in Hrun; discriminate Hrun].
  exists path'. split; [reflexivity|].
  destruct (generateGlyphPathStatic_contours _ _ _ _ Hrun) as (_ & _ & Hbody).
  by apply Hbody.
Defined.

(** X6. Segments that do not move are left out, with the [moveTo] of their
    contour: for an outline that FreeType reports as a [move_to] followed
    by segments all of whose points are the point of the [move_to],
    [generateGlyphPathStatic] adds nothing to the path but its final
    [close()]. *)
Theorem generateGlyphPathStatic_still (glyph : FT_GlyphSlot)
    (pt : FT_Vector) (calls : list FT_Outline_Call)
    (path : list SkPathCall) :
  format glyph = FT_GLYPH_FORMAT_OUTLINE ->
  outline_error (outline glyph) = 0 ->
  segments (outline glyph) = move_to pt :: calls ->
  Forall (fun call => Forall (fun q => q = pt) (call_points call)) calls ->
  generateGlyphPathStatic glyph path = (true, path ++ [PathClose]).
Proof.
  intros Hformat Herr Hseg Hstill.
  unfold generateGlyphPathStatic, FT_Outline_Decompose.
  rewrite Hformat, Hseg, Herr. cbn [decompose_calls SkFTGeometrySink.Funcs].
  unfold SkFTGeometrySink.Move, SkFTGeometrySink.init.
  cbn [SkFTGeometrySink.fStarted SkFTGeometrySink.fPath Z.eqb].
  by rewrite decompose_calls_still.
Qed.

Lemma generateGlyphPathStatic_still_witness :
  generateGlyphPathStatic (Example.slot Example.dot) [] = (true, [PathClose]).
Proof.
  apply (generateGlyphPathStatic_still (Example.slot Example.dot)
           (Sample.vec 64 64)
           [line_to (Sample.vec 64 64);
            conic_to (Sample.vec 64 64) (Sample.vec 64 64)] []);
    try reflexivity.
  repeat (apply Forall_cons_2; [repeat constructor|]). apply Forall_nil_2.
Defined.

(** ** Load flags *)

Lemma load_flags_bits (f : Z) (i : Z) :
  0 <= f -> 0 <= i ->
  Z.testbit (Z.land (Z.lor f FT_LOAD_NO_BITMAP) (Z.lnot FT_LOAD_RENDER)
             mod 2 ^ 32) i
  = if i =? 2 then false
    else if i =? 3 then (i <? 32)
    else Z.testbit f i && (i <? 32).
Proof.
  intros Hf Hi.
  rewrite <- Z.land_ones by lia.
  rewrite !Z.land_spec, Z.lor_spec, Z.lnot_spec, Z.testbit_ones_nonneg by lia.
  unfold FT_LOAD_NO_BITMAP, FT_LOAD_RENDER.
  rewrite !Z.shiftl_1_l, !Z.pow2_bits_eqb by lia.
  destruct (Z.ltb_spec i 32), (Z.eqb_spec i 2), (Z.eqb_spec i 3);
    destruct (Z.eqb_spec 3 i), (Z.eqb_spec 2 i); try lia;
    cbn; rewrite ?andb_true_r, ?andb_false_r, ?orb_false_r, ?orb_true_r;
    reflexivity.
Qed.

(** X7. [generateFacePathStatic] asks FreeType for the outline whatever the
    caller says about bitmaps and rendering: two flag words that differ
    only in [FT_LOAD_RENDER] and [FT_LOAD_NO_BITMAP] give the same result
    and the same path. *)
Theorem generateFacePathStatic_flags (face : FT_OutlineFace) (glyphID : Z)
    (flags1 flags2 : Z) (path : list SkPathCall) :
  0 <= flags1 -> 0 <= flags2 ->
  (forall i, 0 <= i -> i <> 2 -> i <> 3 ->
             Z.testbit flags1 i = Z.testbit flags2 i) ->
  generateFacePathStatic face glyphID flags1 path
  = generateFacePathStatic face glyphID flags2 path.
Proof.
  intros H1 H2 Hbits. unfold generateFacePathStatic.
  replace (Z.land (Z.lor flags1 FT_LOAD_NO_BITMAP) (Z.lnot FT_LOAD_RENDER)
           mod 2 ^ 32)
    with (Z.land (Z.lor flags2 FT_LOAD_NO_BITMAP) (Z.lnot FT_LOAD_RENDER)
          mod 2 ^ 32); [reflexivity|].
  apply Z.bits_inj'. intros i Hi. rewrite !load_flags_bits by lia.
  destruct (Z.eqb_spec i 2); [reflexivity|].
  destruct (Z.eqb_spec i 3); [reflexivity|].
  by rewrite Hbits.
Qed.

Lemma generateFacePathStatic_flags_witness :
  generateFacePathStatic Example.outlines 1 0 []
  = generateFacePathStatic Example.outlines 1 12 [].
Proof.
  apply (generateFacePathStatic_flags Example.outlines 1 0 12 []);
    [lia | lia |].
  intros i Hi N2 N3. change 12 with (Z.lor (Z.shiftl 1 2) (Z.shiftl 1 3)).
  rewrite Z.bits_0, Z.lor_spec, !Z.shiftl_1_l, !Z.pow2_bits_eqb by lia.
  destruct (Z.eqb_spec 2 i), (Z.eqb_spec 3 i); first [lia | reflexivity].
Defined.

(** ** COLRv0 glyphs *)

Lemma draw_layers_spec (face : FT_OutlineFace) (fForegroundColor : SkColor)
    (loadGlyphFlags : Z) (palette : list SkColor) (layers : list (Z * Z))
    (haveLayers : bool) (paint : SkPaint) (canvas : list CanvasCall) :
  fShader paint = None -> fBlendMode paint = kSrcOver ->
  fAntiAlias paint = (Z.land loadGlyphFlags FT_LOAD_TARGET_MONO =? 0) ->
  draw_layers face fForegroundColor loadGlyphFlags palette layers haveLayers
              paint canvas
  = (haveLayers || bool_decide (layers <> []),
     canvas ++ omap (layer_call face fForegroundColor loadGlyphFlags palette)
                    layers).
Proof.
  revert haveLayers paint canvas.
  induction layers as [|[g c] layers IH]; intros haveLayers paint canvas
    Hshader Hblend Haa; cbn [draw_layers].
  - by rewrite orb_false_r, app_nil_r.
  - assert (Hcons : forall f : Z * Z -> option CanvasCall,
              omap f ((g, c) :: layers)
              = match f (g, c) with
                | Some call => call :: omap f layers
                | None => omap f layers
                end) by reflexivity.
    rewrite Hcons. unfold layer_call at 1. cbn [fst snd].
    assert (Hpaint :
      (if c =? 0xFFFF then setColor fForegroundColor paint
       else setColor (palette !!! Z.to_nat c) paint)
      = setColor (layer_color fForegroundColor palette c)
          (setAntiAlias (Z.land loadGlyphFlags FT_LOAD_TARGET_MONO =? 0)
                        SkPaint_default)).
    { unfold layer_color, setColor, setAntiAlias. cbn.
      rewrite Hshader, Hblend, Haa. by destruct (c =? 0xFFFF). }
    rewrite Hpaint.
    destruct (generateFacePath face g loadGlyphFlags []) as [[|] path];
      rewrite IH by done; rewrite orb_true_r; cbn;
      by rewrite <- ?app_assoc.
Qed.

(** X8. [drawCOLRv0Glyph] returns true exactly when the glyph has a layer.
    A layer whose outline cannot be generated is left out and stops
    nothing: the other layers are drawn in their order, each with the
    colour of its own index (the foreground colour for 0xFFFF), after
    the translation of a subpixel glyph. *)
Theorem drawCOLRv0Glyph_layers (isSubpixel : bool) (fForegroundColor : SkColor)
    (face : FT_OutlineFace) (glyph : SkGlyph) (loadGlyphFlags : Z)
    (palette : list SkColor) (canvas : list CanvasCall) :
  drawCOLRv0Glyph isSubpixel fForegroundColor face glyph loadGlyphFlags
                  palette canvas
  = (bool_decide (color_glyph_layers face (getGlyphID glyph) <> []),
     canvas
     ++ (if isSubpixel
         then [CallTranslate (SkFixedToScalar (getSubXFixed glyph))
                             (SkFixedToScalar (getSubYFixed glyph))]
         else [])
     ++ omap (layer_call face fForegroundColor loadGlyphFlags palette)
             (color_glyph_layers face (getGlyphID glyph))).
Proof.
  unfold drawCOLRv0Glyph. rewrite draw_layers_spec by reflexivity.
  cbn [orb]. destruct isSubpixel; by rewrite <- ?app_assoc.
Qed.

(** X9. Every path that [drawCOLRv0Glyph] draws is a sequence of whole
    contours, followed by one more [close()] when the outline of the
    layer ends on a contour without a segment. *)
Theorem drawCOLRv0Glyph_paths (isSubpixel : bool) (fForegroundColor : SkColor)
    (face : FT_OutlineFace) (glyph : SkGlyph) (loadGlyphFlags : Z)
    (palette : list SkColor) (canvas canvas' : list CanvasCall) (ok : bool)
    (path : list SkPathCall) (paint : SkPaint) :
  drawCOLRv0Glyph isSubpixel fForegroundColor face glyph loadGlyphFlags
                  palette canvas = (ok, canvas') ->
  CallDrawPath path paint ∈ canvas' ->
  CallDrawPath path paint ∈ canvas \/
  exists body,
    whole_contours body /\ (path = body \/ path = body ++ [PathClose]).
Proof.
  unfold drawCOLRv0Glyph. rewrite draw_layers_spec by reflexivity.
  intros [= _ <-] Hin.
  assert (Hcases : CallDrawPath path paint ∈ canvas \/
            CallDrawPath path paint
            ∈ omap (layer_call face fForegroundColor loadGlyphFlags palette)
                   (color_glyph_layers face (getGlyphID glyph))).
  { destruct isSubpixel; rewrite !elem_of_app in Hin;
      [|destruct Hin; by eauto].
    destruct Hin as [[Hin|Hin]|Hin]; [by left | | by right].
    by apply list_elem_of_singleton in Hin. }
  clear Hin. destruct Hcases as [Hin|Hin]; [by left|].
  right. apply list_elem_of_omap in Hin as ([g c] & _ & Hcall).
  unfold layer_call, generateFacePath, generateFacePathStatic in Hcall.
  cbn [fst snd] in Hcall.
  destruct (FT_Load_Glyph face g _) as [error slot].
  destruct (error =? 0); cbn [negb] in Hcall; [|discriminate].
  destruct (generateGlyphPathStatic slot []) as [[|] path1] eqn:Hgen;
    [|discriminate].
  injection Hcall as -> _.
  by apply generateGlyphPathStatic_body in Hgen.
Qed.

Lemma drawCOLRv0Glyph_paths_witness :
  exists ok canvas' path paint,
    drawCOLRv0Glyph false Sample.foreground Example.outlines Example.glyph5 0
                    Sample.palette [] = (ok, canvas') /\
    CallDrawPath path paint ∈ canvas' /\
    exists body,
      whole_contours body /\ (path = body \/ path = body ++ [PathClose]).
Proof.
  destruct (drawCOLRv0Glyph false Sample.foreground Example.outlines
              Example.glyph5 0 Sample.palette []) as [ok canvas'] eqn:Hrun.
  assert (Hhead : exists path paint rest,
            canvas' = CallDrawPath path paint :: rest).
  { vm_compute in Hrun. injection Hrun as _ <-. eauto. }
  destruct Hhead as (path & paint & rest & ->).
  exists ok, (CallDrawPath path paint :: rest), path, paint.
  split; [reflexivity|].
  assert (Hin : CallDrawPath path paint ∈ CallDrawPath path paint :: rest)
    by apply list_elem_of_here.
  split; [exact Hin|].
  destruct (drawCOLRv0Glyph_paths _ _ _ _ _ _ _ _ _ _ _ Hrun Hin)
    as [Hold|Hbody]; [|exact Hbody].
  by apply elem_of_nil in Hold.
Defined.

(** ** Loops and stores *)

Lemma for_loop_ind {St : Type} (P : Z -> St -> Prop) (body : Z -> St -> St)
    (n : nat) : forall (i : Z) (st : St),
  P i st ->
  (forall j st, i <= j < i + Z.of_nat n -> P j st -> P (j + 1) (body j st)) ->
  P (i + Z.of_nat n) (for_loop n i body st).
Proof.
  induction n as [|n IH]; intros i st Hst Hstep; cbn [for_loop].
  - by rewrite Z.add_0_r.
  - replace (i + Z.of_nat (S n)) with (i + 1 + Z.of_nat n) by lia.
    apply IH.
    + apply Hstep; [lia | exact Hst].
    + intros j st' Hj. apply Hstep. lia.
Qed.

Lemma for_rows_ind (P : Z -> list Z -> Prop)
    (row : Z -> Z -> list Z -> list Z) (srcStep dstStep src dst : Z)
    (n : nat) : forall (k : Z) (image : list Z),
  P k image ->
  (forall j image, k <= j < k + Z.of_nat n -> P j image ->
     P (j + 1) (row (src + j * srcStep) (dst + j * dstStep) image)) ->
  P (k + Z.of_nat n)
    (for_rows n row srcStep dstStep (src + k * srcStep) (dst + k * dstStep)
              image).
Proof.
  induction n as [|n IH]; intros k image Himage Hstep; cbn [for_rows].
  - by rewrite Z.add_0_r.
  - replace (k + Z.of_nat (S n)) with (k + 1 + Z.of_nat n) by lia.
    replace (src + k * srcStep + srcStep) with (src + (k + 1) * srcStep)
      by lia.
    replace (dst + k * dstStep + dstStep) with (dst + (k + 1) * dstStep)
      by lia.
    apply IH.
    + apply Hstep; [lia | exact Himage].
    + intros j image' Hj. apply Hstep. lia.
Qed.

(** A byte of a buffer of bytes. *)
Lemma load_byte (buf : list Z) (off : Z) :
  Forall (fun a => 0 <= a <= 0xFF) buf -> 0 <= load buf off <= 0xFF.
Proof.
  intros Hbytes. unfold load. destruct (0 <=? off); [|lia].
  destruct (buf !! Z.to_nat off) as [a|] eqn:Ha.
  - rewrite (list_lookup_total_correct _ _ _ Ha).
    rewrite Forall_forall in Hbytes.
    apply list_elem_of_lookup_2, Hbytes in Ha. lia.
  - rewrite list_lookup_total_alt, Ha. simpl. lia.
Qed.

Lemma store_bytes (buf : list Z) (off v : Z) :
  Forall (fun a => 0 <= a <= 0xFF) buf -> 0 <= v <= 0xFF ->
  Forall (fun a => 0 <= a <= 0xFF) (store buf off v).
Proof.
  intros Hbytes Hv. unfold store. destruct (0 <=? off); [|exact Hbytes].
  by apply Forall_insert.
Qed.

(** The bit [n] alone. *)
Lemma land_pow2 (a n : Z) :
  0 <= n -> Z.land a (2 ^ n) = if Z.testbit a n then 2 ^ n else 0.
Proof.
  intros Hn. apply Z.bits_inj'. intros i Hi.
  rewrite Z.land_spec, Z.pow2_bits_eqb by lia.
  destruct (Z.eqb_spec n i) as [->|Hne].
  - destruct (Z.testbit a i) eqn:Ha; [|by rewrite Z.bits_0].
    by rewrite Z.pow2_bits_true.
  - rewrite andb_false_r.
    destruct (Z.testbit a n); [|by rewrite Z.bits_0].
    rewrite Z.pow2_bits_false by lia. reflexivity.
Qed.

Lemma land_1 (a : Z) : Z.land a 1 = if Z.testbit a 0 then 1 else 0.
Proof. apply (land_pow2 a 0). lia. Qed.

(** [bittst] reads the bits of a byte from the top: the bit
    [bitOffset] of [data] is the bit [7 - bitOffset mod 8] of the byte
    [bitOffset / 8]. *)
Lemma bittst_testbit (data : list Z) (data_pos bitOffset : Z) :
  0 <= bitOffset ->
  bittst data data_pos bitOffset
  = if Z.testbit (load data (data_pos + bitOffset / 8)) (7 - bitOffset mod 8)
    then 1 else 0.
Proof.
  intros Hoff. unfold bittst.
  rewrite land_1, Z.shiftr_spec, Z.add_0_l by lia.
  rewrite Z.shiftr_div_pow2 by lia. change (2 ^ 3) with 8.
  change 7 with (Z.ones 3) at 1. rewrite Z.land_ones by lia.
  change (2 ^ 3) with 8.
  replace (Z.lnot bitOffset mod 8) with (7 - bitOffset mod 8); [reflexivity|].
  unfold Z.lnot. rewrite <- Z.sub_1_r.
  Z.to_euclidean_division_equations. lia.
Qed.

(** ** Reading a packed mask back *)

(** X10. [bittst] reads back what [packA8ToA1] has packed: on buffers that
    are large enough, the bit at the column [x] of the row [row] of the
    packed mask is the bit [convert_8_to_1] makes of the sample at this
    place. *)
Theorem bittst_packA8ToA1 (mask : SkMask) (src : list Z) (srcRB : Z)
    (row x : Z) :
  let width := SkIRect_width (fBounds mask) in
  let height := SkIRect_height (fBounds mask) in
  SkAlign8 width / 8 <= fRowBytes mask ->
  width <= srcRB ->
  height * fRowBytes mask <= Z.of_nat (length (fImage mask)) ->
  Forall (fun a => 0 <= a <= 0xFF) src ->
  0 <= row < height -> 0 <= x < width ->
  bittst (packA8ToA1 mask src srcRB) (row * fRowBytes mask) x
  = convert_8_to_1 (load src (row * srcRB + x)).
Proof.
  intros width height Hpad Hsrc Hlen Hbytes Hrow Hx.
  rewrite bittst_testbit by lia.
  rewrite (packA8ToA1_spec mask src srcRB) by (try assumption; lia).
  rewrite convert_8_to_1_cutoff by (apply load_byte, Hbytes).
  reflexivity.
Qed.

Lemma bittst_packA8ToA1_witness :
  bittst (packA8ToA1 Sample.mask Sample.a8 12) (1 * 3) 9
  = convert_8_to_1 (load Sample.a8 (1 * 12 + 9)).
Proof.
  assert (Hbytes : Forall (fun a => 0 <= a <= 0xFF) Sample.a8).
  { unfold Sample.a8. repeat (apply Forall_cons_2; [lia|]). apply Forall_nil_2. }
  apply (bittst_packA8ToA1 Sample.mask Sample.a8 12 1 9); try exact Hbytes;
    vm_compute; repeat split; (discriminate || reflexivity).
Defined.

(** ** Rows and images *)

Lemma reads_cell_load : reads_cell 1 load.
Proof. intros image image' off Hsame. apply Hsame. lia. Qed.

(** Rows that do not overlap make an image. *)
Lemma for_rows_writes (cell : Z) (loadc : list Z -> Z -> Z)
    (width dstStep srcStep src : Z) (val : Z -> Z -> Z)
    (row : Z -> Z -> list Z -> list Z) (height : nat) (image : list Z) :
  writes_row cell loadc width val row -> reads_cell cell loadc ->
  0 < cell -> 0 <= width -> cell * width <= dstStep ->
  Z.of_nat height * dstStep <= Z.of_nat (length image) ->
  writes_image cell loadc width (Z.of_nat height) dstStep
    (fun r x => val (src + r * srcStep) x) image
    (for_rows height row srcStep dstStep src 0 image).
Proof.
  intros Hrow Hread Hcell Hwidth Hstep Hlen.
  pose proof (for_rows_ind
    (fun k image' =>
       0 <= k <= Z.of_nat height ->
       writes_image cell loadc width k dstStep
         (fun r x => val (src + r * srcStep) x) image image')
    row srcStep dstStep src 0 height 0 image) as Hind.
  cbn beta in Hind. rewrite !Z.mul_0_l, !Z.add_0_r, !Z.add_0_l in Hind.
  apply Hind; [| |lia].
  - intros _. split; [done|]. split; [intros; lia | done].
  - clear Hind. intros j image' Hj Himage' _.
    destruct Himage' as (Hlen' & Hcells & Hframe); [lia|].
    rewrite Z.add_0_l.
    destruct (Hrow (src + j * srcStep) (j * dstStep) image')
      as (Hlen1 & Hcells1 & Hframe1); [nia | nia |].
    split; [congruence|]. split.
    + intros r x Hr Hx. destruct (Z.eq_dec r j) as [->|Hne].
      * by apply Hcells1.
      * rewrite <- (Hcells r x) by lia. apply Hread. intros k Hk.
        apply Hframe1. nia.
    + intros off Hoff. rewrite Hframe1 by (apply Hoff; lia).
      apply Hframe. intros r Hr. apply Hoff. lia.
Qed.

(** *** Mono to A8 *)

Section ExpandFacts.
Context `{SkCPU}.
Variable srcFTBitmap : FT_Bitmap.

Lemma copy_row_mono_a8_writes (width : Z) :
  0 <= width ->
  writes_row 1 load width
    (fun src x => expand_bit (bittst (buffer srcFTBitmap) src x))
    (copy_row_mono_a8 srcFTBitmap width).
Proof.
  intros Hwidth src dst image Hdst Hlen. rewrite Z.mul_1_l in Hlen.
  set (B q := load (buffer srcFTBitmap) (src + q)).
  set (val k := if Z.testbit (B (k / 8)) (7 - k mod 8) then 0xFF else 0).
  unfold copy_row_mono_a8.
  pose proof (for_loop_ind
    (fun j (st : Z * Z * Z * Z * list Z) =>
       let '(byte, bits, src_row, dst_row, image') := st in
       bits = (if j mod 8 =? 0 then 0 else 8 - j mod 8) /\
       (j mod 8 <> 0 -> byte = (B (j / 8) * 2 ^ (j mod 8)) mod 2 ^ 8) /\
       src_row = src + (j + 7) / 8 /\ dst_row = dst + j /\
       length image' = length image /\
       (forall k, 0 <= k < j -> load image' (dst + k) = val k) /\
       (forall off, ~ (dst <= off < dst + j) -> load image' off = load image off))
    (fun (_ : Z) '(byte, bits, src_row, dst_row, image) =>
       let '(byte, bits, src_row) :=
         if bits =? 0 then (load (buffer srcFTBitmap) src_row, 8, src_row + 1)
         else (byte, bits, src_row) in
       let image :=
         store image dst_row (if Z.land byte 0x80 =? 0 then 0x00 else 0xff) in
       (Z.shiftl byte 1 mod 2 ^ 8, bits - 1, src_row, dst_row + 1, image))
    (Z.to_nat width) 0 (0, 0, src, dst, image)) as Hind.
  rewrite Z.add_0_l, Z2Nat.id in Hind by lia.
  destruct (for_loop _ _ _ _) as [[[[byte bits] src_row] dst_row] image'].
  destruct Hind as (_ & _ & _ & _ & Hlen' & Hcells & Hframe).
  - change ((0 + 7) / 8) with 0. change (0 mod 8) with 0.
    cbn [Z.eqb]. repeat split; first [done | lia | (intros; lia)].
  - clear byte bits src_row dst_row image'.
    intros j [[[[byte bits] src_row] dst_row] image'] Hj Hinv.
    cbv beta iota zeta in Hinv.
    destruct Hinv as (Hbits & Hbyte & Hsrc & Hdst' & Hlen' & Hcells & Hframe).
    subst bits src_row dst_row.
    assert (Hm : 0 <= j mod 8 < 8) by (apply Z.mod_pos_bound; lia).
    assert (Hstore : forall b : Z,
              (if Z.land b 0x80 =? 0 then 0 else 255)
              = if Z.testbit b 7 then 0xFF else 0).
    { intros b. change 0x80 with (2 ^ 7). rewrite land_pow2 by lia.
      by destruct (Z.testbit b 7). }
    destruct (Z.eqb_spec (j mod 8) 0) as [Hz|Hnz].
    + (* a fresh byte *)
      rewrite Z.eqb_refl. cbv beta iota zeta.
      replace ((j + 7) / 8) with (j / 8)
        by (Z.to_euclidean_division_equations; lia).
      fold (B (j / 8)). rewrite Hstore.
      assert (Hn : (j + 1) mod 8 = 1)
        by (Z.to_euclidean_division_equations; lia).
      assert (Hq : (j + 1) / 8 = j / 8)
        by (Z.to_euclidean_division_equations; lia).
      rewrite Hn, Hq. change (1 =? 0) with false. cbv beta iota.
      split; [lia|]. split.
      { intros _. rewrite Z.shiftl_mul_pow2 by lia. reflexivity. }
      split; [Z.to_euclidean_division_equations; lia|].
      split; [lia|]. split; [by rewrite length_store|]. split.
      * intros k Hk. destruct (Z.eq_dec k j) as [->|Hne].
        -- rewrite load_store_eq by lia. unfold val. by rewrite Hz.
        -- rewrite load_store_ne by lia. apply Hcells. lia.
      * intros off Hoff. rewrite load_store_ne by lia. apply Hframe. lia.
    + (* the byte in hand *)
      destruct (Z.eqb_spec (8 - j mod 8) 0) as [|_]; [lia|].
      cbv beta iota zeta.
      rewrite (Hbyte Hnz), Hstore.
      assert (Hbit : Z.testbit ((B (j / 8) * 2 ^ (j mod 8)) mod 2 ^ 8) 7
                     = Z.testbit (B (j / 8)) (7 - j mod 8)).
      { rewrite Z.mod_pow2_bits_low by lia. apply Z.mul_pow2_bits. lia. }
      rewrite Hbit.
      split.
      { destruct (Z.eqb_spec ((j + 1) mod 8) 0);
          Z.to_euclidean_division_equations; lia. }
      split.
      { intros Hnz'.
        assert (Hn : (j + 1) mod 8 = j mod 8 + 1)
          by (Z.to_euclidean_division_equations; lia).
        assert (Hq : (j + 1) / 8 = j / 8)
          by (Z.to_euclidean_division_equations; lia).
        rewrite Hn, Hq, Z.shiftl_mul_pow2, Z.pow_add_r by lia.
        change (2 ^ 1) with 2.
        rewrite Z.mul_mod_idemp_l by lia. f_equal. lia. }
      split; [Z.to_euclidean_division_equations; lia|].
      split; [lia|]. split; [by rewrite length_store|]. split.
      * intros k Hk. destruct (Z.eq_dec k j) as [->|Hne].
        -- rewrite load_store_eq by lia. reflexivity.
        -- rewrite load_store_ne by lia. apply Hcells. lia.
      * intros off Hoff. rewrite load_store_ne by lia. apply Hframe. lia.
  - split; [exact Hlen'|]. split.
    + intros x Hx. rewrite Z.mul_1_l, Hcells by lia.
      rewrite bittst_testbit by lia. unfold val, B, expand_bit.
      by destruct (Z.testbit _ _).
    + intros off Hoff. apply Hframe. lia.
Qed.
End ExpandFacts.

Lemma memcpy_writes (from : list Z) (n : Z) :
  0 <= n ->
  writes_row 1 load n (fun src i => load from (src + i)) (memcpy from n).
Proof.
  intros Hn src dst image Hdst Hlen. rewrite Z.mul_1_l in Hlen.
  unfold memcpy.
  pose proof (for_loop_ind
    (fun j image' =>
       length image' = length image /\
       (forall k, 0 <= k < j -> load image' (dst + k) = load from (src + k)) /\
       (forall off, ~ (dst <= off < dst + j) -> load image' off = load image off))
    (fun i image => store image (dst + i) (load from (src + i)))
    (Z.to_nat n) 0 image) as Hind.
  rewrite Z.add_0_l, Z2Nat.id in Hind by lia.
  destruct Hind as (Hlen' & Hcells & Hframe).
  - repeat split; first [done | (intros; lia)].
  - intros j image' Hj (Hlen' & Hcells & Hframe).
    split; [by rewrite length_store|]. split.
    + intros k Hk. destruct (Z.eq_dec k j) as [->|Hne].
      * rewrite load_store_eq by lia. reflexivity.
      * rewrite load_store_ne by lia. apply Hcells. lia.
    + intros off Hoff. rewrite load_store_ne by lia. apply Hframe. lia.
  - split; [exact Hlen'|]. split.
    + intros x Hx. rewrite Z.mul_1_l. by apply Hcells.
    + intros off Hoff. apply Hframe. lia.
Qed.

Lemma bytes_load (buf : list Z) :
  (forall off, 0 <= load buf off <= 0xFF) -> bytes buf.
Proof.
  intros Hload. apply Forall_lookup. intros i a Hi.
  specialize (Hload (Z.of_nat i)). unfold load in Hload.
  destruct (Z.leb_spec 0 (Z.of_nat i)); [|lia].
  rewrite Nat2Z.id, (list_lookup_total_correct _ _ _ Hi) in Hload. exact Hload.
Qed.

Lemma bounded_search (P : Z -> Prop) (n : Z) :
  (forall r, P r \/ ~ P r) ->
  (exists r, 0 <= r < n /\ P r) \/ (forall r, 0 <= r < n -> ~ P r).
Proof.
  intros Hdec. destruct (Z.le_gt_cases n 0) as [Hn|Hn];
    [right; intros; lia|].
  rewrite <- (Z2Nat.id n) by lia. generalize (Z.to_nat n). clear Hn.
  intros k. induction k as [|k [(r & Hr & HP)|IH]].
  - right. intros; lia.
  - left. exists r. split; [lia | exact HP].
  - destruct (Hdec (Z.of_nat k)) as [HP|HP].
    + left. exists (Z.of_nat k). split; [lia | exact HP].
    + right. intros r Hr. destruct (Z.eq_dec r (Z.of_nat k)) as [->|Hne];
        [exact HP | apply IH; lia].
Qed.

(** An image written with bytes is an image of bytes. *)
Lemma writes_image_bytes (width height dstStep : Z) (val : Z -> Z -> Z)
    (image image' : list Z) :
  writes_image 1 load width height dstStep val image image' ->
  bytes image ->
  (forall r x, 0 <= val r x <= 0xFF) ->
  bytes image'.
Proof.
  intros (_ & Hcells & Hframe) Hbytes Hval. apply bytes_load. intros off.
  destruct (bounded_search
              (fun r => r * dstStep <= off < r * dstStep + 1 * width) height)
    as [(r & Hr & Hoff)|Hout].
  - intros r. lia.
  - replace off with (r * dstStep + 1 * (off - r * dstStep)) by lia.
    rewrite Hcells by lia. apply Hval.
  - rewrite Hframe; [by apply load_byte | exact Hout].
Qed.

Section CopyFacts.
Context `{SkCPU}.

Lemma copyFTBitmap_expands (srcFTBitmap : FT_Bitmap) (dstMask : SkMask) :
  pixel_mode srcFTBitmap = FT_PIXEL_MODE_MONO ->
  0 <= width srcFTBitmap -> 0 <= rows srcFTBitmap ->
  width srcFTBitmap <= fRowBytes dstMask ->
  rows srcFTBitmap * fRowBytes dstMask <= Z.of_nat (length (fImage dstMask)) ->
  writes_image 1 load (width srcFTBitmap) (rows srcFTBitmap)
    (fRowBytes dstMask)
    (fun r x =>
       expand_bit (bittst (buffer srcFTBitmap)
                          (buffer_pos srcFTBitmap + r * pitch srcFTBitmap) x))
    (fImage dstMask) (copyFTBitmap srcFTBitmap kA8_Format dstMask).
Proof.
  intros Hmode Hw Hh Hrb Hlen. unfold copyFTBitmap. rewrite Hmode.
  rewrite <- (Z2Nat.id (rows srcFTBitmap)) at 1 by lia.
  apply (for_rows_writes 1 load _ _ _ _
           (fun src x => expand_bit (bittst (buffer srcFTBitmap) src x)));
    try lia.
  - by apply copy_row_mono_a8_writes.
  - apply reads_cell_load.
Qed.

Lemma copyFTBitmap_copies (srcFTBitmap : FT_Bitmap)
    (dstFormat : SkMask_Format) (dstMask : SkMask) :
  (pixel_mode srcFTBitmap = FT_PIXEL_MODE_MONO /\ dstFormat = kBW_Format) \/
  (pixel_mode srcFTBitmap = FT_PIXEL_MODE_GRAY /\ dstFormat = kA8_Format) ->
  0 <= rows srcFTBitmap -> 0 <= fRowBytes dstMask ->
  rows srcFTBitmap * fRowBytes dstMask <= Z.of_nat (length (fImage dstMask)) ->
  writes_image 1 load
    (Z.min (Z.abs (pitch srcFTBitmap)) (fRowBytes dstMask))
    (rows srcFTBitmap) (fRowBytes dstMask)
    (fun r i =>
       load (buffer srcFTBitmap)
            (buffer_pos srcFTBitmap + r * pitch srcFTBitmap + i))
    (fImage dstMask) (copyFTBitmap srcFTBitmap dstFormat dstMask).
Proof.
  intros Hformats Hh Hrb Hlen.
  assert (Hcopy :
    copyFTBitmap srcFTBitmap dstFormat dstMask
    = for_rows (Z.to_nat (rows srcFTBitmap))
        (memcpy (buffer srcFTBitmap)
                (Z.min (Z.abs (pitch srcFTBitmap)) (fRowBytes dstMask)))
        (pitch srcFTBitmap) (fRowBytes dstMask) (buffer_pos srcFTBitmap) 0
        (fImage dstMask)).
  { unfold copyFTBitmap.
    by destruct Hformats as [[-> ->]|[-> ->]]. }
  rewrite Hcopy. rewrite <- (Z2Nat.id (rows srcFTBitmap)) at 1 by lia.
  apply (for_rows_writes 1 load _ _ _ _
           (fun src i => load (buffer srcFTBitmap) (src + i)));
    try lia.
  - apply memcpy_writes. lia.
  - apply reads_cell_load.
Qed.
End CopyFacts.

(** X11. [copyFTBitmap] from a mono bitmap into an A8 mask with room for it:
    the sample at the column [x] of the row [r] becomes 0xFF where
    [bittst] reads a set bit at the column [x] of the row [r] of the
    bitmap, which starts [r * pitch] bytes from the pointer of the
    bitmap, and 0x00 elsewhere; the length of the image and every byte
    behind the [width] samples of a row stay as they were. *)
Theorem copyFTBitmap_mono_to_a8 `{SkCPU} (srcFTBitmap : FT_Bitmap)
    (dstMask : SkMask) :
  pixel_mode srcFTBitmap = FT_PIXEL_MODE_MONO ->
  0 <= width srcFTBitmap -> 0 <= rows srcFTBitmap ->
  width srcFTBitmap <= fRowBytes dstMask ->
  rows srcFTBitmap * fRowBytes dstMask <= Z.of_nat (length (fImage dstMask)) ->
  let image' := copyFTBitmap srcFTBitmap kA8_Format dstMask in
  length image' = length (fImage dstMask) /\
  (forall r x, 0 <= r < rows srcFTBitmap -> 0 <= x < width srcFTBitmap ->
     load image' (r * fRowBytes dstMask + x)
     = if bittst (buffer srcFTBitmap)
                 (buffer_pos srcFTBitmap + r * pitch srcFTBitmap) x =? 0
       then 0x00 else 0xFF) /\
  (forall off,
     (forall r, 0 <= r < rows srcFTBitmap ->
        ~ (r * fRowBytes dstMask <= off
           < r * fRowBytes dstMask + width srcFTBitmap)) ->
     load image' off = load (fImage dstMask) off).
Proof.
  intros Hmode Hw Hh Hrb Hlen image'.
  destruct (copyFTBitmap_expands srcFTBitmap dstMask Hmode Hw Hh Hrb Hlen)
    as (Hlen' & Hcells & Hframe).
  split; [exact Hlen'|]. split.
  - intros r x Hr Hx. specialize (Hcells r x Hr Hx).
    rewrite Z.mul_1_l in Hcells. exact Hcells.
  - intros off Hoff. apply Hframe. intros r Hr. rewrite Z.mul_1_l.
    by apply Hoff.
Qed.

Lemma copyFTBitmap_mono_to_a8_witness :
  let image' :=
    @copyFTBitmap Example.cpu Example.mono kA8_Format
                  (Example.blank 10 2 12 24) in
  image' = [255; 0; 255; 0; 0; 255; 0; 255; 255; 255; 0xAA; 0xAA;
            0; 0; 0; 0; 0; 0; 0; 0; 0; 255; 0xAA; 0xAA] /\
  load image' (1 * 12 + 9)
  = if bittst (buffer Example.mono)
              (buffer_pos Example.mono + 1 * pitch Example.mono) 9 =? 0
    then 0x00 else 0xFF.
Proof.
  intros image'. split; [vm_compute; reflexivity|].
  assert (Hfits : rows Example.mono * fRowBytes (Example.blank 10 2 12 24)
                  <= Z.of_nat (length (fImage (Example.blank 10 2 12 24))))
    by (vm_compute; congruence).
  destruct (@copyFTBitmap_mono_to_a8 Example.cpu Example.mono
              (Example.blank 10 2 12 24) eq_refl ltac:(cbn; lia)
              ltac:(cbn; lia) ltac:(cbn; lia) Hfits)
    as (_ & Hcells & _).
  exact (Hcells 1 9 ltac:(cbn; lia) ltac:(cbn; lia)).
Defined.

(** X12. [copyFTBitmap] between a bitmap and a mask of the same depth (mono
    into BW, gray into A8): of every row of the bitmap, the first
    [min(|pitch|, fRowBytes)] bytes are copied to the row of the image,
    also when the pitch is negative and the rows of the bitmap lie one
    before the other; every other byte of the image stays as it was. *)
Theorem copyFTBitmap_same_depth `{SkCPU} (srcFTBitmap : FT_Bitmap)
    (dstFormat : SkMask_Format) (dstMask : SkMask) :
  (pixel_mode srcFTBitmap = FT_PIXEL_MODE_MONO /\ dstFormat = kBW_Format) \/
  (pixel_mode srcFTBitmap = FT_PIXEL_MODE_GRAY /\ dstFormat = kA8_Format) ->
  0 <= rows srcFTBitmap -> 0 <= fRowBytes dstMask ->
  rows srcFTBitmap * fRowBytes dstMask <= Z.of_nat (length (fImage dstMask)) ->
  let commonRowBytes :=
    Z.min (Z.abs (pitch srcFTBitmap)) (fRowBytes dstMask) in
  let image' := copyFTBitmap srcFTBitmap dstFormat dstMask in
  length image' = length (fImage dstMask) /\
  (forall r i, 0 <= r < rows srcFTBitmap -> 0 <= i < commonRowBytes ->
     load image' (r * fRowBytes dstMask + i)
     = load (buffer srcFTBitmap)
            (buffer_pos srcFTBitmap + r * pitch srcFTBitmap + i)) /\
  (forall off,
     (forall r, 0 <= r < rows srcFTBitmap ->
        ~ (r * fRowBytes dstMask <= off
           < r * fRowBytes dstMask + commonRowBytes)) ->
     load image' off = load (fImage dstMask) off).
Proof.
  intros Hformats Hh Hrb Hlen commonRowBytes image'.
  destruct (copyFTBitmap_copies srcFTBitmap dstFormat dstMask Hformats Hh Hrb
              Hlen) as (Hlen' & Hcells & Hframe).
  split; [exact Hlen'|]. split.
  - intros r i Hr Hi. specialize (Hcells r i Hr Hi).
    rewrite Z.mul_1_l in Hcells. exact Hcells.
  - intros off Hoff. apply Hframe. intros r Hr. rewrite Z.mul_1_l.
    by apply Hoff.
Qed.

Lemma copyFTBitmap_same_depth_witness :
  let image' :=
    @copyFTBitmap Example.cpu Example.mono kBW_Format
                  (Example.blank 10 2 3 6) in
  image' = [0xA5; 0xC0; 0xAA; 0x00; 0x40; 0xAA] /\
  load image' (1 * 3 + 1)
  = load (buffer Example.mono)
         (buffer_pos Example.mono + 1 * pitch Example.mono + 1).
Proof.
  intros image'. split; [vm_compute; reflexivity|].
  assert (Hfits : rows Example.mono * fRowBytes (Example.blank 10 2 3 6)
                  <= Z.of_nat (length (fImage (Example.blank 10 2 3 6))))
    by (vm_compute; congruence).
  destruct (@copyFTBitmap_same_depth Example.cpu Example.mono kBW_Format
              (Example.blank 10 2 3 6) (or_introl (conj eq_refl eq_refl))
              ltac:(cbn; lia) ltac:(cbn; lia) Hfits)
    as (_ & Hcells & _).
  exact (Hcells 1 1 ltac:(cbn; lia) ltac:(cbn; lia)).
Defined.

(** X13. Packing what was expanded gives the bits back: a mono bitmap copied
    into an A8 image by [copyFTBitmap] and packed into a BW mask of the
    same width and height by [packA8ToA1] has, read with [bittst], the
    bits of the bitmap. *)
Theorem packA8ToA1_copyFTBitmap `{SkCPU} (srcFTBitmap : FT_Bitmap)
    (a8 bw : SkMask) (r x : Z) :
  let packed :=
    packA8ToA1 bw (copyFTBitmap srcFTBitmap kA8_Format a8) (fRowBytes a8) in
  pixel_mode srcFTBitmap = FT_PIXEL_MODE_MONO ->
  width srcFTBitmap = SkIRect_width (fBounds bw) ->
  rows srcFTBitmap = SkIRect_height (fBounds bw) ->
  width srcFTBitmap <= fRowBytes a8 ->
  rows srcFTBitmap * fRowBytes a8 <= Z.of_nat (length (fImage a8)) ->
  bytes (fImage a8) ->
  SkAlign8 (width srcFTBitmap) / 8 <= fRowBytes bw ->
  rows srcFTBitmap * fRowBytes bw <= Z.of_nat (length (fImage bw)) ->
  0 <= r < rows srcFTBitmap -> 0 <= x < width srcFTBitmap ->
  bittst packed (r * fRowBytes bw) x
  = bittst (buffer srcFTBitmap)
           (buffer_pos srcFTBitmap + r * pitch srcFTBitmap) x.
Proof.
  intros packed Hmode Hw Hh Hrb Hlen Hbytes Hpad Hlen1 Hr Hx.
  pose proof (copyFTBitmap_expands srcFTBitmap a8 Hmode ltac:(lia) ltac:(lia)
                Hrb Hlen) as Hexp.
  assert (Hbytes' : bytes (copyFTBitmap srcFTBitmap kA8_Format a8)).
  { eapply writes_image_bytes; [exact Hexp | exact Hbytes|].
    intros r' x'. unfold expand_bit. destruct (_ =? 0); lia. }
  unfold packed. rewrite bittst_testbit by lia.
  rewrite (packA8ToA1_spec bw)
    by first [exact Hbytes' | rewrite <- ?Hw, <- ?Hh; lia].
  destruct Hexp as (_ & Hcells & _).
  specialize (Hcells r x Hr Hx). rewrite Z.mul_1_l in Hcells.
  rewrite Hcells. rewrite bittst_testbit by lia. unfold expand_bit.
  by destruct (Z.testbit _ _).
Qed.

Lemma packA8ToA1_copyFTBitmap_witness :
  let packed :=
    packA8ToA1 (Example.blank 10 2 2 4)
      (@copyFTBitmap Example.cpu Example.mono kA8_Format
                     (Example.blank 10 2 12 24)) 12 in
  packed = [0xA5; 0xC0; 0x00; 0x40] /\
  bittst packed (1 * 2) 9
  = bittst (buffer Example.mono)
           (buffer_pos Example.mono + 1 * pitch Example.mono) 9.
Proof.
  intros packed. split; [vm_compute; reflexivity|].
  assert (Hbytes : bytes (fImage (Example.blank 10 2 12 24))).
  { apply Forall_forall. intros a Ha.
    apply elem_of_replicate in Ha as [-> _]. lia. }
  assert (Hfits : rows Example.mono * fRowBytes (Example.blank 10 2 12 24)
                  <= Z.of_nat (length (fImage (Example.blank 10 2 12 24))))
    by (vm_compute; congruence).
  assert (Hfits1 : rows Example.mono * fRowBytes (Example.blank 10 2 2 4)
                   <= Z.of_nat (length (fImage (Example.blank 10 2 2 4))))
    by (vm_compute; congruence).
  assert (Hpad : SkAlign8 (width Example.mono) / 8
                 <= fRowBytes (Example.blank 10 2 2 4))
    by (vm_compute; congruence).
  exact (@packA8ToA1_copyFTBitmap Example.cpu Example.mono
           (Example.blank 10 2 12 24) (Example.blank 10 2 2 4) 1 9
           eq_refl eq_refl eq_refl ltac:(cbn; lia) Hfits Hbytes Hpad Hfits1
           ltac:(cbn; lia) ltac:(cbn; lia)).
Defined.

(** ** 16-bit and 32-bit cells *)

Section CellFacts.
Context `{SkCPU}.

Lemma join16 (v : Z) :
  0 <= v < 2 ^ 16 ->
  Z.lor (Z.shiftl (Z.land (Z.shiftr v 8) 0xFF) 8) (Z.land v 0xFF) = v.
Proof.
  intros Hv. apply Z.bits_inj'. intros i Hi.
  change 0xFF with (Z.ones 8).
  rewrite Z.lor_spec, Z.land_spec, Z.testbit_ones_nonneg by lia.
  destruct (Z.ltb_spec i 8).
  - rewrite Z.shiftl_spec_low by lia. by rewrite andb_true_r.
  - rewrite Z.shiftl_spec, Z.land_spec, Z.shiftr_spec,
      Z.testbit_ones_nonneg by lia.
    replace (i - 8 + 8) with i by lia. rewrite andb_false_r, orb_false_r.
    destruct (Z.ltb_spec (i - 8) 8); [by rewrite andb_true_r|].
    rewrite andb_false_r.
    symmetry. apply (Z.bounded_iff_bits_nonneg 16 v); lia.
Qed.

Lemma land_byte (v : Z) : 0 <= Z.land v 0xFF <= 0xFF.
Proof.
  change 0xFF with (Z.ones 8). rewrite Z.land_ones by lia.
  pose proof (Z.mod_pos_bound v (2 ^ 8)). change (Z.ones 8) with (2 ^ 8 - 1).
  lia.
Qed.

Lemma length_store16 buf off v : length (store16 buf off v) = length buf.
Proof.
  unfold store16. destruct SK_CPU_BENDIAN; by rewrite !length_store.
Qed.

Lemma load_store16_ne buf off k v :
  k <> off -> k <> off + 1 -> load (store16 buf off v) k = load buf k.
Proof.
  intros H0 H1. unfold store16.
  destruct SK_CPU_BENDIAN; by rewrite !load_store_ne.
Qed.

Lemma load16_store16_eq buf off v :
  0 <= off -> off + 2 <= Z.of_nat (length buf) -> 0 <= v < 2 ^ 16 ->
  load16 (store16 buf off v) off = v.
Proof.
  intros Hoff Hlen Hv. unfold load16, store16.
  destruct SK_CPU_BENDIAN.
  - rewrite load_store_eq by (rewrite length_store; lia).
    rewrite load_store_ne, load_store_eq by lia. by apply join16.
  - rewrite load_store_eq by (rewrite length_store; lia).
    rewrite load_store_ne, load_store_eq by lia. by apply join16.
Qed.

Lemma reads_cell_load16 : reads_cell 2 load16.
Proof.
  intros image image' off Hsame. unfold load16.
  by rewrite (Hsame off), (Hsame (off + 1)) by lia.
Qed.

Lemma row_written_start cell loadc dst val image :
  row_written cell loadc dst val image 0 image.
Proof. split; [done|]. split; [intros; lia | done]. Qed.

(** One more 16-bit cell. *)
Lemma row_written_store16 dst val image j image' v :
  0 <= dst -> 0 <= j -> dst + 2 * (j + 1) <= Z.of_nat (length image) ->
  0 <= v < 2 ^ 16 -> v = val j ->
  row_written 2 load16 dst val image j image' ->
  row_written 2 load16 dst val image (j + 1) (store16 image' (dst + 2 * j) v).
Proof.
  intros Hdst Hj Hlen Hv -> (Hlen' & Hcells & Hframe).
  split; [by rewrite length_store16|]. split.
  - intros k Hk. destruct (Z.eq_dec k j) as [->|Hne].
    + apply load16_store16_eq; lia.
    + rewrite <- (Hcells k) by lia. apply reads_cell_load16.
      intros i Hi. apply load_store16_ne; lia.
  - intros off Hoff. rewrite load_store16_ne by lia. apply Hframe. lia.
Qed.

Lemma row_written_row cell loadc dst val image width image' :
  row_written cell loadc dst val image width image' ->
  length image' = length image /\
  (forall x, 0 <= x < width -> loadc image' (dst + cell * x) = val x) /\
  (forall off, ~ (dst <= off < dst + cell * width) ->
     load image' off = load image off).
Proof. done. Qed.
End CellFacts.

(** ** LCD16 *)

Lemma shiftr_byte (a n : Z) :
  0 <= a <= 0xFF -> 0 <= n <= 8 -> 0 <= Z.shiftr a n < 2 ^ (8 - n).
Proof.
  intros Ha Hn. rewrite Z.shiftr_div_pow2 by lia. split.
  - apply Z.div_pos; lia.
  - apply Z.div_lt_upper_bound; [lia|].
    rewrite <- Z.pow_add_r by lia. replace (n + (8 - n)) with 8 by lia. lia.
Qed.

(** The bits of a 5-6-5 pixel. *)
Lemma SkPack888ToRGB16_bits (r g b i : Z) :
  0 <= r <= 0xFF -> 0 <= g <= 0xFF -> 0 <= b <= 0xFF -> 0 <= i ->
  Z.testbit (SkPack888ToRGB16 r g b) i
  = if i <? 5 then Z.testbit b (i + 3)
    else if i <? 11 then Z.testbit g (i - 5 + 2)
    else Z.testbit r (i - 11 + 3).
Proof.
  intros Hr Hg Hb Hi. unfold SkPack888ToRGB16.
  pose proof (shiftr_byte r 3 Hr ltac:(lia)) as Hr5.
  pose proof (shiftr_byte g 2 Hg ltac:(lia)) as Hg6.
  pose proof (shiftr_byte b 3 Hb ltac:(lia)) as Hb5.
  change (8 - 3) with 5 in *. change (8 - 2) with 6 in *.
  assert (Hhigh : forall a k j, 0 <= a < 2 ^ k -> 0 <= k <= j ->
                    Z.testbit a j = false).
  { intros a k j Ha Hk. apply (Z.bounded_iff_bits_nonneg k a); lia. }
  set (rs := Z.shiftr r 3) in *. set (gs := Z.shiftr g 2) in *.
  set (bs := Z.shiftr b 3) in *.
  rewrite !Z.lor_spec.
  destruct (Z.ltb_spec i 5); [|destruct (Z.ltb_spec i 11)].
  - rewrite !Z.shiftl_spec_low by lia. apply Z.shiftr_spec. lia.
  - rewrite Z.shiftl_spec_low, Z.shiftl_spec by lia.
    rewrite (Hhigh bs 5 i) by lia. rewrite orb_false_r.
    apply Z.shiftr_spec. lia.
  - rewrite !Z.shiftl_spec by lia.
    rewrite (Hhigh gs 6 (i - 5)), (Hhigh bs 5 i) by lia.
    rewrite !orb_false_r. apply Z.shiftr_spec. lia.
Qed.

Lemma SkPack888ToRGB16_range (r g b : Z) :
  0 <= r <= 0xFF -> 0 <= g <= 0xFF -> 0 <= b <= 0xFF ->
  0 <= SkPack888ToRGB16 r g b < 2 ^ 16.
Proof.
  intros Hr Hg Hb.
  assert (Hnn : 0 <= SkPack888ToRGB16 r g b).
  { unfold SkPack888ToRGB16. rewrite !Z.lor_nonneg, !Z.shiftl_nonneg,
      !Z.shiftr_nonneg. lia. }
  split; [exact Hnn|].
  apply (Z.bounded_iff_bits_nonneg 16); [lia | exact Hnn|].
  intros i Hi. rewrite SkPack888ToRGB16_bits by lia.
  destruct (Z.ltb_spec i 5); [lia|]. destruct (Z.ltb_spec i 11); [lia|].
  apply (Z.bounded_iff_bits_nonneg 8 r); lia.
Qed.

(** The channels of a 5-6-5 pixel are the upper bits of what was
    packed. *)
Lemma SkPack888ToRGB16_channels (r g b : Z) :
  0 <= r <= 0xFF -> 0 <= g <= 0xFF -> 0 <= b <= 0xFF ->
  SkGetPackedR16 (SkPack888ToRGB16 r g b) = Z.shiftr r 3 /\
  SkGetPackedG16 (SkPack888ToRGB16 r g b) = Z.shiftr g 2 /\
  SkGetPackedB16 (SkPack888ToRGB16 r g b) = Z.shiftr b 3.
Proof.
  intros Hr Hg Hb.
  assert (Hhigh : forall a j, 0 <= a <= 0xFF -> 8 <= j ->
                    Z.testbit a j = false).
  { intros a j Ha Hj. apply (Z.bounded_iff_bits_nonneg 8 a); lia. }
  unfold SkGetPackedR16, SkGetPackedG16, SkGetPackedB16.
  change 0x1F with (Z.ones 5). change 0x3F with (Z.ones 6).
  repeat split; apply Z.bits_inj'; intros i Hi;
    rewrite Z.land_spec, Z.testbit_ones_nonneg, ?Z.shiftr_spec by lia;
    rewrite SkPack888ToRGB16_bits by lia.
  - destruct (Z.ltb_spec (i + 11) 5); [lia|].
    destruct (Z.ltb_spec (i + 11) 11); [lia|].
    replace (i + 11 - 11 + 3) with (i + 3) by lia.
    destruct (Z.ltb_spec i 5); [by rewrite andb_true_r|].
    rewrite andb_false_r. symmetry. apply (Hhigh r); lia.
  - destruct (Z.ltb_spec (i + 5) 5); [lia|].
    replace (i + 5 - 5 + 2) with (i + 2) by lia.
    destruct (Z.ltb_spec (i + 5) 11), (Z.ltb_spec i 6); try lia.
    + by rewrite andb_true_r.
    + rewrite andb_false_r. symmetry. apply (Hhigh g); lia.
  - destruct (Z.ltb_spec i 5); [by rewrite andb_true_r|].
    rewrite andb_false_r. symmetry. apply (Hhigh b); lia.
Qed.

Lemma packTriple_range (r g b : Z) :
  0 <= r <= 0xFF -> 0 <= g <= 0xFF -> 0 <= b <= 0xFF ->
  0 <= packTriple r g b < 2 ^ 16.
Proof. apply SkPack888ToRGB16_range. Qed.

Lemma sk_apply_lut_if_byte (APPLY_LUT : bool) (component : Z) (lut : list Z) :
  0 <= component <= 0xFF -> bytes lut ->
  0 <= sk_apply_lut_if APPLY_LUT component lut <= 0xFF.
Proof.
  intros Hc Hlut. unfold sk_apply_lut_if.
  destruct APPLY_LUT; [by apply load_byte | exact Hc].
Qed.

Lemma bittst_bit (data : list Z) (data_pos bitOffset : Z) :
  bittst data data_pos bitOffset = 0 \/ bittst data data_pos bitOffset = 1.
Proof. unfold bittst. rewrite land_1. destruct (Z.testbit _ _); auto. Qed.

Section LCD16Facts.
Context `{SkCPU}.
Variable APPLY_PREBLEND : bool.
Variable bitmap : FT_Bitmap.
Variable lcdIsBGR : bool.
Variables tableR tableG tableB : list Z.
Hypothesis buffer_bytes : bytes (buffer bitmap).
Hypothesis tableR_bytes : bytes tableR.
Hypothesis tableG_bytes : bytes tableG.
Hypothesis tableB_bytes : bytes tableB.

Lemma lcd16_row_mono_writes (width : Z) :
  0 <= width ->
  writes_row 2 load16 width
    (fun src x => if bittst (buffer bitmap) src x =? 0 then 0 else 0xFFFF)
    (lcd16_row_mono bitmap width).
Proof.
  intros Hwidth src dst image Hdst Hlen. apply row_written_row.
  unfold lcd16_row_mono.
  pose proof (for_loop_ind
    (row_written 2 load16 dst
       (fun x => if bittst (buffer bitmap) src x =? 0 then 0 else 0xFFFF)
       image)
    (fun x image =>
       store16 image (dst + 2 * x)
               ((- bittst (buffer bitmap) src x) mod 2 ^ 16))
    (Z.to_nat width) 0 image) as Hind.
  rewrite Z.add_0_l, Z2Nat.id in Hind by lia.
  apply Hind; [apply row_written_start|].
  intros j image' Hj Hinv.
  apply row_written_store16; try lia; try exact Hinv.
  - apply Z.mod_pos_bound. lia.
  - by destruct (bittst_bit (buffer bitmap) src j) as [-> | ->].
Qed.

Lemma lcd16_row_gray_writes (width : Z) :
  0 <= width ->
  writes_row 2 load16 width
    (fun src x => grayToRGB16 (load (buffer bitmap) (src + x)))
    (lcd16_row_gray bitmap width).
Proof.
  intros Hwidth src dst image Hdst Hlen. apply row_written_row.
  unfold lcd16_row_gray.
  pose proof (for_loop_ind
    (row_written 2 load16 dst
       (fun x => grayToRGB16 (load (buffer bitmap) (src + x))) image)
    (fun x image =>
       store16 image (dst + 2 * x)
               (grayToRGB16 (load (buffer bitmap) (src + x))))
    (Z.to_nat width) 0 image) as Hind.
  rewrite Z.add_0_l, Z2Nat.id in Hind by lia.
  apply Hind; [apply row_written_start|].
  intros j image' Hj Hinv.
  apply row_written_store16; try lia; try exact Hinv.
  apply SkPack888ToRGB16_range; by apply load_byte.
Qed.

Lemma lcd16_row_lcd_writes (width : Z) :
  0 <= width ->
  writes_row 2 load16 width
    (fun src x =>
       let t i := load (buffer bitmap) (src + 3 * x + i) in
       triple_pixel APPLY_PREBLEND tableR tableG tableB
         (if lcdIsBGR then (t 2, t 1, t 0) else (t 0, t 1, t 2)))
    (lcd16_row_lcd APPLY_PREBLEND bitmap lcdIsBGR tableR tableG tableB width).
Proof.
  intros Hwidth src dst image Hdst Hlen. apply row_written_row.
  unfold lcd16_row_lcd.
  set (val x :=
    let t i := load (buffer bitmap) (src + 3 * x + i) in
    triple_pixel APPLY_PREBLEND tableR tableG tableB
      (if lcdIsBGR then (t 2, t 1, t 0) else (t 0, t 1, t 2))).
  match goal with
  | |- context [for_loop ?n 0 ?body ?init] =>
      pose proof (for_loop_ind
        (fun j (st : Z * list Z) =>
           st.1 = src + 3 * j /\
           row_written 2 load16 dst val image j st.2)
        body n 0 init) as Hind
  end.
  rewrite Z.add_0_l, Z2Nat.id in Hind by lia.
  apply Hind.
  - split; [cbn; lia | apply row_written_start].
  - intros j [triple image'] Hj [Htriple Hinv]. cbn [fst snd] in *.
    subst triple. split; [lia|].
    apply row_written_store16; try lia; try exact Hinv.
    + destruct lcdIsBGR; apply packTriple_range;
        apply sk_apply_lut_if_byte; try assumption; by apply load_byte.
    + unfold val, triple_pixel. cbv zeta.
      rewrite !Z.add_0_r. by destruct lcdIsBGR.
Qed.

Lemma lcd16_row_lcd_v_writes (width : Z) :
  0 <= width ->
  writes_row 2 load16 width
    (fun src x =>
       let t i := load (buffer bitmap) (src + i * pitch bitmap + x) in
       triple_pixel APPLY_PREBLEND tableR tableG tableB
         (if lcdIsBGR then (t 2, t 1, t 0) else (t 0, t 1, t 2)))
    (lcd16_row_lcd_v APPLY_PREBLEND bitmap lcdIsBGR tableR tableG tableB
                     width).
Proof.
  intros Hwidth src dst image Hdst Hlen. apply row_written_row.
  unfold lcd16_row_lcd_v.
  set (val x :=
    let t i := load (buffer bitmap) (src + i * pitch bitmap + x) in
    triple_pixel APPLY_PREBLEND tableR tableG tableB
      (if lcdIsBGR then (t 2, t 1, t 0) else (t 0, t 1, t 2))).
  set (ir := if lcdIsBGR then 2 else 0).
  set (ib := if lcdIsBGR then 0 else 2).
  assert (Hinit :
    (if lcdIsBGR
     then (src + pitch bitmap + pitch bitmap, src)
     else (src, src + pitch bitmap + pitch bitmap))
    = (src + ir * pitch bitmap, src + ib * pitch bitmap)).
  { unfold ir, ib. destruct lcdIsBGR; f_equal; lia. }
  rewrite Hinit. cbv beta iota zeta.
  match goal with
  | |- context [for_loop ?n 0 ?body ?init] =>
      pose proof (for_loop_ind
        (fun j (st : Z * Z * Z * list Z) =>
           let '(srcR, srcG, srcB, image') := st in
           srcR = src + ir * pitch bitmap + j /\
           srcG = src + pitch bitmap + j /\
           srcB = src + ib * pitch bitmap + j /\
           row_written 2 load16 dst val image j image')
        body n 0 init) as Hind
  end.
  rewrite Z.add_0_l, Z2Nat.id in Hind by lia.
  destruct (for_loop _ _ _ _) as [[[srcR srcG] srcB] image'].
  apply Hind.
  - repeat split; first [lia | done | (intros; lia)].
  - intros j [[[sR sG] sB] im] Hj (-> & -> & -> & Hinv).
    split; [lia|]. split; [lia|]. split; [lia|].
    apply row_written_store16; try lia; try exact Hinv.
    + apply packTriple_range;
        apply sk_apply_lut_if_byte; try assumption; by apply load_byte.
    + unfold val, triple_pixel, ir, ib. cbv zeta.
      rewrite !Z.mul_1_l. by destruct lcdIsBGR.
Qed.
End LCD16Facts.

Section LCD16Images.
Context `{SkCPU}.

(** [copyFT2LCD16] on a mask with room for its pixels. *)
Lemma copyFT2LCD16_writes (APPLY_PREBLEND : bool) (bitmap : FT_Bitmap)
    (lcdIsBGR : bool) (tableR tableG tableB : list Z) (mask : SkMask)
    (val : Z -> Z -> Z) (row : Z -> Z -> list Z -> list Z) (srcStep : Z) :
  let width := SkIRect_width (fBounds mask) in
  let height := SkIRect_height (fBounds mask) in
  copyFT2LCD16 APPLY_PREBLEND bitmap lcdIsBGR tableR tableG tableB mask
  = for_rows (Z.to_nat height) row srcStep (fRowBytes mask)
             (buffer_pos bitmap) 0 (fImage mask) ->
  writes_row 2 load16 width val row ->
  0 <= width -> 0 <= height -> 2 * width <= fRowBytes mask ->
  height * fRowBytes mask <= Z.of_nat (length (fImage mask)) ->
  writes_image 2 load16 width height (fRowBytes mask)
    (fun r x => val (buffer_pos bitmap + r * srcStep) x)
    (fImage mask)
    (copyFT2LCD16 APPLY_PREBLEND bitmap lcdIsBGR tableR tableG tableB mask).
Proof.
  intros width height -> Hrow Hw Hh Hrb Hlen.
  rewrite <- (Z2Nat.id height) at 1 by lia.
  apply for_rows_writes; try lia; [exact Hrow | apply reads_cell_load16].
Qed.
End LCD16Images.

(** X14. [copyFTBitmap] from a gray bitmap into an LCD16 mask with room for
    its pixels: the pixel at the column [x] of the row [r] is the 5-6-5
    pixel of the gray sample at this place, with the upper five bits of
    the sample as red and as blue and its upper six bits as green, so
    red and blue are equal and are the green without its lowest bit; the
    length of the image and every byte outside the pixels stay as they
    were. *)
Theorem copyFTBitmap_gray_to_lcd16 `{SkCPU} (srcFTBitmap : FT_Bitmap)
    (dstMask : SkMask) :
  let width := SkIRect_width (fBounds dstMask) in
  let height := SkIRect_height (fBounds dstMask) in
  pixel_mode srcFTBitmap = FT_PIXEL_MODE_GRAY ->
  bytes (buffer srcFTBitmap) ->
  0 <= width -> 0 <= height -> 2 * width <= fRowBytes dstMask ->
  height * fRowBytes dstMask <= Z.of_nat (length (fImage dstMask)) ->
  let image' := copyFTBitmap srcFTBitmap kLCD16_Format dstMask in
  length image' = length (fImage dstMask) /\
  (forall r x, 0 <= r < height -> 0 <= x < width ->
     let gray :=
       load (buffer srcFTBitmap)
            (buffer_pos srcFTBitmap + r * pitch srcFTBitmap + x) in
     let pixel := load16 image' (r * fRowBytes dstMask + 2 * x) in
     pixel = grayToRGB16 gray /\
     SkGetPackedR16 pixel = Z.shiftr gray 3 /\
     SkGetPackedG16 pixel = Z.shiftr gray 2 /\
     SkGetPackedB16 pixel = Z.shiftr gray 3 /\
     SkGetPackedR16 pixel = Z.shiftr (SkGetPackedG16 pixel) 1) /\
  (forall off,
     (forall r, 0 <= r < height ->
        ~ (r * fRowBytes dstMask <= off < r * fRowBytes dstMask + 2 * width)) ->
     load image' off = load (fImage dstMask) off).
Proof.
  intros width height Hmode Hbytes Hw Hh Hrb Hlen image'.
  destruct (copyFT2LCD16_writes false srcFTBitmap false [] [] [] dstMask
              (fun src x => grayToRGB16 (load (buffer srcFTBitmap) (src + x)))
              (lcd16_row_gray srcFTBitmap width) (pitch srcFTBitmap))
    as (Hlen' & Hcells & Hframe); try assumption.
  { unfold copyFT2LCD16. by rewrite Hmode. }
  { by apply lcd16_row_gray_writes. }
  split; [exact Hlen'|]. split; [|exact Hframe].
  intros r x Hr Hx gray pixel.
  assert (Hpixel : pixel = grayToRGB16 gray) by (by apply Hcells).
  assert (Hgray : 0 <= gray <= 0xFF) by (by apply load_byte).
  destruct (SkPack888ToRGB16_channels gray gray gray Hgray Hgray Hgray)
    as (HR & HG & HB).
  rewrite Hpixel. unfold grayToRGB16. cbn [kSkShowTextBlitCoverage].
  rewrite HR, HG, HB. split; [reflexivity|].
  repeat (split; [reflexivity|]).
  by rewrite Z.shiftr_shiftr by lia.
Qed.

Lemma copyFTBitmap_gray_to_lcd16_witness :
  let image' :=
    @copyFTBitmap Example.cpu Example.gray kLCD16_Format
                  (Example.blank 3 2 8 16) in
  let pixel := @load16 Example.cpu image' (1 * 8 + 2 * 2) in
  pixel = 0x4208 /\
  SkGetPackedR16 pixel = Z.shiftr (SkGetPackedG16 pixel) 1.
Proof.
  intros image' pixel. split; [vm_compute; reflexivity|].
  assert (Hbytes : bytes (buffer Example.gray)).
  { unfold Example.gray, buffer, bytes.
    repeat (apply Forall_cons_2; [lia|]). apply Forall_nil_2. }
  assert (Hfits :
    SkIRect_height (fBounds (Example.blank 3 2 8 16))
    * fRowBytes (Example.blank 3 2 8 16)
    <= Z.of_nat (length (fImage (Example.blank 3 2 8 16))))
    by (vm_compute; congruence).
  destruct (@copyFTBitmap_gray_to_lcd16 Example.cpu Example.gray
              (Example.blank 3 2 8 16) eq_refl Hbytes ltac:(by_computing)
              ltac:(by_computing) ltac:(by_computing) Hfits)
    as (_ & Hcells & _).
  destruct (Hcells 1 2 ltac:(by_computing) ltac:(by_computing))
    as (_ & _ & _ & _ & Hfringe).
  exact Hfringe.
Defined.

(** X15. [copyFTBitmap] from a mono bitmap into an LCD16 mask with room for
    its pixels: the pixel at the column [x] of the row [r] is 0xFFFF
    where [bittst] reads a set bit at this place of the bitmap and 0
    elsewhere; the length of the image and every byte outside the pixels
    stay as they were. *)
Theorem copyFTBitmap_mono_to_lcd16 `{SkCPU} (srcFTBitmap : FT_Bitmap)
    (dstMask : SkMask) :
  let width := SkIRect_width (fBounds dstMask) in
  let height := SkIRect_height (fBounds dstMask) in
  pixel_mode srcFTBitmap = FT_PIXEL_MODE_MONO ->
  0 <= width -> 0 <= height -> 2 * width <= fRowBytes dstMask ->
  height * fRowBytes dstMask <= Z.of_nat (length (fImage dstMask)) ->
  let image' := copyFTBitmap srcFTBitmap kLCD16_Format dstMask in
  length image' = length (fImage dstMask) /\
  (forall r x, 0 <= r < height -> 0 <= x < width ->
     load16 image' (r * fRowBytes dstMask + 2 * x)
     = if bittst (buffer srcFTBitmap)
                 (buffer_pos srcFTBitmap + r * pitch srcFTBitmap) x =? 0
       then 0 else 0xFFFF) /\
  (forall off,
     (forall r, 0 <= r < height ->
        ~ (r * fRowBytes dstMask <= off < r * fRowBytes dstMask + 2 * width)) ->
     load image' off = load (fImage dstMask) off).
Proof.
  intros width height Hmode Hw Hh Hrb Hlen image'.
  apply (copyFT2LCD16_writes false srcFTBitmap false [] [] [] dstMask
           (fun src x =>
              if bittst (buffer srcFTBitmap) src x =? 0 then 0 else 0xFFFF)
           (lcd16_row_mono srcFTBitmap width) (pitch srcFTBitmap));
    try assumption.
  - unfold copyFT2LCD16. by rewrite Hmode.
  - by apply lcd16_row_mono_writes.
Qed.

Lemma copyFTBitmap_mono_to_lcd16_witness :
  let image' :=
    @copyFTBitmap Example.cpu Example.mono kLCD16_Format
                  (Example.blank 10 2 20 40) in
  @load16 Example.cpu image' (1 * 20 + 2 * 9) = 0xFFFF /\
  @load16 Example.cpu image' (1 * 20 + 2 * 9)
  = if bittst (buffer Example.mono)
              (buffer_pos Example.mono + 1 * pitch Example.mono) 9 =? 0
    then 0 else 0xFFFF.
Proof.
  intros image'. split; [vm_compute; reflexivity|].
  assert (Hfits :
    SkIRect_height (fBounds (Example.blank 10 2 20 40))
    * fRowBytes (Example.blank 10 2 20 40)
    <= Z.of_nat (length (fImage (Example.blank 10 2 20 40))))
    by (vm_compute; congruence).
  destruct (@copyFTBitmap_mono_to_lcd16 Example.cpu Example.mono
              (Example.blank 10 2 20 40) eq_refl ltac:(by_computing)
              ltac:(by_computing) ltac:(by_computing) Hfits)
    as (_ & Hcells & _).
  exact (Hcells 1 9 ltac:(by_computing) ltac:(by_computing)).
Defined.

(** X16. [copyFT2LCD16] from a bitmap of LCD triples into a mask with room
    for its pixels: the pixel at the column [x] of the row [r] packs the
    three samples of this place, which lie side by side in the row [r] of
    a horizontal bitmap and one below the other in the rows [3 r],
    [3 r + 1] and [3 r + 2] of a vertical one, each looked up in the table
    of its channel when [APPLY_PREBLEND] is set; with [lcdIsBGR] the
    first sample is the blue one and the third the red one.  The length
    of the image and every byte outside the pixels stay as they were. *)
Theorem copyFT2LCD16_triples `{SkCPU} (APPLY_PREBLEND : bool)
    (bitmap : FT_Bitmap) (mask : SkMask) (lcdIsBGR : bool)
    (tableR tableG tableB : list Z) :
  let width := SkIRect_width (fBounds mask) in
  let height := SkIRect_height (fBounds mask) in
  pixel_mode bitmap = FT_PIXEL_MODE_LCD \/
  pixel_mode bitmap = FT_PIXEL_MODE_LCD_V ->
  bytes (buffer bitmap) ->
  bytes tableR -> bytes tableG -> bytes tableB ->
  0 <= width -> 0 <= height -> 2 * width <= fRowBytes mask ->
  height * fRowBytes mask <= Z.of_nat (length (fImage mask)) ->
  let image' :=
    copyFT2LCD16 APPLY_PREBLEND bitmap lcdIsBGR tableR tableG tableB mask in
  length image' = length (fImage mask) /\
  (forall r x, 0 <= r < height -> 0 <= x < width ->
     load16 image' (r * fRowBytes mask + 2 * x)
     = let '(sr, sg, sb) := lcd_samples bitmap lcdIsBGR r x in
       packTriple (sk_apply_lut_if APPLY_PREBLEND sr tableR)
                  (sk_apply_lut_if APPLY_PREBLEND sg tableG)
                  (sk_apply_lut_if APPLY_PREBLEND sb tableB)) /\
  (forall off,
     (forall r, 0 <= r < height ->
        ~ (r * fRowBytes mask <= off < r * fRowBytes mask + 2 * width)) ->
     load image' off = load (fImage mask) off).
Proof.
  intros width height Hmode Hbytes HR HG HB Hw Hh Hrb Hlen image'.
  destruct Hmode as [Hmode|Hmode].
  - destruct (copyFT2LCD16_writes APPLY_PREBLEND bitmap lcdIsBGR tableR tableG
                tableB mask _ _ (pitch bitmap)
                ltac:(unfold copyFT2LCD16; by rewrite Hmode)
                (lcd16_row_lcd_writes APPLY_PREBLEND bitmap lcdIsBGR tableR
                   tableG tableB Hbytes HR HG HB width Hw) Hw Hh Hrb Hlen)
      as (Hlen' & Hcells & Hframe).
    split; [exact Hlen'|]. split; [|exact Hframe].
    intros r x Hr Hx. unfold image'. rewrite (Hcells r x Hr Hx).
    unfold lcd_samples, triple_pixel. rewrite Hmode.
    destruct lcdIsBGR; cbv beta iota zeta;
      (f_equal; (f_equal; (f_equal; lia))).
  - destruct (copyFT2LCD16_writes APPLY_PREBLEND bitmap lcdIsBGR tableR tableG
                tableB mask _ _ (3 * pitch bitmap)
                ltac:(unfold copyFT2LCD16; by rewrite Hmode)
                (lcd16_row_lcd_v_writes APPLY_PREBLEND bitmap lcdIsBGR tableR
                   tableG tableB Hbytes HR HG HB width Hw) Hw Hh Hrb Hlen)
      as (Hlen' & Hcells & Hframe).
    split; [exact Hlen'|]. split; [|exact Hframe].
    intros r x Hr Hx. unfold image'. rewrite (Hcells r x Hr Hx).
    unfold lcd_samples, triple_pixel. rewrite Hmode.
    destruct lcdIsBGR; cbv beta iota zeta;
      (f_equal; (f_equal; (f_equal; lia))).
Qed.

Lemma copyFT2LCD16_triples_witness :
  let image' :=
    @copyFT2LCD16 Example.cpu true Example.lcd true Example.invert
                  Example.invert Example.invert (Example.blank 2 1 4 4) in
  image' = [0xE0; 0xFB; 0xFD; 0xCE] /\
  @load16 Example.cpu image' (0 * 4 + 2 * 1)
  = let '(sr, sg, sb) := lcd_samples Example.lcd true 0 1 in
    packTriple (sk_apply_lut_if true sr Example.invert)
               (sk_apply_lut_if true sg Example.invert)
               (sk_apply_lut_if true sb Example.invert).
Proof.
  intros image'. split; [vm_compute; reflexivity|].
  assert (Hbytes : bytes (buffer Example.lcd)).
  { unfold Example.lcd, buffer, bytes.
    repeat (apply Forall_cons_2; [lia|]). apply Forall_nil_2. }
  assert (Htable : bytes Example.invert).
  { unfold Example.invert, bytes. apply Forall_fmap, Forall_forall.
    intros i Hi. apply elem_of_seq in Hi. cbn. lia. }
  assert (Hfits :
    SkIRect_height (fBounds (Example.blank 2 1 4 4))
    * fRowBytes (Example.blank 2 1 4 4)
    <= Z.of_nat (length (fImage (Example.blank 2 1 4 4))))
    by (vm_compute; congruence).
  destruct (@copyFT2LCD16_triples Example.cpu true Example.lcd
              (Example.blank 2 1 4 4) true Example.invert Example.invert
              Example.invert (or_introl eq_refl) Hbytes Htable Htable Htable
              ltac:(by_computing) ltac:(by_computing) ltac:(by_computing)
              Hfits)
    as (_ & Hcells & _).
  exact (Hcells 0 1 ltac:(by_computing) ltac:(by_computing)).
Defined.

(** ** BGRA to ARGB32 *)

Section Cell32Facts.
Context `{SkCPU}.

Lemma join32 (v : Z) :
  0 <= v < 2 ^ 32 ->
  Z.lor (Z.shiftl (Z.land (Z.shiftr v 16) 0xFFFF) 16) (Z.land v 0xFFFF) = v.
Proof.
  intros Hv. apply Z.bits_inj'. intros i Hi.
  change 0xFFFF with (Z.ones 16).
  rewrite Z.lor_spec, Z.land_spec, Z.testbit_ones_nonneg by lia.
  destruct (Z.ltb_spec i 16).
  - rewrite Z.shiftl_spec_low by lia. by rewrite andb_true_r.
  - rewrite Z.shiftl_spec, Z.land_spec, Z.shiftr_spec,
      Z.testbit_ones_nonneg by lia.
    replace (i - 16 + 16) with i by lia. rewrite andb_false_r, orb_false_r.
    destruct (Z.ltb_spec (i - 16) 16); [by rewrite andb_true_r|].
    rewrite andb_false_r.
    symmetry. apply (Z.bounded_iff_bits_nonneg 32 v); lia.
Qed.

Lemma land_ones_range (v n : Z) : 0 <= n -> 0 <= Z.land v (Z.ones n) < 2 ^ n.
Proof. intros Hn. rewrite Z.land_ones by lia. apply Z.mod_pos_bound. lia. Qed.

Lemma length_store32 buf off v : length (store32 buf off v) = length buf.
Proof.
  unfold store32. destruct SK_CPU_BENDIAN; by rewrite !length_store16.
Qed.

Lemma load_store32_ne buf off k v :
  ~ (off <= k < off + 4) -> load (store32 buf off v) k = load buf k.
Proof.
  intros Hk. unfold store32.
  destruct SK_CPU_BENDIAN; by rewrite !load_store16_ne by lia.
Qed.

Lemma load32_store32_eq buf off v :
  0 <= off -> off + 4 <= Z.of_nat (length buf) -> 0 <= v < 2 ^ 32 ->
  load32 (store32 buf off v) off = v.
Proof.
  intros Hoff Hlen Hv. unfold load32, store32.
  pose proof (land_ones_range v 16 ltac:(lia)) as Hlo.
  pose proof (land_ones_range (Z.shiftr v 16) 16 ltac:(lia)) as Hhi.
  change (Z.ones 16) with 0xFFFF in *.
  assert (Hfirst : forall a b,
            0 <= a < 2 ^ 16 ->
            load16 (store16 (store16 buf off a) (off + 2) b) off = a).
  { intros a b Ha.
    rewrite <- (load16_store16_eq buf off a) at 2 by lia.
    apply reads_cell_load16. intros k Hk. apply load_store16_ne; lia. }
  destruct SK_CPU_BENDIAN.
  - rewrite load16_store16_eq by (rewrite ?length_store16; lia).
    rewrite Hfirst by lia. by apply join32.
  - rewrite load16_store16_eq by (rewrite ?length_store16; lia).
    rewrite Hfirst by lia. by apply join32.
Qed.

Lemma reads_cell_load32 : reads_cell 4 load32.
Proof.
  intros image image' off Hsame. unfold load32.
  rewrite (reads_cell_load16 image image' off),
    (reads_cell_load16 image image' (off + 2));
    [reflexivity | |]; intros k Hk; apply Hsame; lia.
Qed.

(** One more 32-bit cell. *)
Lemma row_written_store32 dst val image j image' v :
  0 <= dst -> 0 <= j -> dst + 4 * (j + 1) <= Z.of_nat (length image) ->
  0 <= v < 2 ^ 32 -> v = val j ->
  row_written 4 load32 dst val image j image' ->
  row_written 4 load32 dst val image (j + 1) (store32 image' (dst + 4 * j) v).
Proof.
  intros Hdst Hj Hlen Hv -> (Hlen' & Hcells & Hframe).
  split; [by rewrite length_store32|]. split.
  - intros k Hk. destruct (Z.eq_dec k j) as [->|Hne].
    + apply load32_store32_eq; lia.
    + rewrite <- (Hcells k) by lia. apply reads_cell_load32.
      intros i Hi. apply load_store32_ne; lia.
  - intros off Hoff. rewrite load_store32_ne by lia. apply Hframe. lia.
Qed.

(** The bits of a byte at a shift. *)
Lemma byte_shift_bits (c s i : Z) :
  0 <= c <= 0xFF -> 0 <= s -> 0 <= i ->
  Z.testbit (Z.shiftl c s) i
  = Z.testbit c (i - s) && ((s <=? i) && (i <? s + 8)).
Proof.
  intros Hc Hs Hi. destruct (Z.leb_spec s i).
  - rewrite Z.shiftl_spec by lia. cbn [andb].
    destruct (Z.ltb_spec i (s + 8)); [by rewrite andb_true_r|].
    rewrite andb_false_r. apply (Z.bounded_iff_bits_nonneg 8 c); lia.
  - rewrite Z.shiftl_spec_low by lia. by rewrite andb_false_r.
Qed.

Lemma SkPackARGB32_bits (a r g b i : Z) :
  0 <= SK_A32_SHIFT -> 0 <= SK_R32_SHIFT ->
  0 <= SK_G32_SHIFT -> 0 <= SK_B32_SHIFT ->
  0 <= a <= 0xFF -> 0 <= r <= 0xFF -> 0 <= g <= 0xFF -> 0 <= b <= 0xFF ->
  0 <= i ->
  Z.testbit (SkPackARGB32 a r g b) i
  = (Z.testbit a (i - SK_A32_SHIFT)
       && ((SK_A32_SHIFT <=? i) && (i <? SK_A32_SHIFT + 8)))
    || (Z.testbit r (i - SK_R32_SHIFT)
          && ((SK_R32_SHIFT <=? i) && (i <? SK_R32_SHIFT + 8)))
    || ((Z.testbit g (i - SK_G32_SHIFT)
           && ((SK_G32_SHIFT <=? i) && (i <? SK_G32_SHIFT + 8)))
        || (Z.testbit b (i - SK_B32_SHIFT)
              && ((SK_B32_SHIFT <=? i) && (i <? SK_B32_SHIFT + 8)))).
Proof.
  intros. unfold SkPackARGB32.
  by rewrite !Z.lor_spec, !byte_shift_bits by lia.
Qed.

Lemma SkPackARGB32_range (a r g b : Z) :
  channel_shifts ->
  0 <= a <= 0xFF -> 0 <= r <= 0xFF -> 0 <= g <= 0xFF -> 0 <= b <= 0xFF ->
  0 <= SkPackARGB32 a r g b < 2 ^ 32.
Proof.
  intros [Hshifts _] Ha Hr Hg Hb.
  apply Forall_cons in Hshifts as [HA Hshifts].
  apply Forall_cons in Hshifts as [HR Hshifts].
  apply Forall_cons in Hshifts as [HG Hshifts].
  apply Forall_cons in Hshifts as [HB _].
  assert (Hnn : 0 <= SkPackARGB32 a r g b).
  { unfold SkPackARGB32. rewrite !Z.lor_nonneg, !Z.shiftl_nonneg. lia. }
  split; [exact Hnn|].
  apply (Z.bounded_iff_bits_nonneg 32); [lia | exact Hnn|].
  intros i Hi. rewrite SkPackARGB32_bits by lia.
  destruct (Z.ltb_spec i (SK_A32_SHIFT + 8)); [lia|].
  destruct (Z.ltb_spec i (SK_R32_SHIFT + 8)); [lia|].
  destruct (Z.ltb_spec i (SK_G32_SHIFT + 8)); [lia|].
  destruct (Z.ltb_spec i (SK_B32_SHIFT + 8)); [lia|].
  by rewrite !andb_false_r.
Qed.

(** A bit of the byte at the shift [s] is in that byte and in no
    other. *)
Lemma own_byte (s i : Z) :
  0 <= i < 8 -> (s <=? i + s) && (i + s <? s + 8) = true.
Proof.
  intros Hi. destruct (Z.leb_spec s (i + s)), (Z.ltb_spec (i + s) (s + 8));
    first [reflexivity | lia].
Qed.

Lemma other_byte (s t i : Z) :
  (s = 0 \/ s = 8 \/ s = 16 \/ s = 24) ->
  (t = 0 \/ t = 8 \/ t = 16 \/ t = 24) ->
  s <> t -> 0 <= i < 8 ->
  (t <=? i + s) && (i + s <? t + 8) = false.
Proof.
  intros Hs Ht Hne Hi.
  destruct (Z.leb_spec t (i + s)), (Z.ltb_spec (i + s) (t + 8));
    first [reflexivity | lia].
Qed.

(** Each channel of a packed colour is the byte that was packed. *)
Lemma SkPackARGB32_channels (a r g b : Z) :
  channel_shifts ->
  0 <= a <= 0xFF -> 0 <= r <= 0xFF -> 0 <= g <= 0xFF -> 0 <= b <= 0xFF ->
  SkGetPacked32 SK_A32_SHIFT (SkPackARGB32 a r g b) = a /\
  SkGetPacked32 SK_R32_SHIFT (SkPackARGB32 a r g b) = r /\
  SkGetPacked32 SK_G32_SHIFT (SkPackARGB32 a r g b) = g /\
  SkGetPacked32 SK_B32_SHIFT (SkPackARGB32 a r g b) = b.
Proof.
  intros [Hshifts Hdup] Ha Hr Hg Hb.
  apply Forall_cons in Hshifts as [HA Hshifts].
  apply Forall_cons in Hshifts as [HR Hshifts].
  apply Forall_cons in Hshifts as [HG Hshifts].
  apply Forall_cons in Hshifts as [HB _].
  assert (Hne : SK_A32_SHIFT <> SK_R32_SHIFT /\ SK_A32_SHIFT <> SK_G32_SHIFT /\
                SK_A32_SHIFT <> SK_B32_SHIFT /\ SK_R32_SHIFT <> SK_G32_SHIFT /\
                SK_R32_SHIFT <> SK_B32_SHIFT /\ SK_G32_SHIFT <> SK_B32_SHIFT).
  { apply NoDup_cons in Hdup as [H1 Hdup].
    apply NoDup_cons in Hdup as [H2 Hdup].
    apply NoDup_cons in Hdup as [H3 _].
    set_solver. }
  destruct Hne as (NAR & NAG & NAB & NRG & NRB & NGB).
  assert (Hhigh : forall c j, 0 <= c <= 0xFF -> 8 <= j ->
                    Z.testbit c j = false).
  { intros c j Hc Hj. apply (Z.bounded_iff_bits_nonneg 8 c); lia. }
  assert (Hchannel : forall s c : Z,
    0 <= s -> 0 <= c <= 0xFF ->
    (forall i, 0 <= i < 8 ->
       Z.testbit (SkPackARGB32 a r g b) (i + s) = Z.testbit c i) ->
    Z.land (Z.shiftr (SkPackARGB32 a r g b) s) (Z.ones 8) = c).
  { intros s c Hs Hc Hbits. apply Z.bits_inj'. intros i Hi.
    rewrite Z.land_spec, Z.testbit_ones_nonneg, Z.shiftr_spec by lia.
    destruct (Z.ltb_spec i 8).
    - rewrite andb_true_r. apply Hbits. lia.
    - rewrite andb_false_r. symmetry. apply Hhigh; lia. }
  unfold SkGetPacked32. change 0xFF with (Z.ones 8).
  repeat split; apply Hchannel; try lia; intros i Hi;
    rewrite SkPackARGB32_bits by lia;
    rewrite own_byte by lia;
    rewrite !(other_byte _ _ i) by (assumption || lia || congruence);
    rewrite ?andb_true_r, ?andb_false_r, ?orb_false_r, ?orb_false_l;
    f_equal; lia.
Qed.
End Cell32Facts.

Section BGRAFacts.
Context `{SkCPU}.
Variable srcFTBitmap : FT_Bitmap.
Hypothesis shifts : channel_shifts.
Hypothesis buffer_bytes : bytes (buffer srcFTBitmap).

Lemma copy_row_bgra_writes (width : Z) :
  0 <= width ->
  writes_row 4 load32 width
    (fun src x =>
       let t i := load (buffer srcFTBitmap) (src + 4 * x + i) in
       SkPackARGB32 (t 3) (t 2) (t 1) (t 0))
    (copy_row_bgra srcFTBitmap width).
Proof.
  intros Hwidth src dst image Hdst Hlen. apply row_written_row.
  unfold copy_row_bgra.
  set (val x :=
    let t i := load (buffer srcFTBitmap) (src + 4 * x + i) in
    SkPackARGB32 (t 3) (t 2) (t 1) (t 0)).
  match goal with
  | |- context [for_loop ?n 0 ?body ?init] =>
      pose proof (for_loop_ind
        (fun j (st : Z * Z * list Z) =>
           let '(src_row, dst_row, image') := st in
           src_row = src + 4 * j /\ dst_row = dst + 4 * j /\
           row_written 4 load32 dst val image j image')
        body n 0 init) as Hind
  end.
  rewrite Z.add_0_l, Z2Nat.id in Hind by lia.
  destruct (for_loop _ _ _ _) as [[src_row dst_row] image'].
  apply Hind.
  - split; [lia|]. split; [lia|]. apply row_written_start.
  - intros j [[s d] im] Hj (-> & -> & Hinv).
    split; [lia|]. split; [lia|].
    apply row_written_store32; try lia; try exact Hinv.
    + apply SkPackARGB32_range; try assumption; by apply load_byte.
    + unfold val. cbv zeta. rewrite Z.add_0_r. reflexivity.
Qed.
End BGRAFacts.

(** X17. [copyFTBitmap] from a BGRA bitmap into an ARGB32 mask with room for
    its pixels: the pixel at the column [x] of the row [r] is the
    [SkPMColor] whose blue, green, red and alpha are the first, second,
    third and fourth byte of the pixel of the bitmap, whatever the byte
    order of the processor and the order of the channels in an
    [SkPMColor]; the length of the image and every byte outside the
    pixels stay as they were. *)
Theorem copyFTBitmap_bgra_to_argb32 `{SkCPU} (srcFTBitmap : FT_Bitmap)
    (dstMask : SkMask) :
  channel_shifts ->
  pixel_mode srcFTBitmap = FT_PIXEL_MODE_BGRA ->
  bytes (buffer srcFTBitmap) ->
  0 <= width srcFTBitmap -> 0 <= rows srcFTBitmap ->
  4 * width srcFTBitmap <= fRowBytes dstMask ->
  rows srcFTBitmap * fRowBytes dstMask <= Z.of_nat (length (fImage dstMask)) ->
  let image' := copyFTBitmap srcFTBitmap kARGB32_Format dstMask in
  length image' = length (fImage dstMask) /\
  (forall r x, 0 <= r < rows srcFTBitmap -> 0 <= x < width srcFTBitmap ->
     let sample i :=
       load (buffer srcFTBitmap)
            (buffer_pos srcFTBitmap + r * pitch srcFTBitmap + 4 * x + i) in
     let pixel := load32 image' (r * fRowBytes dstMask + 4 * x) in
     SkGetPacked32 SK_B32_SHIFT pixel = sample 0 /\
     SkGetPacked32 SK_G32_SHIFT pixel = sample 1 /\
     SkGetPacked32 SK_R32_SHIFT pixel = sample 2 /\
     SkGetPacked32 SK_A32_SHIFT pixel = sample 3) /\
  (forall off,
     (forall r, 0 <= r < rows srcFTBitmap ->
        ~ (r * fRowBytes dstMask <= off
           < r * fRowBytes dstMask + 4 * width srcFTBitmap)) ->
     load image' off = load (fImage dstMask) off).
Proof.
  intros Hshifts Hmode Hbytes Hw Hh Hrb Hlen image'.
  assert (Himage :
    writes_image 4 load32 (width srcFTBitmap) (rows srcFTBitmap)
      (fRowBytes dstMask)
      (fun r x =>
         let t i :=
           load (buffer srcFTBitmap)
                (buffer_pos srcFTBitmap + r * pitch srcFTBitmap + 4 * x + i) in
         SkPackARGB32 (t 3) (t 2) (t 1) (t 0))
      (fImage dstMask) image').
  { unfold image', copyFTBitmap. rewrite Hmode.
    rewrite <- (Z2Nat.id (rows srcFTBitmap)) at 1 by lia.
    apply (for_rows_writes 4 load32 _ _ _ _
             (fun src x =>
                let t i := load (buffer srcFTBitmap) (src + 4 * x + i) in
                SkPackARGB32 (t 3) (t 2) (t 1) (t 0))); try lia.
    - by apply copy_row_bgra_writes.
    - apply reads_cell_load32. }
  destruct Himage as (Hlen' & Hcells & Hframe).
  split; [exact Hlen'|]. split; [|exact Hframe].
  intros r x Hr Hx sample pixel.
  unfold pixel. rewrite (Hcells r x Hr Hx).
  destruct (SkPackARGB32_channels (sample 3) (sample 2) (sample 1) (sample 0)
              Hshifts) as (HA & HR & HG & HB);
    try (by apply load_byte).
  exact (conj HB (conj HG (conj HR HA))).
Qed.

Lemma copyFTBitmap_bgra_to_argb32_witness :
  let image' :=
    @copyFTBitmap Example.cpu Example.bgra kARGB32_Format
                  (Example.blank 2 1 8 8) in
  let pixel := @load32 Example.cpu image' (0 * 8 + 4 * 1) in
  pixel = 0x80030201 /\
  SkGetPacked32 (@SK_B32_SHIFT Example.cpu) pixel = 0x01 /\
  SkGetPacked32 (@SK_A32_SHIFT Example.cpu) pixel = 0x80.
Proof.
  intros image' pixel. split; [vm_compute; reflexivity|].
  assert (Hshifts : @channel_shifts Example.cpu).
  { split.
    - repeat (apply Forall_cons_2; [cbn; lia|]). apply Forall_nil_2.
    - cbn. repeat (apply NoDup_cons; split; [set_solver|]). apply NoDup_nil_2. }
  assert (Hbytes : bytes (buffer Example.bgra)).
  { unfold Example.bgra, buffer, bytes.
    repeat (apply Forall_cons_2; [lia|]). apply Forall_nil_2. }
  assert (Hfits :
    rows Example.bgra * fRowBytes (Example.blank 2 1 8 8)
    <= Z.of_nat (length (fImage (Example.blank 2 1 8 8))))
    by (vm_compute; congruence).
  destruct (@copyFTBitmap_bgra_to_argb32 Example.cpu Example.bgra
              (Example.blank 2 1 8 8) Hshifts eq_refl Hbytes
              ltac:(vm_compute; congruence) ltac:(vm_compute; congruence)
              ltac:(vm_compute; congruence) Hfits)
    as (_ & Hcells & _).
  destruct (Hcells 0 1 ltac:(vm_compute; split; congruence)
              ltac:(vm_compute; split; congruence)) as (HB & _ & _ & HA).
  split; [exact HB | exact HA].
Defined.

(** ** Formats *)

(** X18. The bitmap that is to be scaled is copied into an intermediate
    bitmap whose mask format is made from the pixel mode of the glyph
    with [SkColorType_for_FTPixelMode] and [SkMaskFormat_for_SkColorType].
    For none of the three pixel modes [generateGlyphImage] expects does
    [copyFTBitmap] then leave the image as it is for want of a branch:
    mono is expanded to A8, gray is copied and BGRA is repacked. *)
Theorem scaled_bitmap_copy_is_supported `{SkCPU} (srcFTBitmap : FT_Bitmap)
    (dstMask : SkMask) :
  let dstFormat :=
    SkMaskFormat_for_SkColorType
      (SkColorType_for_FTPixelMode (pixel_mode srcFTBitmap)) in
  let height := Z.to_nat (rows srcFTBitmap) in
  let copy row :=
    for_rows height row (pitch srcFTBitmap) (fRowBytes dstMask)
             (buffer_pos srcFTBitmap) 0 (fImage dstMask) in
  (pixel_mode srcFTBitmap = FT_PIXEL_MODE_MONO ->
   dstFormat = kA8_Format /\
   copyFTBitmap srcFTBitmap dstFormat dstMask
   = copy (copy_row_mono_a8 srcFTBitmap (width srcFTBitmap))) /\
  (pixel_mode srcFTBitmap = FT_PIXEL_MODE_GRAY ->
   dstFormat = kA8_Format /\
   copyFTBitmap srcFTBitmap dstFormat dstMask
   = copy (memcpy (buffer srcFTBitmap)
                  (Z.min (Z.abs (pitch srcFTBitmap)) (fRowBytes dstMask)))) /\
  (pixel_mode srcFTBitmap = FT_PIXEL_MODE_BGRA ->
   dstFormat = kARGB32_Format /\
   copyFTBitmap srcFTBitmap dstFormat dstMask
   = copy (copy_row_bgra srcFTBitmap (width srcFTBitmap))).
Proof.
  intros dstFormat height copy. unfold dstFormat, copy, copyFTBitmap.
  split; [|split]; intros ->; split; reflexivity.
Qed.

(** ** Pieces of [generateGlyphImage] *)

Lemma to_uint32_id (v : Z) : 0 <= v < 2 ^ 32 -> to_uint32 v = v.
Proof. intros Hv. unfold to_uint32. by apply Z.mod_small. Qed.

Lemma to_int32_id (v : Z) : - 2 ^ 31 <= v < 2 ^ 31 -> to_int32 v = v.
Proof. intros Hv. unfold to_int32. rewrite Z.mod_small; lia. Qed.

(** Without the bits of 63. *)
Lemma land_lnot_63 (v : Z) : Z.land v (Z.lnot 63) = 64 * (v / 64).
Proof.
  rewrite <- Z.ldiff_land. change 63 with (Z.ones 6).
  rewrite Z.ldiff_ones_r by lia.
  rewrite Z.shiftl_mul_pow2, Z.shiftr_div_pow2 by lia.
  change (2 ^ 6) with 64. lia.
Qed.

(** X19. The translation that [generateGlyphImage] gives an outline puts its
    control box into the first pixel and keeps its place within the
    pixel: the translated minimum is the subpixel part of the minimum
    moved by [d], a 26.6 number from 0 to 63. *)
Theorem outline_translation_first_pixel (bbox_min d : Z) :
  bbox_min + outline_translation bbox_min d = (bbox_min + d) mod 64 /\
  0 <= bbox_min + outline_translation bbox_min d < 64.
Proof.
  unfold outline_translation. rewrite land_lnot_63.
  pose proof (Z.mod_pos_bound (bbox_min + d) 64 ltac:(lia)).
  pose proof (Z.div_mod (bbox_min + d) 64 ltac:(lia)). lia.
Qed.


(** An [int] that has gone through [unsigned int] comes back. *)
Lemma to_int32_uint32 (v : Z) :
  - 2 ^ 31 <= v < 2 ^ 31 -> to_int32 (to_uint32 v) = v.
Proof.
  intros Hv. unfold to_int32, to_uint32.
  rewrite Z.add_mod_idemp_l by lia.
  rewrite Z.mod_small by lia. lia.
Qed.

(** *** Fitting an LCD bitmap and its mask *)

(** What the first four statements keep and reach on an input in range:
    the extents are in range, the origins are those of the part that
    bitmap and mask have in common, and the bitmap has lost what lay
    before them. *)
Lemma fit_aligned (bitmap_pitch mask_rowBytes : Z) (st : LCDFit) :
  fit_input st ->
  let st' :=
    skip_mask_columns
      (skip_mask_rows mask_rowBytes
         (skip_bitmap_columns (skip_bitmap_rows bitmap_pitch st))) in
  fTop (mask_bounds st') = Z.max (fTop (mask_bounds st)) (- bitmap_top st) /\
  fLeft (mask_bounds st') = Z.max (fLeft (mask_bounds st)) (bitmap_left st) /\
  fBottom (mask_bounds st') = fBottom (mask_bounds st) /\
  fRight (mask_bounds st') = fRight (mask_bounds st) /\
  bitmap_top st' = - fTop (mask_bounds st') /\
  bitmap_left st' = fLeft (mask_bounds st') /\
  bitmap_rows st'
  = bitmap_rows st - (fTop (mask_bounds st') - - bitmap_top st) /\
  bitmap_width st'
  = bitmap_width st - (fLeft (mask_bounds st') - bitmap_left st).
Proof.
  destruct st as [bl bt rows width buf [l t r b] img].
  intros (Hl & Hr & Ht & Hb & Hbl & Hbt & Hrows & Hwidth & Hx1 & Hx2 & Hy1
          & Hy2); cbn in Hl, Hr, Ht, Hb, Hbl, Hbt, Hrows, Hwidth, Hx1, Hx2,
                          Hy1, Hy2.
  unfold skip_bitmap_rows.
  cbn [bitmap_left bitmap_top bitmap_rows bitmap_width bitmap_buffer
       mask_bounds mask_image fLeft fTop fRight fBottom].
  destruct (Z.ltb_spec (- bt) t);
    unfold skip_bitmap_columns;
    cbn [bitmap_left bitmap_top bitmap_rows bitmap_width bitmap_buffer
         mask_bounds mask_image fLeft fTop fRight fBottom];
    destruct (Z.ltb_spec bl l);
    unfold skip_mask_rows;
    cbn [bitmap_left bitmap_top bitmap_rows bitmap_width bitmap_buffer
         mask_bounds mask_image fLeft fTop fRight fBottom];
    match goal with
    | |- context [Z.ltb ?a ?c] => destruct (Z.ltb_spec a c)
    end; try lia;
    unfold skip_mask_columns;
    cbn [bitmap_left bitmap_top bitmap_rows bitmap_width bitmap_buffer
         mask_bounds mask_image fLeft fTop fRight fBottom];
    match goal with
    | |- context [Z.ltb ?a ?c] => destruct (Z.ltb_spec a c)
    end; try lia;
    cbn [bitmap_left bitmap_top bitmap_rows bitmap_width bitmap_buffer
         mask_bounds mask_image fLeft fTop fRight fBottom];
    rewrite ?to_uint32_id by lia; lia.
Qed.

(** What the last four statements reach once the origins agree: each
    extent of the bitmap is the smaller one of what it was and of what the
    mask takes, and the mask ends where the bitmap does. *)
Lemma fit_clamped (doVert : bool) (st : LCDFit) :
  0 <= bitmap_rows st <= 2 ^ 28 ->
  0 <= bitmap_width st <= 2 ^ 28 ->
  - 2 ^ 28 <= fTop (mask_bounds st) ->
  fTop (mask_bounds st) <= fBottom (mask_bounds st) <= 2 ^ 28 ->
  - 2 ^ 28 <= fLeft (mask_bounds st) ->
  fLeft (mask_bounds st) <= fRight (mask_bounds st) <= 2 ^ 28 ->
  let st' :=
    clamp_mask_right doVert
      (clamp_mask_bottom doVert
         (clamp_bitmap_width doVert (clamp_bitmap_rows doVert st))) in
  fTop (mask_bounds st') = fTop (mask_bounds st) /\
  fLeft (mask_bounds st') = fLeft (mask_bounds st) /\
  bitmap_top st' = bitmap_top st /\
  bitmap_left st' = bitmap_left st /\
  bitmap_rows st'
  = Z.min (bitmap_rows st)
      (SkIRect_height (mask_bounds st) * ftVertScale doVert) /\
  bitmap_width st'
  = Z.min (bitmap_width st)
      (SkIRect_width (mask_bounds st) * ftHoriScale doVert) /\
  SkIRect_height (mask_bounds st') = bitmap_rows st' / ftVertScale doVert /\
  SkIRect_width (mask_bounds st') = bitmap_width st' / ftHoriScale doVert.
Proof.
  destruct st as [bl bt rows width buf [l t r b] img].
  cbn [bitmap_left bitmap_top bitmap_rows bitmap_width bitmap_buffer
       mask_bounds mask_image fLeft fTop fRight fBottom].
  intros Hrows Hwidth Ht Hb Hl Hr.
  assert (Hdiv : forall a, 0 <= a <= 2 ^ 28 -> 0 <= a / 3 <= a).
  { intros a Ha. Z.to_euclidean_division_equations. lia. }
  pose proof (Hdiv rows Hrows) as Hrows3.
  pose proof (Hdiv width Hwidth) as Hwidth3.
  assert (Hmul : forall a, (a * 3) / 3 = a /\ a * 1 / 1 = a /\ a / 1 = a).
  { intros a. rewrite Z.div_mul by lia. rewrite !Z.div_1_r. lia. }
  assert (Hlow : forall a c, a * 3 <= c -> a <= c / 3).
  { intros a c Hac. Z.to_euclidean_division_equations. lia. }
  assert (Hhigh : forall a c, c <= a * 3 -> c / 3 <= a).
  { intros a c Hac. Z.to_euclidean_division_equations. lia. }
  unfold clamp_bitmap_rows, SkToInt, SkIRect_height, SkIRect_width.
  cbn [bitmap_left bitmap_top bitmap_rows bitmap_width bitmap_buffer
       mask_bounds mask_image fLeft fTop fRight fBottom].
  rewrite (to_int32_id rows) by lia.
  destruct doVert; cbn [ftVertScale ftHoriScale];
    match goal with
    | |- context [Z.ltb ?a ?c] => destruct (Z.ltb_spec a c)
    end;
    unfold clamp_bitmap_width, SkToInt, SkIRect_height, SkIRect_width;
    cbn [bitmap_left bitmap_top bitmap_rows bitmap_width bitmap_buffer
         mask_bounds mask_image fLeft fTop fRight fBottom
         ftVertScale ftHoriScale];
    rewrite ?Z.mul_1_r, ?Z.div_1_r;
    rewrite (to_int32_id width) by lia;
    match goal with
    | |- context [Z.ltb ?a ?c] => destruct (Z.ltb_spec a c)
    end;
    unfold clamp_mask_bottom, SkToInt, SkIRect_height, SkIRect_width;
    cbn [bitmap_left bitmap_top bitmap_rows bitmap_width bitmap_buffer
         mask_bounds mask_image fLeft fTop fRight fBottom
         ftVertScale ftHoriScale];
    rewrite ?Z.mul_1_r, ?Z.div_1_r;
    rewrite ?to_int32_uint32 by lia;
    rewrite ?to_uint32_id by lia; rewrite ?to_int32_id by lia;
    match goal with
    | |- context [Z.ltb ?a ?c] => destruct (Z.ltb_spec a c)
    end; try lia;
    unfold clamp_mask_right, SkToInt, SkIRect_height, SkIRect_width;
    cbn [bitmap_left bitmap_top bitmap_rows bitmap_width bitmap_buffer
         mask_bounds mask_image fLeft fTop fRight fBottom
         ftVertScale ftHoriScale];
    rewrite ?Z.mul_1_r, ?Z.div_1_r;
    rewrite ?to_int32_uint32 by lia;
    rewrite ?to_uint32_id by lia; rewrite ?to_int32_id by lia;
    match goal with
    | |- context [Z.ltb ?a ?c] => destruct (Z.ltb_spec a c)
    end; try lia;
    cbn [bitmap_left bitmap_top bitmap_rows bitmap_width bitmap_buffer
         mask_bounds mask_image fLeft fTop fRight fBottom
         ftVertScale ftHoriScale];
    rewrite ?Z.mul_1_r, ?Z.div_1_r;
    rewrite ?to_int32_uint32 by lia;
    rewrite ?to_uint32_id by lia; rewrite ?to_int32_id by lia;
    pose proof (Hmul (b - t)) as (Hm1 & Hm2 & Hm3);
    pose proof (Hmul (r - l)) as (Hm4 & Hm5 & Hm6);
    rewrite ?Hm1, ?Hm4;
    pose proof (Hlow (b - t) rows); pose proof (Hhigh (b - t) rows);
    pose proof (Hlow (r - l) width); pose proof (Hhigh (r - l) width);
    repeat split; lia.
Qed.

(** The whole pixels of [a] samples, [k] to a pixel, when at most [h]
    pixels are asked for. *)
Lemma div_scale_bounds (a h k : Z) :
  0 < k -> 0 <= a -> a <= h * k ->
  0 <= a / k /\ a / k * k <= a /\ a / k <= h.
Proof.
  intros Hk Ha Hah. split; [apply Z.div_pos; lia|]. split.
  - rewrite Z.mul_comm. apply Z.mul_div_le. lia.
  - apply Z.div_le_upper_bound; [lia|]. rewrite Z.mul_comm. exact Hah.
Qed.

(** Both scales are positive. *)
Lemma scale_pos (doVert : bool) :
  0 < ftVertScale doVert /\ 0 < ftHoriScale doVert.
Proof. destruct doVert; cbn; lia. Qed.

(** The smaller one of [r] samples and of the samples of [h] pixels. *)
Lemma min_scale_bounds (r h k : Z) :
  0 <= r -> 0 <= h -> 0 < k ->
  0 <= Z.min r (h * k) /\ Z.min r (h * k) <= r /\ Z.min r (h * k) <= h * k.
Proof.
  intros Hr Hh Hk. split; [apply Z.min_glb; [exact Hr | nia] |].
  split; [apply Z.le_min_l | apply Z.le_min_r].
Qed.

(** X20. When the rendered bitmap and the mask overlap, with coordinates and
    extents of at most 2^28, the eight statements of [generateGlyphImage]
    that fit them to each other leave both at the same origin, the later
    one of the two on each axis; the mask has only shrunk and covers
    exactly the whole pixels the bitmap has left (a third of its rows
    when the samples are stacked, of its columns when they are side by
    side): the pixels of the mask never take more rows or columns of
    samples than the bitmap has, and the bitmap has not grown. *)
Theorem fit_lcd_bitmap_fits (doVert : bool) (bitmap_pitch mask_rowBytes : Z)
    (st : LCDFit) :
  fit_input st ->
  let st' := fit_lcd_bitmap doVert bitmap_pitch mask_rowBytes st in
  let b := mask_bounds st in
  let b' := mask_bounds st' in
  (fTop b' = Z.max (fTop b) (- bitmap_top st) /\
   fLeft b' = Z.max (fLeft b) (bitmap_left st) /\
   - bitmap_top st' = fTop b' /\ bitmap_left st' = fLeft b') /\
  (fTop b' <= fBottom b' <= fBottom b /\
   fLeft b' <= fRight b' <= fRight b) /\
  (SkIRect_height b' = bitmap_rows st' / ftVertScale doVert /\
   SkIRect_width b' = bitmap_width st' / ftHoriScale doVert) /\
  (0 <= SkIRect_height b' * ftVertScale doVert <= bitmap_rows st' /\
   bitmap_rows st' <= bitmap_rows st /\
   0 <= SkIRect_width b' * ftHoriScale doVert <= bitmap_width st' /\
   bitmap_width st' <= bitmap_width st).
Proof.
  intros Hin. unfold fit_lcd_bitmap. cbv zeta.
  pose proof (fit_aligned bitmap_pitch mask_rowBytes st Hin) as Hal.
  cbv zeta in Hal.
  remember (skip_mask_columns _) as st1 eqn:Est1 in *. clear Est1.
  destruct Hal as (Ht1 & Hl1 & Hb1 & Hr1 & Hbt1 & Hbl1 & Hrows1 & Hwidth1).
  destruct Hin as (Hl & Hr & Ht & Hb & Hbl & Hbt & Hrows & Hwidth & Hx1
                   & Hx2 & Hy1 & Hy2).
  cbv zeta in Hl, Hr, Ht, Hb, Hx1, Hx2, Hy1, Hy2.
  assert (H1 : 0 <= bitmap_rows st1 <= 2 ^ 28) by lia.
  assert (H2 : 0 <= bitmap_width st1 <= 2 ^ 28) by lia.
  assert (H3 : - 2 ^ 28 <= fTop (mask_bounds st1)) by lia.
  assert (H4 : fTop (mask_bounds st1) <= fBottom (mask_bounds st1) <= 2 ^ 28)
    by lia.
  assert (H5 : - 2 ^ 28 <= fLeft (mask_bounds st1)) by lia.
  assert (H6 : fLeft (mask_bounds st1) <= fRight (mask_bounds st1) <= 2 ^ 28)
    by lia.
  pose proof (fit_clamped doVert st1 H1 H2 H3 H4 H5 H6) as Hcl.
  cbv zeta in Hcl.
  remember (clamp_mask_right _ _) as st2 eqn:Est2 in *. clear Est2.
  destruct Hcl as (Ht2 & Hl2 & Hbt2 & Hbl2 & Hrows2 & Hwidth2 & Hh2 & Hw2).
  assert (Eh : forall r, SkIRect_height r = fBottom r - fTop r)
    by reflexivity.
  assert (Ew : forall r, SkIRect_width r = fRight r - fLeft r)
    by reflexivity.
  rewrite !Eh, !Ew. rewrite Eh in Hrows2, Hh2. rewrite Ew in Hwidth2, Hw2.
  clear Eh Ew.
  destruct (scale_pos doVert) as [Hkv Hkh].
  destruct (min_scale_bounds (bitmap_rows st1)
              (fBottom (mask_bounds st1) - fTop (mask_bounds st1))
              (ftVertScale doVert)) as (Hr0 & Hr1' & Hr2);
    [tauto | apply Zle_minus_le_0; tauto | exact Hkv |].
  destruct (min_scale_bounds (bitmap_width st1)
              (fRight (mask_bounds st1) - fLeft (mask_bounds st1))
              (ftHoriScale doVert)) as (Hw0 & Hw1' & Hw2');
    [tauto | apply Zle_minus_le_0; tauto | exact Hkh |].
  rewrite <- Hrows2 in Hr0, Hr1', Hr2.
  rewrite <- Hwidth2 in Hw0, Hw1', Hw2'.
  destruct (div_scale_bounds _ _ _ Hkv Hr0 Hr2) as (Hq1 & Hq2 & Hq3).
  destruct (div_scale_bounds _ _ _ Hkh Hw0 Hw2') as (Hp1 & Hp2 & Hp3).
  clear Hrows2 Hwidth2.
  rewrite <- Hh2 in Hq1, Hq2, Hq3. rewrite <- Hw2 in Hp1, Hp2, Hp3.
  repeat split; try assumption; lia.
Qed.

(** The property holds of a bitmap of 30 samples by 12 rows at (-2, 3)
    and a mask of 8 by 10 at the origin. *)
Lemma fit_lcd_bitmap_fits_witness :
  let st' := fit_lcd_bitmap false 32 16 Example.fit in
  SkIRect_width (mask_bounds st') = bitmap_width st' / 3 /\
  bitmap_width st' <= 30.
Proof.
  assert (Hin : fit_input Example.fit) by (vm_compute; repeat split; congruence).
  destruct (fit_lcd_bitmap_fits false 32 16 Example.fit Hin)
    as (_ & _ & (_ & Hw) & (_ & _ & _ & Hlast)).
  split; [exact Hw | exact Hlast].
Defined.

(** *** The storage of an embedded pipeline *)

(** The alignment macros as quotients. *)
Lemma SkAlign_div (x : Z) :
  SkAlign4 x = (x + 3) / 4 * 4 /\
  SkAlign8 x = (x + 7) / 8 * 8 /\
  SkAlign16 x = (x + 15) / 16 * 16.
Proof.
  unfold SkAlign4, SkAlign8, SkAlign16.
  rewrite !Z.shiftl_mul_pow2, !Z.shiftr_div_pow2 by lia.
  repeat split; reflexivity.
Qed.

(** X21. With pointers of 4 or of 8 bytes, and [fPipelineStorage] at an
    address that is a multiple of the size of a pointer, [init] places
    the pipeline at a multiple of 16 inside the storage: the 12 bytes
    added to [kActualSize] are enough for the pipeline to end before the
    storage does. *)
Theorem init_pipeline_in_storage (sizeof_ptr kActualSize fPipelineStorage : Z) :
  sizeof_ptr = 4 \/ sizeof_ptr = 8 ->
  0 <= kActualSize ->
  0 <= fPipelineStorage ->
  fPipelineStorage mod sizeof_ptr = 0 ->
  let fPipeline := SkEmbeddableLinearPipeline.init fPipelineStorage in
  fPipeline mod 16 = 0 /\
  fPipelineStorage <= fPipeline /\
  fPipeline + kActualSize
  <= fPipelineStorage
     + SkEmbeddableLinearPipeline.sizeof_storage sizeof_ptr kActualSize.
Proof.
  intros Hptr Hsize Hpos Halign.
  unfold SkEmbeddableLinearPipeline.init,
    SkEmbeddableLinearPipeline.sizeof_storage,
    SkEmbeddableLinearPipeline.kPaddedSize,
    SkEmbeddableLinearPipeline.SkAlignPtr.
  cbv zeta.
  destruct (SkAlign_div fPipelineStorage) as (_ & _ & ->).
  destruct (SkAlign_div (kActualSize + 12)) as (-> & -> & _).
  destruct Hptr as [-> | ->]; cbn [Z.eqb Pos.eqb];
    rewrite Z.div_mul by lia;
    (split; [apply Z.mod_mul; lia|]);
    Z.to_euclidean_division_equations; lia.
Qed.

(** The property holds of a pipeline of 200 bytes whose storage begins at
    address 1004, with pointers of 4 bytes. *)
Lemma init_pipeline_in_storage_witness :
  SkEmbeddableLinearPipeline.init 1004 mod 16 = 0 /\
  1004 <= SkEmbeddableLinearPipeline.init 1004 /\
  SkEmbeddableLinearPipeline.init 1004 + 200
  <= 1004 + SkEmbeddableLinearPipeline.sizeof_storage 4 200.
Proof.
  exact (init_pipeline_in_storage 4 200 1004 (or_introl eq_refl)
           ltac:(lia) ltac:(lia) eq_refl).
Defined.
